(** * AI story generation and replenishment (routes/ai.js, routes/stories.js,
      routes/child.js, models/Story.js)

    A shallow embedding of the story replenishment subsystem of the
    storytelling backend: the fallback line parser [parseGeneratedText], the
    structured (JSON) tier that precedes it, the two provider gateways
    [generateWithOpenAI] and [textToElevenlabsAudio], the replenishment
    engine [generateCategoryStories] and the two story-completion handlers.

    JavaScript strings are sequences of UTF-16 code units; numbers that the
    code treats as counts, ages and minutes are integers ([Z]); asynchronous
    code is a program tree whose nodes are the awaited operations, so that
    other requests can be interleaved between any two of them. *)

From Stdlib Require Import String Ascii DecimalString.
From Stdlib Require Import List ZArith NArith Lia Bool.
Import ListNotations.

Set Implicit Arguments.
Set Warnings "-register-all".

(* ===================================================================== *)
(** ** JavaScript strings *)
(* ===================================================================== *)

Module JS.

(** A string is its list of UTF-16 code units. *)
Definition jsstring := list N.

Definition lit (s : string) : jsstring :=
  map N_of_ascii (list_ascii_of_string s).

Definition dec_nat (n : nat) : jsstring :=
  lit (NilZero.string_of_uint (Nat.to_uint n)).

Definition dec_N (n : N) : jsstring :=
  lit (NilZero.string_of_uint (N.to_uint n)).

(** [String(z)] for an integer number. *)
Definition dec_Z (z : Z) : jsstring :=
  lit (NilZero.string_of_int (Z.to_int z)).

Fixpoint str_eqb (a b : jsstring) : bool :=
  match a, b with
  | [], [] => true
  | x :: a', y :: b' => N.eqb x y && str_eqb a' b'
  | _, _ => false
  end.

(** ToBoolean on a string: the empty string is the only falsy one. *)
Definition nonempty (s : jsstring) : bool :=
  match s with [] => false | _ => true end.

(** [a || b] on strings. *)
Definition or_else (a b : jsstring) : jsstring :=
  if nonempty a then a else b.

(** WhiteSpace and LineTerminator code units: what [trim] strips and what
    [\s] matches. *)
Definition is_ws (c : N) : bool :=
  ((9 <=? c) && (c <=? 13) || (c =? 32) || (c =? 160) || (c =? 5760)
   || ((8192 <=? c) && (c <=? 8202)) || (c =? 8232) || (c =? 8233)
   || (c =? 8239) || (c =? 8287) || (c =? 12288) || (c =? 65279))%N.

(** [\d] *)
Definition is_digit (c : N) : bool := ((48 <=? c) && (c <=? 57))%N.

Definition digit_val (c : N) : Z := Z.of_N c - 48.

Fixpoint drop_while (p : N -> bool) (s : jsstring) : jsstring :=
  match s with
  | [] => []
  | c :: s' => if p c then drop_while p s' else s
  end.

Fixpoint take_while (p : N -> bool) (s : jsstring) : jsstring :=
  match s with
  | [] => []
  | c :: s' => if p c then c :: take_while p s' else []
  end.

Definition trim_start (s : jsstring) : jsstring := drop_while is_ws s.
Definition trim_end (s : jsstring) : jsstring := rev (drop_while is_ws (rev s)).

(** [s.trim()] *)
Definition trim (s : jsstring) : jsstring := trim_end (trim_start s).

(** [s.substring(0, n)] *)
Definition substring0 (n : nat) (s : jsstring) : jsstring := firstn n s.

(** [s.substring(a, b)] for [a <= b]. *)
Definition substring (a b : nat) (s : jsstring) : jsstring :=
  skipn a (firstn b s).

Fixpoint is_prefix (p s : jsstring) : bool :=
  match p, s with
  | [], _ => true
  | x :: p', y :: s' => N.eqb x y && is_prefix p' s'
  | _ :: _, [] => false
  end.

(** [s.split(sep)] for a non-empty separator: cut at each occurrence, left
    to right, occurrences not overlapping.  [skip] counts the code units of
    the current occurrence still to be passed over; [cur] is the segment
    being read, reversed. *)
Fixpoint split_go (sep : jsstring) (s : jsstring) (cur : jsstring) (skip : nat)
  : list jsstring :=
  match s with
  | [] => [rev cur]
  | c :: s' =>
      match skip with
      | S k => split_go sep s' cur k
      | O =>
          if is_prefix sep s
          then rev cur :: split_go sep s' [] (length sep - 1)
          else split_go sep s' (c :: cur) 0
      end
  end.

Definition split (sep : jsstring) (s : jsstring) : list jsstring :=
  split_go sep s [] 0.

(** [s.split(/\r?\n/)] *)
Fixpoint split_lines_go (s : jsstring) (cur : jsstring) : list jsstring :=
  match s with
  | [] => [rev cur]
  | c :: s' =>
      if (c =? 10)%N then rev cur :: split_lines_go s' []
      else if (c =? 13)%N then
        match s' with
        | d :: _ => if (d =? 10)%N then split_lines_go s' cur
                    else split_lines_go s' (c :: cur)
        | [] => split_lines_go s' (c :: cur)
        end
      else split_lines_go s' (c :: cur)
  end.

Definition split_lines (s : jsstring) : list jsstring := split_lines_go s [].

(** [parts.join(sep)] *)
Fixpoint join (sep : jsstring) (parts : list jsstring) : jsstring :=
  match parts with
  | [] => []
  | [p] => p
  | p :: rest => p ++ sep ++ join sep rest
  end.

(** [s.indexOf(c)] and [s.lastIndexOf(c)] for a single code unit; [None]
    is the result -1. *)
Fixpoint indexOf (c : N) (s : jsstring) : option nat :=
  match s with
  | [] => None
  | x :: s' => if N.eqb x c then Some O
               else option_map S (indexOf c s')
  end.

Fixpoint lastIndexOf (c : N) (s : jsstring) : option nat :=
  match s with
  | [] => None
  | x :: s' =>
      match lastIndexOf c s' with
      | Some i => Some (S i)
      | None => if N.eqb x c then Some O else None
      end
  end.

(** [list.slice(0, n)] for an integer [n]: a negative end counts from the
    end of the list. *)
Definition slice0 {A} (n : Z) (l : list A) : list A :=
  if (n <? 0)%Z then firstn (Z.to_nat (Z.of_nat (length l) + n)) l
  else firstn (Z.to_nat n) l.

(** Case-insensitive match of one code unit against an ASCII lower-case
    letter, as the [i] flag does it without the [u] flag: only the two
    ASCII forms of the letter match. *)
Definition ci_eq (lower : N) (c : N) : bool :=
  (N.eqb c lower || N.eqb c (lower - 32))%N.

(** [parseInt(s, 10)]: leading white space, an optional sign, then the
    longest run of decimal digits; [None] is NaN. *)
Definition digits_value (ds : jsstring) : Z :=
  fold_left (fun acc c => 10 * acc + digit_val c)%Z ds 0%Z.

Definition parseInt10 (s : jsstring) : option Z :=
  let s1 := trim_start s in
  let '(neg, s2) :=
    match s1 with
    | c :: r => if (c =? 45)%N then (true, r)
                else if (c =? 43)%N then (false, r) else (false, s1)
    | [] => (false, s1)
    end in
  match take_while is_digit s2 with
  | [] => None
  | ds => Some (if neg then - digits_value ds else digits_value ds)%Z
  end.

End JS.
Import JS.

(* ===================================================================== *)
(** ** The Output Parser: fallback line mode ([parseGeneratedText]) *)
(* ===================================================================== *)

(** A generation candidate, as both tiers push it. *)
Record AgeRange := { min : Z; max : Z }.

Record Candidate := {
  title : jsstring;
  description : jsstring;
  content : jsstring;
  duration : Z;
  ageRange : AgeRange
}.

(** [{ min: Math.max(2, childAge - 2), max: Math.min(12, childAge + 2) }] *)
Definition age_range_for (childAge : Z) : AgeRange :=
  {| min := Z.max 2 (childAge - 2); max := Z.min 12 (childAge + 2) |}.

(** [Math.min(20, Math.max(5, n))] *)
Definition clamp_duration (n : Z) : Z := Z.min 20 (Z.max 5 n).

Module Regex.

(** The five separators of the fallback mode, in the order the code tries
    them; the em dash is U+2014 and the en dash U+2013. *)
Definition sep_hyphen : jsstring := lit " - ".
Definition sep_em_dash : jsstring := [32; 8212; 32]%N.
Definition sep_en_dash : jsstring := [32; 8211; 32]%N.
Definition sep_colon : jsstring := lit ":".
Definition sep_pipe : jsstring := lit " | ".

(** [min] under the [i] flag, at the head of [s]; returns what follows. *)
Definition min_word (s : jsstring) : option jsstring :=
  match s with
  | m :: i :: n :: r =>
      if ci_eq 109 m && ci_eq 105 i && ci_eq 110 n then Some r else None
  | _ => None
  end.

(** [\s*min] at the head of [s]: either [min] is here, or one white space
    character is consumed and the rest matches. *)
Fixpoint ws_then_min (s : jsstring) : bool :=
  match min_word s with
  | Some _ => true
  | None =>
      match s with
      | c :: s' => is_ws c && ws_then_min s'
      | [] => false
      end
  end.

(** [(\d{1,2})\s*min] anchored at the head of [s]: two digits are tried
    before one.  The result is [parseInt] of the captured group. *)
Definition duration_at (s : jsstring) : option Z :=
  match s with
  | d1 :: s1 =>
      if is_digit d1 then
        let two :=
          match s1 with
          | d2 :: s2 =>
              if is_digit d2 && ws_then_min s2
              then Some (10 * digit_val d1 + digit_val d2)%Z else None
          | [] => None
          end in
        match two with
        | Some v => Some v
        | None => if ws_then_min s1 then Some (digit_val d1) else None
        end
      else None
  | [] => None
  end.

(** [line.match(/(\d{1,2})\s*min/i)]: the leftmost position that matches. *)
Fixpoint duration_match (s : jsstring) : option Z :=
  match duration_at s with
  | Some v => Some v
  | None => match s with
            | _ :: s' => duration_match s'
            | [] => None
            end
  end.

(** [-], em dash, en dash or colon: the class that opens the trailing
    duration fragment. *)
Definition is_dash_or_colon (c : N) : bool :=
  ((c =? 45) || (c =? 8212) || (c =? 8211) || (c =? 58))%N.

(** [\s*\d+\s*min\.?$] at the head of [s]. *)
Definition min_tail (s : jsstring) : bool :=
  let s1 := drop_while is_ws s in
  match take_while is_digit s1 with
  | [] => false
  | _ =>
      match min_word (drop_while is_ws (drop_while is_digit s1)) with
      | Some [] => true
      | Some [dot] => (dot =? 46)%N
      | _ => false
      end
  end.

(** [s.replace(/[-—–:]\s*\d+\s*min\.?$/i, '')]: the leftmost match runs to
    the end of the string, so replacing it cuts the string there. *)
Fixpoint strip_min_suffix (s : jsstring) : jsstring :=
  match s with
  | [] => []
  | c :: s' =>
      if is_dash_or_colon c && min_tail s' then []
      else c :: strip_min_suffix s'
  end.

(** The class [[\d\.\)\s]]. *)
Definition is_numbering (c : N) : bool :=
  is_digit c || (c =? 46)%N || (c =? 41)%N || is_ws c.

(** [s.replace(/^[\d\.\)\s]+/, '')] *)
Definition strip_numbering (s : jsstring) : jsstring :=
  drop_while is_numbering s.

End Regex.
Import Regex.

(** The chain of [split] calls of the loop body; [None] is the [continue]
    taken when no separator gives three segments. *)
Definition line_parts (line : jsstring) : option (list jsstring) :=
  let parts := split sep_hyphen line in
  let parts := if (length parts <? 3)%nat then split sep_em_dash line else parts in
  let parts := if (length parts <? 3)%nat then split sep_en_dash line else parts in
  let parts := if (length parts <? 3)%nat then split sep_colon line else parts in
  let parts := if (length parts <? 3)%nat then split sep_pipe line else parts in
  if (length parts <? 3)%nat then None else Some parts.

(** The duration of a line: 8 unless the pattern matches. *)
Definition line_duration (line : jsstring) : Z :=
  match duration_match line with
  | Some d => clamp_duration d
  | None => 8
  end.

Definition default_content (childName : jsstring) : jsstring :=
  lit "Once upon a time, " ++ childName ++ lit " discovered something magical...".

(** The body of the loop once [parts] has three segments or more;
    [already] is [parsed.length]. *)
Definition candidate_of_line (childName : jsstring) (childAge : Z)
    (already : nat) (line : jsstring) (parts : list jsstring) : Candidate :=
  let title0 :=
    trim (strip_numbering
            (or_else (nth 0 parts []) (lit "Story " ++ dec_nat (already + 1)))) in
  let title1 := substring0 100 title0 in
  let description0 :=
    or_else (nth 1 parts [])
            (lit "A wonderful story for " ++ childName ++ lit ".") in
  let description1 := substring0 500 description0 in
  let storyText := trim (join (lit " - ") (skipn 2 parts)) in
  {| title := trim (strip_min_suffix title1);
     description := trim (strip_min_suffix description1);
     content := or_else storyText (default_content childName);
     duration := line_duration line;
     ageRange := age_range_for childAge |}.

(** The [for] loop over the lines, [parsed] being the array built so far. *)
Fixpoint parse_loop (childName : jsstring) (childAge count : Z)
    (lines : list jsstring) (parsed : list Candidate) : list Candidate :=
  match lines with
  | [] => parsed
  | line :: rest =>
      if (Z.of_nat (length parsed) <? count)%Z then
        match line_parts line with
        | None => parse_loop childName childAge count rest parsed
        | Some parts =>
            parse_loop childName childAge count rest
              (parsed ++ [candidate_of_line childName childAge (length parsed) line parts])
        end
      else parsed
  end.

(** [(text || '').split(/\r?\n/).map((l) => l.trim()).filter(Boolean)] *)
Definition text_lines (text : jsstring) : list jsstring :=
  filter nonempty (map trim (split_lines text)).

Definition parseGeneratedText (text childName : jsstring) (childAge count : Z)
  : list Candidate :=
  slice0 count (parse_loop childName childAge count (text_lines text) []).

(* ===================================================================== *)
(** ** JSON values and the structured tier *)
(* ===================================================================== *)

(** A JSON number.  The code observes a parsed number only through
    ToBoolean and ToString, so a number is kept as these two observations. *)
Record jsnumber := { num_text : jsstring; num_truthy : bool }.

(** What [JSON.parse] and the HTTP client hand back. *)
Inductive jsvalue :=
| JNull
| JBool (b : bool)
| JNum (n : jsnumber)
| JStr (s : jsstring)
| JArr (items : list jsvalue)
| JObj (fields : list (jsstring * jsvalue)).

Inductive exn :=
| InvalidCategoryKey      (* new Error('Invalid categoryKey') *)
| TypeError
| SyntaxError             (* JSON.parse *)
| AxiosError              (* a rejected HTTP call *)
| IOError                 (* a rejected file write *)
| StoreError              (* a rejected Story.create *)
| ValidationError.        (* a save of a document that breaks its schema *)

Module Json.

(** Own property lookup; when a key is repeated the last one wins, as in
    [JSON.parse]. *)
Fixpoint lookup (key : jsstring) (fields : list (jsstring * jsvalue))
  : option jsvalue :=
  match fields with
  | [] => None
  | (k, v) :: rest =>
      match lookup key rest with
      | Some v' => Some v'
      | None => if str_eqb k key then Some v else None
      end
  end.

(** [v.key] for one of the keys the code reads ([title], [content],
    [choices], ...): [None] is [undefined].  Only objects have such a
    property; none of these keys exists on a prototype. *)
Definition get (key : string) (v : jsvalue) : option jsvalue :=
  match v with
  | JObj fields => lookup (lit key) fields
  | _ => None
  end.

(** [v?.[0]] *)
Definition get0 (v : jsvalue) : option jsvalue :=
  match v with
  | JArr (x :: _) => Some x
  | JStr (c :: _) => Some (JStr [c])
  | JObj fields => lookup (lit "0") fields
  | _ => None
  end.

(** ToBoolean *)
Definition truthy (v : jsvalue) : bool :=
  match v with
  | JNull => false
  | JBool b => b
  | JNum n => num_truthy n
  | JStr s => nonempty s
  | JArr _ | JObj _ => true
  end.

Definition truthy_opt (v : option jsvalue) : bool :=
  match v with Some x => truthy x | None => false end.

(** [String(v)], which on parsed JSON agrees with [v.toString()] for every
    [v] other than [null].  An array joins its items with a comma, [null]
    items printing as nothing.  An object has the inherited [toString]
    unless it carries an own [toString] key, whose value cannot be called:
    then the conversion throws. *)
Fixpoint toString (v : jsvalue) : exn + jsstring :=
  match v with
  | JNull => inr (lit "null")
  | JBool true => inr (lit "true")
  | JBool false => inr (lit "false")
  | JNum n => inr (num_text n)
  | JStr s => inr s
  | JArr items =>
      (fix items_str (l : list jsvalue) : exn + jsstring :=
         match l with
         | [] => inr []
         | x :: rest =>
             match (match x with JNull => inr [] | _ => toString x end) with
             | inl e => inl e
             | inr sx =>
                 match rest with
                 | [] => inr sx
                 | _ => match items_str rest with
                        | inl e => inl e
                        | inr sr => inr (sx ++ lit "," ++ sr)
                        end
                 end
             end
         end) items
  | JObj fields =>
      match lookup (lit "toString") fields with
      | Some _ => inl TypeError
      | None => inr (lit "[object Object]")
      end
  end.

End Json.

Notation "'try!' x <- c ; k" :=
  (match c with inl e => inl e | inr x => k end)
  (at level 60, x name, c at next level, right associativity).

(** The object literal built for an accepted element: the four conversions
    run in this order and the first that throws aborts the literal. *)
Definition candidate_of_object (childAge : Z) (obj : jsvalue) : exn + Candidate :=
  try! t <- match Json.get "title" obj with
            | Some v => Json.toString v
            | None => inr (lit "undefined")
            end ;
  try! d <- match Json.get "description" obj with
            | Some v => if Json.truthy v then Json.toString v else inr []
            | None => inr []
            end ;
  try! c <- match Json.get "content" obj with
            | Some v => Json.toString v
            | None => inr (lit "undefined")
            end ;
  try! n <- match Json.get "duration" obj with
            | Some v => if Json.truthy v then Json.toString v else inr (lit "8")
            | None => inr (lit "8")
            end ;
  inr {| title := substring0 100 (trim t);
         description := substring0 500 (trim d);
         content := trim c;
         duration :=
           clamp_duration
             (match parseInt10 n with
              | Some 0%Z | None => 8
              | Some k => k
              end);
         ageRange := age_range_for childAge |}.

(** [for (const obj of arr)]: the array [aggregatedParsed] built so far is
    returned together with the exception that ended the loop, if any. *)
Fixpoint structured_loop (childAge need : Z) (arr : list jsvalue)
    (aggregatedParsed : list Candidate) : list Candidate * option exn :=
  match arr with
  | [] => (aggregatedParsed, None)
  | obj :: rest =>
      if negb (Json.truthy obj)
         || negb (Json.truthy_opt (Json.get "title" obj))
         || negb (Json.truthy_opt (Json.get "content" obj))
      then structured_loop childAge need rest aggregatedParsed
      else
        match candidate_of_object childAge obj with
        | inl e => (aggregatedParsed, Some e)
        | inr candidate =>
            let pushed := aggregatedParsed ++ [candidate] in
            if (need <=? Z.of_nat (length pushed))%Z then (pushed, None)
            else structured_loop childAge need rest pushed
        end
  end.

Section Parser.

(** [JSON.parse] is the runtime's; [None] is a thrown SyntaxError. *)
Variable JSON_parse : jsstring -> option jsvalue.

(** The body of the [try] block, from [aiText.trim()] on. *)
Definition structured_try (aiText : jsstring) (childAge need : Z)
  : list Candidate * option exn :=
  let maybeJson := trim aiText in
  match indexOf 91 maybeJson, lastIndexOf 93 maybeJson with
  | Some firstBracket, Some lastBracket =>
      if (firstBracket <? lastBracket)%nat then
        let jsonStr := substring firstBracket (lastBracket + 1) maybeJson in
        match JSON_parse jsonStr with
        | None => ([], Some SyntaxError)
        | Some (JArr arr) => structured_loop childAge need arr []
        | Some _ => ([], None)
        end
      else ([], None)
  | _, _ => ([], None)
  end.

(** [try { ... } catch (e) { }]: the exception is dropped, what was pushed
    before it stays. *)
Definition structured_tier (aiText : jsstring) (childAge need : Z)
  : list Candidate :=
  fst (structured_try aiText childAge need).

(** The Output Parser on a non-empty text: the structured tier, then the
    line mode when the structured tier left [aggregatedParsed] empty. *)
Definition parse_ai_text (aiText childName : jsstring) (childAge need : Z)
  : list Candidate :=
  let aggregatedParsed :=
    if nonempty aiText then structured_tier aiText childAge need else [] in
  if (length aggregatedParsed =? 0)%nat && nonempty aiText
  then aggregatedParsed
       ++ slice0 need (parseGeneratedText aiText childName childAge need)
  else aggregatedParsed.

End Parser.

(* ===================================================================== *)
(** ** The story store (models/Story.js) *)
(* ===================================================================== *)

Module Doc.

(** The store is a Mongoose model over the schema of models/Story.js.  Of
    Mongoose the model keeps what that schema and the queries of the routes
    rely on: the [trim] setter of [title] runs on the documents created and
    on the titles queried; [required] rejects a missing or empty string;
    paths the schema does not declare are neither stored by [create] nor
    written by [save]; [create] and [save] both run the validators of the
    schema on the whole document before anything is written. *)

(** A stored story: the schema paths this subsystem reads or writes.  The
    schema's counter of completions is [stats.totalCompletions]. *)
Record Story := {
  _id : nat;
  title : jsstring;
  description : jsstring;
  content : jsstring;
  thumbnail : jsstring;
  category : jsstring;
  theme : jsstring;
  isAIGenerated : bool;
  generatedForCollection : option jsstring;
  ageRange : AgeRange;
  duration : Z;
  stats_totalPlays : Z;
  stats_totalCompletions : Z;
  isActive : bool;
  audioUrl : option jsstring;
  audioPending : bool
}.

(** The object handed to [Story.create].  [stats_completions] is the key
    [stats.completions] of that object, a path the schema does not have.
    [theme], [category] and [thumbnail] are read off the collection's
    entry and are [None] when the entry has no such property. *)
Record StoryData := {
  d_title : jsstring;
  d_description : jsstring;
  d_content : jsstring;
  d_duration : Z;
  d_ageRange : AgeRange;
  d_theme : option jsstring;
  d_category : option jsstring;
  d_isAIGenerated : bool;
  d_isActive : bool;
  d_generatedForCollection : option jsstring;
  d_thumbnail : option jsstring;
  d_stats_totalPlays : Z;
  d_stats_completions : Z;
  d_audioUrl : option jsstring;
  d_audioPending : bool
}.

Definition mem (x : jsstring) (l : list jsstring) : bool :=
  existsb (str_eqb x) l.

Definition category_enum : list jsstring :=
  [lit "interactive"; lit "audio"; lit "video"; lit "bedtime"; lit "educational"].

Definition theme_enum : list jsstring :=
  [lit "kindness"; lit "courage"; lit "friendship"; lit "learning";
   lit "creativity"; lit "nature"; lit "family"; lit "adventure";
   lit "science"; lit "ai_generated"].

Definition collection_enum : list jsstring :=
  [lit "mom-stories"; lit "grandma-stories"; lit "now-stories"; lit "learn-stories"].

Definition between (lo hi x : Z) : bool := ((lo <=? x) && (x <=? hi))%Z.

(** A required string with an [enum]: present and one of the values. *)
Definition one_of (v : option jsstring) (values : list jsstring) : bool :=
  match v with
  | Some x => mem x values
  | None => false
  end.

(** The validators of the schema, run on the document after the [trim]
    setter of [title]; a required string must not be empty. *)
Definition validate (d : StoryData) : bool :=
  nonempty (trim (d_title d))
  && (length (trim (d_title d)) <=? 100)%nat
  && nonempty (d_description d)
  && (length (d_description d) <=? 500)%nat
  && nonempty (d_content d)
  && one_of (d_category d) category_enum
  && one_of (d_theme d) theme_enum
  && match d_generatedForCollection d with
     | Some k => mem k collection_enum
     | None => true
     end
  && between 2 12 (min (d_ageRange d))
  && between 2 12 (max (d_ageRange d))
  && between 1 60 (d_duration d).

(** The schema's default for [thumbnail], as the source file spells it. *)
Definition default_thumbnail : jsstring := [240; 376; 8220; 353]%N.

Definition or_default (v : option jsstring) (d : jsstring) : jsstring :=
  match v with
  | Some x => x
  | None => d
  end.

(** The document the store keeps for accepted data: [title] trimmed, the
    schema's defaults for [thumbnail] and [stats.totalCompletions], and no
    trace of the undeclared [stats.completions].  Accepted data has a
    [category] and a [theme]. *)
Definition new_story (id : nat) (d : StoryData) : Story :=
  {| _id := id;
     title := trim (d_title d);
     description := d_description d;
     content := d_content d;
     thumbnail := or_default (d_thumbnail d) default_thumbnail;
     category := or_default (d_category d) [];
     theme := or_default (d_theme d) [];
     isAIGenerated := d_isAIGenerated d;
     generatedForCollection := d_generatedForCollection d;
     ageRange := d_ageRange d;
     duration := d_duration d;
     stats_totalPlays := d_stats_totalPlays d;
     stats_totalCompletions := 0;
     isActive := d_isActive d;
     audioUrl := d_audioUrl d;
     audioPending := d_audioPending d |}.

(** The validators of the schema on a document loaded from the store, as
    [save] runs them on every loaded path; no setter runs on a loaded
    path.  The paths that [Story] does not keep are taken to pass. *)
Definition valid (s : Story) : bool :=
  nonempty (title s)
  && (length (title s) <=? 100)%nat
  && nonempty (description s)
  && (length (description s) <=? 500)%nat
  && nonempty (content s)
  && mem (category s) category_enum
  && mem (theme s) theme_enum
  && match generatedForCollection s with
     | Some k => mem k collection_enum
     | None => true
     end
  && between 2 12 (min (ageRange s))
  && between 2 12 (max (ageRange s))
  && between 1 60 (duration s).

(** Query filters, as the routes write them. *)
Inductive Cond :=
| IdIs (id : nat)                       (* _id: id *)
| TitleIs (t : jsstring)                (* title: t, cast by the trim setter *)
| ContentIs (c : jsstring)              (* content: c *)
| CollectionIs (k : jsstring)           (* generatedForCollection: k *)
| ActiveIs (b : bool)                   (* isActive: b *)
| AIGeneratedIs (b : bool)              (* isAIGenerated: b *)
| HasAudioUrl                           (* audioUrl: { $exists: true, $ne: null } *)
| AnyOf (a b : Cond).                   (* $or: [a, b] *)

Definition Filter := list Cond.

Fixpoint holds (c : Cond) (s : Story) : bool :=
  match c with
  | IdIs id => Nat.eqb (_id s) id
  | TitleIs t => str_eqb (title s) (trim t)
  | ContentIs c => str_eqb (content s) c
  | CollectionIs k =>
      match generatedForCollection s with
      | Some k' => str_eqb k' k
      | None => false
      end
  | ActiveIs b => Bool.eqb (isActive s) b
  | AIGeneratedIs b => Bool.eqb (isAIGenerated s) b
  | HasAudioUrl => match audioUrl s with Some _ => true | None => false end
  | AnyOf a b => holds a s || holds b s
  end.

Definition matches (q : Filter) (s : Story) : bool := forallb (fun c => holds c s) q.

Definition countDocuments (q : Filter) (store : list Story) : Z :=
  Z.of_nat (length (filter (matches q) store)).

Definition findOne (q : Filter) (store : list Story) : option Story :=
  find (matches q) store.

(** What [doc.save()] writes: the schema paths that were assigned. *)
Inductive Change :=
| SetIsActive (b : bool).

Definition apply_change (c : Change) (s : Story) : Story :=
  match c with
  | SetIsActive b =>
      {| _id := _id s; title := title s; description := description s;
         content := content s; thumbnail := thumbnail s; category := category s;
         theme := theme s; isAIGenerated := isAIGenerated s;
         generatedForCollection := generatedForCollection s;
         ageRange := ageRange s; duration := duration s;
         stats_totalPlays := stats_totalPlays s;
         stats_totalCompletions := stats_totalCompletions s;
         isActive := b; audioUrl := audioUrl s; audioPending := audioPending s |}
  end.

Definition update (id : nat) (changes : list Change) (store : list Story)
  : list Story :=
  map (fun s => if Nat.eqb (_id s) id
                then fold_left (fun s c => apply_change c s) changes s
                else s) store.

Fixpoint deleteOne (id : nat) (store : list Story) : list Story :=
  match store with
  | [] => []
  | s :: rest => if Nat.eqb (_id s) id then rest else s :: deleteOne id rest
  end.

(** The filter of the two counts and of the collection listing. *)
Definition active_ai_in (categoryKey : jsstring) : Filter :=
  [CollectionIs categoryKey; ActiveIs true; AIGeneratedIs true].

End Doc.

(* ===================================================================== *)
(** ** Awaited operations and asynchronous programs *)
(* ===================================================================== *)

(** The environment variables that are only read. *)
Record Config := {
  OPENAI_API_KEY : option jsstring;
  OPENAI_MODEL : option jsstring;
  ELEVENLABS_API_KEY : option jsstring;
  HOSTNAME : option jsstring
}.

(** ToBoolean of [process.env.X]. *)
Definition env_set (v : option jsstring) : bool :=
  match v with Some s => nonempty s | None => false end.

(** [process.env.X || d] *)
Definition env_or (v : option jsstring) (d : jsstring) : jsstring :=
  match v with Some s => or_else s d | None => d end.

(** The two things read from the Express request. *)
Record Request := {
  protocol : option jsstring;      (* req.protocol *)
  host : option jsstring           (* req.get('host') *)
}.

Record Message := { role : jsstring; text : jsstring }.

(** The body posted to the chat completion endpoint; [temperature] and [n]
    are constants of the code. *)
Record ChatPayload := {
  model : jsstring;
  messages : list Message;
  max_tokens : Z
}.

(** A call of [generateCategoryStories] that is started and not awaited. *)
Record Replenish := {
  r_categoryKey : jsstring;
  r_childName : jsstring;
  r_childAge : Z;
  r_targetTotal : Z
}.

(** One constructor per operation on the outside world; the index is the
    type of what the operation hands back.  A rejected promise is a [None]
    (or [false]) here and is turned into a throw by the wrappers below. *)
Inductive Eff : Type -> Type :=
| CountDocuments (q : Doc.Filter) : Eff Z
| FindOne (q : Doc.Filter) : Eff (option Doc.Story)
| Create (d : Doc.StoryData) : Eff (option Doc.Story)
| Save (id : nat) (changes : list Doc.Change) : Eff unit
| SaveChild (seconds : Z) : Eff unit     (* child.save(), play time raised *)
| DeleteOne (id : nat) : Eff unit
| PostChat (payload : ChatPayload) : Eff (option jsvalue)
| PostTTS (voiceId text : jsstring) : Eff (option (list N))
| GetVoices : Eff (option jsvalue)
| Mkdir : Eff unit
| WriteFile (filename : jsstring) (bytes : list N) : Eff bool
| DateNow : Eff N
| GetVoiceEnv : Eff (option jsstring)       (* process.env.ELEVENLABS_VOICE *)
| SetVoiceEnv (v : jsstring) : Eff unit
| Spawn (call : Replenish) : Eff unit.

Inductive Prog (A : Type) : Type :=
| Ret (a : A)
| Throw (e : exn)
| Vis {X : Type} (e : Eff X) (k : X -> Prog A).

Arguments Ret {A} a.
Arguments Throw {A} e.
Arguments Vis {A X} e k.

Fixpoint bind {A B} (p : Prog A) (f : A -> Prog B) : Prog B :=
  match p with
  | Ret a => f a
  | Throw e => Throw e
  | Vis e k => Vis e (fun x => bind (k x) f)
  end.

(** [try { p } catch (e) { h e }] *)
Fixpoint try_catch {A} (p : Prog A) (h : exn -> Prog A) : Prog A :=
  match p with
  | Ret a => Ret a
  | Throw e => h e
  | Vis e k => Vis e (fun x => try_catch (k x) h)
  end.

Definition await {X} (e : Eff X) : Prog X := Vis e Ret.

Notation "x <- p ;; q" := (bind p (fun x => q))
  (at level 61, p at next level, right associativity).
Notation "p ;;; q" := (bind p (fun _ => q))
  (at level 61, right associativity).

(** An awaited promise that may reject. *)
Definition await_or_throw {X} (e : Eff (option X)) (err : exn) : Prog X :=
  r <- await e ;;
  match r with Some x => Ret x | None => Throw err end.

(** What has happened: each operation with its result. *)
Inductive Event :=
| Ev {X : Type} (e : Eff X) (result : X).

Record World := {
  store : list Doc.Story;
  next_id : nat;
  voice_env : option jsstring;       (* process.env.ELEVENLABS_VOICE *)
  tick : nat;                        (* operations performed so far *)
  log : list Event
}.

(** The answers of the outside world, which may change with time. *)
Record Oracle := {
  chat_response : nat -> ChatPayload -> option jsvalue;
  tts_response : nat -> jsstring -> jsstring -> option (list N);
  voices_response : nat -> option jsvalue;
  write_ok : nat -> jsstring -> bool;
  store_accepts : nat -> bool;
  clock : nat -> N
}.

Definition with_store (w : World) (s : list Doc.Story) : World :=
  {| store := s; next_id := next_id w; voice_env := voice_env w;
     tick := tick w; log := log w |}.

Definition ticked {X} (w : World) (e : Eff X) (x : X) : World :=
  {| store := store w; next_id := next_id w; voice_env := voice_env w;
     tick := S (tick w); log := log w ++ [Ev e x] |}.

(** One operation on the world. *)
Definition perform (o : Oracle) {X} (e : Eff X) (w : World) : X * World :=
  match e in Eff X return X * World with
  | CountDocuments q => (Doc.countDocuments q (store w), w)
  | FindOne q => (Doc.findOne q (store w), w)
  | Create d =>
      if Doc.validate d && store_accepts o (tick w) then
        let s := Doc.new_story (next_id w) d in
        (Some s,
         {| store := store w ++ [s]; next_id := S (next_id w);
            voice_env := voice_env w; tick := tick w; log := log w |})
      else (None, w)
  | Save id changes => (tt, with_store w (Doc.update id changes (store w)))
  | SaveChild _ => (tt, w)
  | DeleteOne id => (tt, with_store w (Doc.deleteOne id (store w)))
  | PostChat payload => (chat_response o (tick w) payload, w)
  | PostTTS voiceId txt => (tts_response o (tick w) voiceId txt, w)
  | GetVoices => (voices_response o (tick w), w)
  | Mkdir => (tt, w)
  | WriteFile filename _ => (write_ok o (tick w) filename, w)
  | DateNow => (clock o (tick w), w)
  | GetVoiceEnv => (voice_env w, w)
  | SetVoiceEnv v =>
      (tt, {| store := store w; next_id := next_id w; voice_env := Some v;
              tick := tick w; log := log w |})
  | Spawn _ => (tt, w)
  end.

(** One operation of a program, recorded in the log. *)
Definition exec (o : Oracle) {X} (e : Eff X) (w : World) : X * World :=
  let '(x, w') := perform o e w in (x, ticked w' e x).

(** What other requests do to the store just before the operation at a
    given tick. *)
Definition Interference := nat -> list Doc.Story -> list Doc.Story.

Definition alone : Interference := fun _ s => s.

(** A program run to its end, other requests interfering before each of
    its operations. *)
Fixpoint run (o : Oracle) (others : Interference) {A} (p : Prog A) (w : World)
  : (exn + A) * World :=
  match p with
  | Ret a => (inr a, w)
  | Throw e => (inl e, w)
  | Vis e k =>
      let w0 := with_store w (others (tick w) (store w)) in
      let '(x, w1) := exec o e w0 in
      run o others (k x) w1
  end.

(** Two programs run in turns on one world: at each turn of the schedule
    the chosen program performs its next operation, if it has one left. *)
Definition step (o : Oracle) {A} (p : Prog A) (w : World) : Prog A * World :=
  match p with
  | Vis e k => let '(x, w1) := exec o e w in (k x, w1)
  | _ => (p, w)
  end.

Fixpoint run2 (o : Oracle) (schedule : list bool) {A B}
    (p : Prog A) (q : Prog B) (w : World) : Prog A * Prog B * World :=
  match schedule with
  | [] => (p, q, w)
  | true :: rest => let '(p', w') := step o p w in run2 o rest p' q w'
  | false :: rest => let '(q', w') := step o q w in run2 o rest p q' w'
  end.

(* ===================================================================== *)
(** ** Collection registry ([STORY_CATEGORIES]) *)
(* ===================================================================== *)

Record Category := {
  label : jsstring;
  icon : jsstring;
  prompt : jsstring;
  c_theme : jsstring;
  c_category : jsstring
}.

Definition mom_stories : Category :=
  {| label := lit "Stories from Mom";
     icon := [55357; 56425]%N;
     prompt := lit "Generate warm, nurturing stories told from a mother's perspective. Focus on bedtime comfort, gentle life lessons, and family love.";
     c_theme := lit "family";
     c_category := lit "audio" |}.

Definition grandma_stories : Category :=
  {| label := lit "Stories from Grandma";
     icon := [55357; 56437]%N;
     prompt := lit "Generate wise, nostalgic stories told from a grandmother's perspective. Include timeless wisdom, traditions, and gentle humor.";
     c_theme := lit "family";
     c_category := lit "audio" |}.

Definition now_stories : Category :=
  {| label := lit "Perfect Right Now";
     icon := [11088]%N;
     prompt := lit "Generate engaging, age-appropriate stories perfect for the current moment. Include adventure, excitement, and positive energy.";
     c_theme := lit "adventure";
     c_category := lit "interactive" |}.

Definition learn_stories : Category :=
  {| label := lit "Learning Adventures";
     icon := [55356; 57235]%N;
     prompt := lit "Generate educational stories that teach concepts through adventure. Focus on science, nature, problem-solving, and curiosity.";
     c_theme := lit "learning";
     c_category := lit "educational" |}.

(** What [STORY_CATEGORIES[categoryKey]] can be when it is not undefined:
    an entry of the table, or a member that the object literal inherits
    from [Object.prototype].  Such a member is truthy and has none of the
    five properties of an entry. *)
Inductive Entry :=
| Own (c : Category)
| Inherited.

Coercion Own : Category >-> Entry.

(** The names of the members of [Object.prototype]. *)
Definition Object_prototype_keys : list jsstring :=
  [lit "constructor"; lit "__defineGetter__"; lit "__defineSetter__";
   lit "hasOwnProperty"; lit "__lookupGetter__"; lit "__lookupSetter__";
   lit "isPrototypeOf"; lit "propertyIsEnumerable"; lit "toString";
   lit "valueOf"; lit "__proto__"; lit "toLocaleString"].

(** [STORY_CATEGORIES[categoryKey]]: the four keys of the table, then the
    prototype chain; [None] is the [undefined] that makes the caller
    throw. *)
Definition STORY_CATEGORIES (categoryKey : jsstring) : option Entry :=
  if str_eqb categoryKey (lit "mom-stories") then Some (Own mom_stories)
  else if str_eqb categoryKey (lit "grandma-stories") then Some (Own grandma_stories)
  else if str_eqb categoryKey (lit "now-stories") then Some (Own now_stories)
  else if str_eqb categoryKey (lit "learn-stories") then Some (Own learn_stories)
  else if existsb (str_eqb categoryKey) Object_prototype_keys then Some Inherited
  else None.

(** [category.theme], [category.category] and [category.icon]. *)
Definition theme_of (category : Entry) : option jsstring :=
  match category with
  | Own c => Some (c_theme c)
  | Inherited => None
  end.

Definition category_of (category : Entry) : option jsstring :=
  match category with
  | Own c => Some (c_category c)
  | Inherited => None
  end.

Definition icon_of (category : Entry) : option jsstring :=
  match category with
  | Own c => Some (icon c)
  | Inherited => None
  end.

(** [category.prompt] and [category.label] inside a template literal,
    which spells an undefined value out. *)
Definition prompt_of (category : Entry) : jsstring :=
  match category with
  | Own c => prompt c
  | Inherited => lit "undefined"
  end.

Definition label_of (category : Entry) : jsstring :=
  match category with
  | Own c => label c
  | Inherited => lit "undefined"
  end.

(* ===================================================================== *)
(** ** Provider gateway *)
(* ===================================================================== *)

Definition opt_bind {A B} (o : option A) (f : A -> option B) : option B :=
  match o with Some a => f a | None => None end.

(** [res.data?.choices?.[0]?.message?.content || ''] *)
Definition chat_content (data : jsvalue) : jsvalue :=
  let choice := opt_bind (Json.get "choices" data) Json.get0 in
  match opt_bind (opt_bind choice (Json.get "message")) (Json.get "content") with
  | Some v => if Json.truthy v then v else JStr []
  | None => JStr []
  end.

(** [a || b] on possibly undefined values. *)
Definition first_truthy (a b : option jsvalue) : option jsvalue :=
  if Json.truthy_opt a then a else b.

(** The voice picked from the listing: [candidates[0]]'s first truthy id
    among [voice_id], [id], [voiceId], [uuid]; [None] when it is falsy. *)
Definition fallback_voice (data : jsvalue) : option jsvalue :=
  let candidates :=
    first_truthy (first_truthy (Json.get "voices" data) (Some data))
                 (Some (JArr [])) in
  let candidate :=
    match candidates with
    | Some (JArr (x :: _)) => Some x
    | _ => None
    end in
  let id :=
    match candidate with
    | Some c =>
        if Json.truthy c then
          first_truthy (Json.get "voice_id" c)
            (first_truthy (Json.get "id" c)
               (first_truthy (Json.get "voiceId" c) (Json.get "uuid" c)))
        else None
    | None => None
    end in
  if Json.truthy_opt id then id else None.

Section Subsystem.

Variable JSON_parse : jsstring -> option jsvalue.
Variable cfg : Config.

Definition generateWithOpenAI (msgs : list Message) (maxTokens : Z)
    (mdl : jsstring) : Prog jsvalue :=
  if negb (env_set (OPENAI_API_KEY cfg)) then Ret (JStr [])
  else
    try_catch
      (data <- await_or_throw
                 (PostChat {| model := mdl; messages := msgs; max_tokens := maxTokens |})
                 AxiosError ;;
       Ret (chat_content data))
      (fun _ => Ret (JStr [])).

(** [callTTSForVoice] *)
Definition callTTSForVoice (txt voiceId : jsstring) : Prog (list N) :=
  await_or_throw (PostTTS voiceId txt) AxiosError.

(** [saveBufferAndGetUrl]; [ensureAudioDir] swallows its own failure. *)
Definition saveBufferAndGetUrl (req : option Request) (buffer : list N)
    (prefix : jsstring) : Prog jsstring :=
  await Mkdir ;;;
  now <- await DateNow ;;
  let filename := prefix ++ lit "-" ++ dec_N now ++ lit ".mp3" in
  ok <- await (WriteFile filename buffer) ;;
  if negb ok then Throw IOError
  else
    let proto :=
      match req with
      | Some r => match protocol r with
                  | Some p => or_else p (lit "http")
                  | None => lit "http"
                  end
      | None => lit "http"
      end in
    let hst :=
      match req with
      | Some r => match host r with
                  | Some h => h
                  | None => lit "undefined"
                  end
      | None => env_or (HOSTNAME cfg) (lit "localhost:3000")
      end in
    Ret (proto ++ lit "://" ++ hst ++ lit "/ai-audio/" ++ filename).

Definition textToElevenlabsAudio (txt filenamePrefix : jsstring)
    (req : option Request) : Prog (option jsstring) :=
  if negb (env_set (ELEVENLABS_API_KEY cfg)) then Ret None
  else
    v <- await GetVoiceEnv ;;
    let configuredVoice := trim (env_or v []) in
    first <-
      (if nonempty configuredVoice then
         try_catch
           (res <- callTTSForVoice txt configuredVoice ;;
            url <- saveBufferAndGetUrl req res filenamePrefix ;;
            Ret (Some url))
           (fun _ => Ret None)
       else Ret None) ;;
    match first with
    | Some url => Ret (Some url)
    | None =>
        try_catch
          (data <- await_or_throw GetVoices AxiosError ;;
           match fallback_voice data with
           | None => Ret None
           | Some fallbackVoiceId =>
               try_catch
                 (match Json.toString fallbackVoiceId with
                  | inl e => Throw e
                  | inr voiceId =>
                      res <- callTTSForVoice txt voiceId ;;
                      await (SetVoiceEnv voiceId) ;;;
                      url <- saveBufferAndGetUrl req res filenamePrefix ;;
                      Ret (Some url)
                  end)
                 (fun _ => Ret None)
           end)
          (fun _ => Ret None)
    end.

(* ===================================================================== *)
(** ** Replenishment engine ([generateCategoryStories]) *)
(* ===================================================================== *)

Definition dq : jsstring := [34]%N.
Definition nl : jsstring := [10]%N.

Definition systemPrompt (category : Entry) (need : Z) : jsstring :=
  lit "You are a children's story writer. " ++ prompt_of category ++ nl
  ++ lit "Return EXACTLY a JSON array (no extra text) with " ++ dec_Z need
  ++ lit " objects. Each object must have keys:" ++ nl
  ++ dq ++ lit "title" ++ dq ++ lit " (string, max 50 chars), "
  ++ dq ++ lit "description" ++ dq ++ lit " (string, max 120 chars)," ++ nl
  ++ dq ++ lit "content" ++ dq ++ lit " (string, one paragraph, 200-300 words), "
  ++ dq ++ lit "duration" ++ dq ++ lit " (integer minutes between 5 and 12)." ++ nl
  ++ lit "If JSON is not possible, provide lines formatted as "
  ++ dq ++ lit "Title - Description - StoryText - X min" ++ dq ++ lit ".".

Definition userPrompt (category : Entry) (childName : jsstring)
    (childAge need : Z) : jsstring :=
  lit "Create " ++ dec_Z need ++ lit " " ++ label_of category ++ lit " for "
  ++ childName ++ lit ", age " ++ dec_Z childAge ++ lit ".".

(** From [let aiText = ''] to the filled [aggregatedParsed].  A text that
    is not a string has neither [trim] nor [split]: the first failure is
    caught with the structured tier, the second is not caught. *)
Definition parse_phase (aiText : jsvalue) (childName : jsstring)
    (childAge need : Z) : Prog (list Candidate) :=
  match aiText with
  | JStr s => Ret (parse_ai_text JSON_parse s childName childAge need)
  | v => if Json.truthy v then Throw TypeError else Ret []
  end.

Definition storyData_of (category : Entry) (categoryKey : jsstring)
    (s : Candidate) (audio : option jsstring) (pending : bool) : Doc.StoryData :=
  {| Doc.d_title := title s;
     Doc.d_description := description s;
     Doc.d_content := content s;
     Doc.d_duration := duration s;
     Doc.d_ageRange := ageRange s;
     Doc.d_theme := theme_of category;
     Doc.d_category := category_of category;
     Doc.d_isAIGenerated := true;
     Doc.d_isActive := true;
     Doc.d_generatedForCollection := Some categoryKey;
     Doc.d_thumbnail := icon_of category;
     Doc.d_stats_totalPlays := 0;
     Doc.d_stats_completions := 0;
     Doc.d_audioUrl := audio;
     Doc.d_audioPending := pending |}.

(** The audio decision of the loop body: the URL to attach, if any, and
    the value of [audioPending]. *)
Definition audio_for (categoryKey : jsstring) (req : option Request) (i : nat)
    (s : Candidate) : Prog (option jsstring * bool) :=
  existingWithAudio <-
    await (FindOne [Doc.AnyOf (Doc.TitleIs (title s)) (Doc.ContentIs (content s));
                    Doc.HasAudioUrl]) ;;
  let reusable :=
    match opt_bind existingWithAudio Doc.audioUrl with
    | Some u => if nonempty u then Some u else None
    | None => None
    end in
  match reusable with
  | Some u => Ret (Some u, false)
  | None =>
      match req with
      | Some _ =>
          if env_set (ELEVENLABS_API_KEY cfg) then
            try_catch
              (now <- await DateNow ;;
               audioUrl <- textToElevenlabsAudio (content s)
                             (categoryKey ++ lit "-" ++ dec_N now
                              ++ lit "-" ++ dec_nat i)
                             req ;;
               match audioUrl with
               | Some u => if nonempty u then Ret (Some u, false)
                           else Ret (None, true)
               | None => Ret (None, true)
               end)
              (fun _ => Ret (None, true))
          else Ret (None, env_set (ELEVENLABS_API_KEY cfg))
      | None => Ret (None, env_set (ELEVENLABS_API_KEY cfg))
      end
  end.

(** The [try] block of the loop body; [None] is the [continue] taken for a
    duplicate, and what the [catch] leaves when anything threw. *)
Definition save_one (category : Entry) (categoryKey : jsstring)
    (req : option Request) (i : nat) (s : Candidate) : Prog (option Doc.Story) :=
  try_catch
    (duplicate <-
       await (FindOne [Doc.TitleIs (title s); Doc.CollectionIs categoryKey;
                       Doc.ActiveIs true]) ;;
     match duplicate with
     | Some _ => Ret None
     | None =>
         a <- audio_for categoryKey req i s ;;
         doc <- await_or_throw
                  (Create (storyData_of category categoryKey s (fst a) (snd a)))
                  StoreError ;;
         Ret (Some doc)
     end)
    (fun _ => Ret None).

(** [for (let i = 0; i < toSave.length; i++)] *)
Fixpoint save_loop (category : Entry) (categoryKey : jsstring)
    (req : option Request) (toSave : list Candidate) (i : nat)
    (saved : list Doc.Story) : Prog (list Doc.Story) :=
  match toSave with
  | [] => Ret saved
  | s :: rest =>
      r <- save_one category categoryKey req i s ;;
      save_loop category categoryKey req rest (S i)
        (match r with Some doc => saved ++ [doc] | None => saved end)
  end.

Definition generateCategoryStories (categoryKey childName : jsstring)
    (childAge targetTotal : Z) (req : option Request) : Prog (list Doc.Story) :=
  match STORY_CATEGORIES categoryKey with
  | None => Throw InvalidCategoryKey
  | Some category =>
      existingCount <- await (CountDocuments (Doc.active_ai_in categoryKey)) ;;
      let need := Z.max 0 (targetTotal - existingCount) in
      if (need <=? 0)%Z then Ret []
      else
        aiText <-
          (if env_set (OPENAI_API_KEY cfg) then
             generateWithOpenAI
               [ {| role := lit "system"; text := systemPrompt category need |};
                 {| role := lit "user";
                    text := userPrompt category childName childAge need |} ]
               1600 (env_or (OPENAI_MODEL cfg) (lit "gpt-3.5-turbo"))
           else Ret (JStr [])) ;;
        aggregatedParsed <- parse_phase aiText childName childAge need ;;
        if (length aggregatedParsed =? 0)%nat then Ret []
        else
          latestCount <- await (CountDocuments (Doc.active_ai_in categoryKey)) ;;
          let remainingNeed := Z.max 0 (targetTotal - latestCount) in
          if (remainingNeed <=? 0)%Z then Ret []
          else
            let toSave := slice0 remainingNeed aggregatedParsed in
            save_loop category categoryKey req toSave 0 []
  end.

End Subsystem.

(* ===================================================================== *)
(** ** Consumption hook (the two completion handlers) *)
(* ===================================================================== *)

Module Hook.

(** A hydrated document in a handler: the stored paths, the schema paths
    assigned since the last save, and the property [stats.completions],
    which the handlers assign although the schema has no such path: it
    lives on the in-memory object only and [save] does not write it. *)
Record Document := {
  persisted : Doc.Story;
  modified : list Doc.Change;
  stats_completions : option Z
}.

Definition hydrate (s : Doc.Story) : Document :=
  {| persisted := s; modified := []; stats_completions := None |}.

(** [story.stats.completions = (story.stats.completions || 0) + 1] *)
Definition bump_completions (d : Document) : Document :=
  {| persisted := persisted d;
     modified := modified d;
     stats_completions :=
       Some (match stats_completions d with
             | Some 0%Z | None => 0
             | Some n => n
             end + 1)%Z |}.

(** [story.isActive = false] *)
Definition deactivate (d : Document) : Document :=
  {| persisted := Doc.apply_change (Doc.SetIsActive false) (persisted d);
     modified := modified d ++ [Doc.SetIsActive false];
     stats_completions := stats_completions d |}.

(** [await story.save()]: Mongoose first validates the document and
    rejects, without writing, when a path breaks the schema; otherwise the
    assigned schema paths are written. *)
Definition save (d : Document) : Prog Document :=
  if negb (Doc.valid (persisted d)) then Throw ValidationError
  else
    await (Save (Doc._id (persisted d)) (modified d)) ;;;
    Ret {| persisted := persisted d; modified := [];
           stats_completions := stats_completions d |}.

(** ToBoolean of [story.generatedForCollection]. *)
Definition collection_of (s : Doc.Story) : option jsstring :=
  match Doc.generatedForCollection s with
  | Some k => if nonempty k then Some k else None
  | None => None
  end.

Inductive Response :=
| NotFound            (* 404 *)
| Completed           (* 200 *)
| ServerError.        (* 500, from the handler's outer [catch] *)

(** POST /:id/complete of routes/stories.js, for an id that is a valid
    object id.  Ages are integers here, so [Number.isInteger] holds of
    [story.ageRange.min].  The first [save] is outside the inner [try]: its
    rejection reaches the outer [catch]. *)
Definition complete_story (id : nat) : Prog Response :=
  try_catch
    (found <- await (FindOne [Doc.IdIs id]) ;;
     match found with
     | None => Ret NotFound
     | Some s =>
         if negb (Doc.isActive s) then Ret NotFound
         else
           story <- save (bump_completions (hydrate s)) ;;
           try_catch
             (match Doc.isAIGenerated s, collection_of s with
              | true, Some collection =>
                  save (deactivate story) ;;;
                  let childAge := Z.max 3 (min (Doc.ageRange s)) in
                  await (Spawn {| r_categoryKey := collection;
                                  r_childName := lit "friend";
                                  r_childAge := childAge;
                                  r_targetTotal := 1 |})
              | _, _ => Ret tt
              end)
             (fun _ => Ret tt) ;;;
           Ret Completed
     end)
    (fun _ => Ret ServerError).

(** The child on whose behalf routes/child.js completes a story: the two
    paths of models/Child.js that the handler reads. *)
Record Child := { name : jsstring; age : Z }.

(** The validators of the child's schema on these two paths, which
    [child.save()] runs; the other paths of a child that was found are
    taken to pass. *)
Definition valid_child (c : Child) : bool :=
  nonempty (name c)
  && (length (name c) <=? 50)%nat
  && Doc.between 2 12 (age c).

(** [timeSpent && Number.isInteger(timeSpent) && timeSpent > 0], for a
    [timeSpent] that is [Some n] when the body gives the integer [n]. *)
Definition counts_time (timeSpent : option Z) : option Z :=
  match timeSpent with
  | Some n => if (0 <? n)%Z then Some n else None
  | None => None
  end.

(** The block that raises the child's play time: [child.save()] validates
    the child before it writes. *)
Definition update_child_stats (child : Child) (timeSpent : option Z)
  : Prog unit :=
  match counts_time timeSpent with
  | Some n =>
      if negb (valid_child child) then Throw ValidationError
      else await (SaveChild n)
  | None => Ret tt
  end.

(** POST /:childId/complete/:contentId of routes/child.js, from the story
    lookup on, for a content id that names no activity. *)
Definition complete_for_child (child : Child) (timeSpent : option Z)
    (contentId : nat) : Prog Response :=
  try_catch
    (found <- await (FindOne [Doc.IdIs contentId; Doc.ActiveIs true]) ;;
     match found with
     | None => Ret NotFound
     | Some s =>
         update_child_stats child timeSpent ;;;
         let story := bump_completions (hydrate s) in
         match Doc.isAIGenerated s, collection_of s with
         | true, Some collection =>
             await (DeleteOne (Doc._id s)) ;;;
             await (Spawn {| r_categoryKey := collection;
                             r_childName := or_else (name child) (lit "friend");
                             r_childAge := if (age child =? 0)%Z then 5 else age child;
                             r_targetTotal := 1 |})
         | _, _ => story' <- save story ;; Ret tt
         end ;;;
         Ret Completed
     end)
    (fun _ => Ret ServerError).

End Hook.

(* ===================================================================== *)
(** ** Content identifiers (routes/stories.js, routes/child.js, routes/ai.js) *)
(* ===================================================================== *)

(** [s.startsWith(p)] *)
Definition startsWith (p s : jsstring) : bool := is_prefix p s.

Module Stories.

(** [isClientSideId] of routes/stories.js, on an id given as a string
    ([String(id || '')] is then the id itself). *)
Definition isClientSideId (id : jsstring) : bool :=
  startsWith (lit "ai-") id || startsWith (lit "mom-") id
  || startsWith (lit "grandma-") id || startsWith (lit "now-") id
  || startsWith (lit "learn-") id || startsWith (lit "featured-") id.

End Stories.

Module Children.

(** [isClientSideId] of routes/child.js. *)
Definition isClientSideId (id : jsstring) : bool :=
  if negb (nonempty id) then false
  else
    startsWith (lit "ai-") id || startsWith (lit "mom-") id
    || startsWith (lit "grandma-") id || startsWith (lit "now-") id
    || startsWith (lit "learn-") id || startsWith (lit "featured-") id
    || startsWith (lit "client-") id.

End Children.

(** The class [[0-9a-fA-F]]. *)
Definition is_hex (c : N) : bool :=
  (is_digit c || ((97 <=? c) && (c <=? 102)) || ((65 <=? c) && (c <=? 70)))%N.

Definition hex_val (c : N) : N :=
  (if is_digit c then c - 48
   else if (97 <=? c) && (c <=? 102) then c - 87
   else c - 55)%N.

(** [String(storyId).match(/^[0-9a-fA-F]{24}$/)] *)
Definition is_object_id (s : jsstring) : bool :=
  (length s =? 24)%nat && forallb is_hex s.

(** The record key such a string is cast to: its value as a hexadecimal
    numeral, so that upper and lower case name the same record. *)
Definition object_id (s : jsstring) : nat :=
  N.to_nat (fold_left (fun acc c => 16 * acc + hex_val c)%N s 0%N).

(* ===================================================================== *)
(** ** The routes of routes/ai.js that call the engine *)
(* ===================================================================== *)

(** The keys of [STORY_CATEGORIES], in the order of [Object.entries]. *)
Definition category_keys : list jsstring :=
  [lit "mom-stories"; lit "grandma-stories"; lit "now-stories"; lit "learn-stories"].

(** [childName] and [childAge] after the optional child lookup; [child] is
    what [Child.findById] gave, [None] when there was no [childId], no
    such child, or the lookup failed. *)
Definition child_name (child : option Hook.Child) : jsstring :=
  match child with
  | Some c => or_else (Hook.name c) (lit "friend")
  | None => lit "friend"
  end.

Definition child_age (child : option Hook.Child) : Z :=
  match child with
  | Some c => if (Hook.age c =? 0)%Z then 5%Z else Hook.age c
  | None => 5%Z
  end.

Inductive RegenerateResponse :=
| Regenerate400 (message : jsstring)
| Regenerate200 (newStory : option Doc.Story)
| Regenerate500.

Inductive InitResult :=
| AlreadyInitialized (total : Z)            (* { generated: 0, total, message } *)
| Generated (generated : nat) (total : Z)   (* { generated, total } *)
| InitError (e : exn).                      (* { error } *)

Inductive CoachResponse :=
| Coach200 (response : jsvalue) (timestamp : N) (provider : jsstring)
| Coach500.

Inductive TtsResponse :=
| Tts200 (audioUrl : jsstring) (timestamp : N)
| Tts500.

Section Routes.

Variable JSON_parse : jsstring -> option jsvalue.
Variable cfg : Config.

(** The first [try] block of POST /regenerate-story: the story named by
    the request is saved inactive when it is found active; a rejected save
    is only warned about. *)
Definition deactivate_old_story (storyId : jsstring) : Prog unit :=
  try_catch
    (if nonempty storyId && is_object_id storyId then
       existingStory <- await (FindOne [Doc.IdIs (object_id storyId)]) ;;
       match existingStory with
       | Some s =>
           if Doc.isActive s
           then Hook.save (Hook.deactivate (Hook.hydrate s)) ;;; Ret tt
           else Ret tt
       | None => Ret tt
       end
     else Ret tt)
    (fun _ => Ret tt).

(** POST /regenerate-story, for a [storyId] and a [categoryKey] sent as
    strings.  The lookup of the child between the two [try] blocks reads no
    story and is represented by its result [child]. *)
Definition regenerate_story (storyId categoryKey : jsstring)
    (child : option Hook.Child) (req : Request) : Prog RegenerateResponse :=
  if negb (nonempty storyId) || negb (nonempty categoryKey)
  then Ret (Regenerate400 (lit "storyId and categoryKey required"))
  else
    match STORY_CATEGORIES categoryKey with
    | None => Ret (Regenerate400 (lit "Invalid category"))
    | Some _ =>
        deactivate_old_story storyId ;;;
        try_catch
          (newStories <- generateCategoryStories JSON_parse cfg categoryKey
                           (child_name child) (child_age child) 1 (Some req) ;;
           Ret (Regenerate200 (hd_error newStories)))
          (fun _ => Ret Regenerate500)
    end.

(** The body of the loop of POST /initialize-categories for one key. *)
Definition initialize_one (key : jsstring) (child : option Hook.Child)
    (TARGET : Z) (req : Request) : Prog InitResult :=
  try_catch
    (existing <- await (CountDocuments (Doc.active_ai_in key)) ;;
     if (TARGET <=? existing)%Z then Ret (AlreadyInitialized existing)
     else
       generated <- generateCategoryStories JSON_parse cfg key
                      (child_name child) (child_age child) TARGET (Some req) ;;
       Ret (Generated (length generated)
                      (existing + Z.of_nat (length generated))))
    (fun e => Ret (InitError e)).

(** [for (const [key, category] of Object.entries(STORY_CATEGORIES))] *)
Fixpoint initialize_loop (keys : list jsstring) (child : option Hook.Child)
    (TARGET : Z) (req : Request) (results : list (jsstring * InitResult))
  : Prog (list (jsstring * InitResult)) :=
  match keys with
  | [] => Ret results
  | key :: rest =>
      r <- initialize_one key child TARGET req ;;
      initialize_loop rest child TARGET req (results ++ [(key, r)])
  end.

(** POST /initialize-categories, for a [TARGET_PER_CATEGORY] that is an
    integer. *)
Definition initialize_categories (child : option Hook.Child) (TARGET : Z)
    (req : Request) : Prog (list (jsstring * InitResult)) :=
  initialize_loop category_keys child TARGET req [].

(** The apology of POST /coach; its dash is U+2014, one code unit. *)
Definition coach_apology : jsstring :=
  lit "Sorry" ++ [8212]%N ++ lit "I couldn't reach the AI service. Try again later.".

(** POST /coach, for a request that passed the validators. *)
Definition coach (question : jsstring) : Prog CoachResponse :=
  try_catch
    (aiText <-
       (if env_set (OPENAI_API_KEY cfg) then
          generateWithOpenAI cfg
            [ {| role := lit "system";
                 text := lit "You are an empathetic, evidence-based parenting coach." |};
              {| role := lit "user"; text := question |} ]
            700 (env_or (OPENAI_MODEL cfg) (lit "gpt-3.5-turbo"))
        else Ret (JStr [])) ;;
     let aiText := if Json.truthy aiText then aiText else JStr coach_apology in
     now <- await DateNow ;;
     Ret (Coach200 aiText now
            (if env_set (OPENAI_API_KEY cfg) then lit "openai" else lit "mock")))
    (fun _ => Ret Coach500).

(** POST /tts, for a request that passed the validators. *)
Definition tts (txt : jsstring) (filenamePrefix : option jsstring)
    (req : Request) : Prog TtsResponse :=
  try_catch
    (audioUrl <- textToElevenlabsAudio cfg txt
                   (match filenamePrefix with
                    | Some p => p
                    | None => lit "ai-tts"
                    end)
                   (Some req) ;;
     match audioUrl with
     | Some u =>
         if nonempty u then now <- await DateNow ;; Ret (Tts200 u now)
         else Ret Tts500
     | None => Ret Tts500
     end)
    (fun _ => Ret Tts500).

End Routes.

(* ===================================================================== *)
(** ** Saving a story made by the app (routes/stories.js, POST /from-ai) *)
(* ===================================================================== *)

(** The fields read from the request body; [None] is a key the body does
    not have. *)
Record FromAiBody := {
  b_title : jsstring;
  b_description : option jsstring;
  b_content : jsstring;
  b_duration : option Z;
  b_ageRange : option AgeRange;
  b_thumbnail : option jsstring;
  b_audioUrl : option jsstring;
  b_theme : option jsstring;
  b_category : option jsstring;
  b_generatedForCollection : jsstring
}.

Inductive FromAiResponse :=
| FromAi400
| FromAi201 (story : Doc.Story)
| FromAi500.

Definition default_to {A} (v : option A) (d : A) : A :=
  match v with Some x => x | None => d end.

(** The object [storyData] of the handler; the paths it leaves out take
    the schema's defaults. *)
Definition from_ai_data (b : FromAiBody) : Doc.StoryData :=
  {| Doc.d_title := b_title b;
     Doc.d_description := default_to (b_description b) [];
     Doc.d_content := b_content b;
     Doc.d_duration := default_to (b_duration b) 10%Z;
     Doc.d_ageRange := default_to (b_ageRange b) {| min := 3; max := 7 |};
     Doc.d_theme := Some (default_to (b_theme b) (lit "AI Generated"));
     Doc.d_category := Some (default_to (b_category b) (lit "audio"));
     Doc.d_isAIGenerated := true;
     Doc.d_isActive := true;
     Doc.d_generatedForCollection := Some (b_generatedForCollection b);
     Doc.d_thumbnail := Some (default_to (b_thumbnail b) [55358; 56598]%N);
     Doc.d_stats_totalPlays := 0;
     Doc.d_stats_completions := 0;
     Doc.d_audioUrl := b_audioUrl b;
     Doc.d_audioPending := false |}.

(** POST /from-ai, from the destructuring of the body on: the request
    passed the validators of the route. *)
Definition from_ai (b : FromAiBody) : Prog FromAiResponse :=
  try_catch
    (if negb (nonempty (b_generatedForCollection b)) then Ret FromAi400
     else
       story <- await_or_throw (Create (from_ai_data b)) StoreError ;;
       Ret (FromAi201 story))
    (fun _ => Ret FromAi500).

(* ===================================================================== *)
(** ** Vocabulary of the properties *)
(* ===================================================================== *)

(** The reading of the fallback mode that the specification gives in
    words: the separators in their order of preference, the first one that
    yields at least three segments being used. *)
Definition separators : list jsstring :=
  [sep_hyphen; sep_em_dash; sep_en_dash; sep_colon; sep_pipe].

Fixpoint first_separator_split (seps : list jsstring) (line : jsstring)
  : option (list jsstring) :=
  match seps with
  | [] => None
  | sep :: rest =>
      if (3 <=? length (split sep line))%nat then Some (split sep line)
      else first_separator_split rest line
  end.

(** "1-2 digits followed by min anywhere in the line": some digit of the
    line is followed, after any white space, by [min] in any letter case. *)
Definition has_digit_min (line : jsstring) : Prop :=
  exists pre d ws post r,
    line = pre ++ d :: ws ++ post
    /\ is_digit d = true
    /\ Forall (fun c => is_ws c = true) ws
    /\ min_word post = Some r.

(** The text [[{"title":"Moon","description":"A trip","content":" "}]] and
    what [JSON.parse] makes of it. *)
Definition blank_content_text : jsstring :=
  lit "[{" ++ [34]%N ++ lit "title" ++ [34]%N ++ lit ":" ++ [34]%N ++ lit "Moon"
  ++ [34]%N ++ lit "," ++ [34]%N ++ lit "description" ++ [34]%N ++ lit ":"
  ++ [34]%N ++ lit "A trip" ++ [34]%N ++ lit "," ++ [34]%N ++ lit "content"
  ++ [34]%N ++ lit ":" ++ [34]%N ++ lit " " ++ [34]%N ++ lit "}]".

Definition blank_content_json : jsvalue :=
  JArr [JObj [(lit "title", JStr (lit "Moon"));
              (lit "description", JStr (lit "A trip"));
              (lit "content", JStr (lit " "))]].

Definition parse_blank_content (s : jsstring) : option jsvalue :=
  if str_eqb s blank_content_text then Some blank_content_json else None.

Inductive Kind :=
| KCount          (* countDocuments *)
| KFind           (* findOne *)
| KCreate         (* Story.create *)
| KMutate         (* save of a story or of a child, deleteOne *)
| KProvider       (* a call to the text or speech provider *)
| KLocal          (* clock, files, process.env *)
| KSpawn.         (* a replenishment started in the background *)

Definition kind {X} (e : Eff X) : Kind :=
  match e with
  | CountDocuments _ => KCount
  | FindOne _ => KFind
  | Create _ => KCreate
  | Save _ _ | SaveChild _ | DeleteOne _ => KMutate
  | PostChat _ | PostTTS _ _ | GetVoices => KProvider
  | Mkdir | WriteFile _ _ | DateNow | GetVoiceEnv | SetVoiceEnv _ => KLocal
  | Spawn _ => KSpawn
  end.

Definition ev_kind (ev : Event) : Kind :=
  match ev with Ev e _ => kind e end.

(** The stories inserted by the events. *)
Definition created_of (ev : Event) : list Doc.Story :=
  match ev with
  | Ev e r =>
      match e in Eff X return X -> list Doc.Story with
      | Create _ => fun r => match r with Some s => [s] | None => [] end
      | _ => fun _ => []
      end r
  end.

Definition created (evs : list Event) : list Doc.Story :=
  flat_map created_of evs.

(** The results of the counts among the events. *)
Definition count_of (ev : Event) : list Z :=
  match ev with
  | Ev e r =>
      match e in Eff X return X -> list Z with
      | CountDocuments _ => fun r => [r]
      | _ => fun _ => []
      end r
  end.

Definition counts (evs : list Event) : list Z := flat_map count_of evs.

(** The bodies the text provider answered with. *)
Definition chat_of (ev : Event) : list (option jsvalue) :=
  match ev with
  | Ev e r =>
      match e in Eff X return X -> list (option jsvalue) with
      | PostChat _ => fun r => [r]
      | _ => fun _ => []
      end r
  end.

Definition chats (evs : list Event) : list (option jsvalue) :=
  flat_map chat_of evs.

(** What an event does to the store. *)
Definition replay_one (s : list Doc.Story) (ev : Event) : list Doc.Story :=
  match ev with
  | Ev e r =>
      match e in Eff X return X -> list Doc.Story with
      | Create _ => fun r => match r with Some d => s ++ [d] | None => s end
      | Save id changes => fun _ => Doc.update id changes s
      | DeleteOne id => fun _ => Doc.deleteOne id s
      | _ => fun _ => s
      end r
  end.

Definition replay (evs : list Event) (s : list Doc.Story) : list Doc.Story :=
  fold_left replay_one evs s.

Definition is_kind (k : Kind) (ev : Event) : bool :=
  match ev_kind ev, k with
  | KCount, KCount | KFind, KFind | KCreate, KCreate | KMutate, KMutate
  | KProvider, KProvider | KLocal, KLocal | KSpawn, KSpawn => true
  | _, _ => false
  end.

(** No event deactivates, rewrites or removes a record. *)
Definition no_mutation (evs : list Event) : Prop :=
  Forall (fun ev => is_kind KMutate ev = false) evs.

(** The events touch neither the store's contents nor the providers'
    counters: only lookups, clock, files and environment. *)
Definition quiet_kind (k : Kind) : bool :=
  match k with KFind | KLocal | KProvider => true | _ => false end.

(** A program all of whose operations are of an allowed kind. *)
Inductive Uses (allowed : Kind -> bool) {A} : Prog A -> Prop :=
| Uses_Ret a : Uses allowed (Ret a)
| Uses_Throw e : Uses allowed (Throw e)
| Uses_Vis X (e : Eff X) k :
    allowed (kind e) = true ->
    (forall x, Uses allowed (k x)) ->
    Uses allowed (Vis e k).

(** A program that never ends in an exception, whatever the world answers. *)
Inductive NoThrow {A} : Prog A -> Prop :=
| NoThrow_Ret a : NoThrow (Ret a)
| NoThrow_Vis X (e : Eff X) k :
    (forall x, NoThrow (k x)) -> NoThrow (Vis e k).

Definition provider_kind (k : Kind) : bool :=
  match k with KProvider | KLocal => true | _ => false end.

(** The path [data.choices[0].message.content] of a response body. *)
Definition chat_path (data : jsvalue) : option jsvalue :=
  opt_bind (opt_bind (opt_bind (Json.get "choices" data) Json.get0)
                     (Json.get "message"))
           (Json.get "content").

(** The duplicate lookup made for a candidate. *)
Definition dup_filter (categoryKey : jsstring) (s : Candidate) : Doc.Filter :=
  [Doc.TitleIs (title s); Doc.CollectionIs categoryKey; Doc.ActiveIs true].

(** The document stored for an accepted candidate. *)
Definition story_of (category : Entry) (categoryKey : jsstring)
    (c : Candidate) (d : Doc.Story) : Prop :=
  exists id audio pending,
    d = Doc.new_story id (storyData_of category categoryKey c audio pending)
    /\ Doc.validate (storyData_of category categoryKey c audio pending) = true.

(** The saved stories come from the candidates to save, in order, some
    candidates being passed over. *)
Inductive Picked (R : Candidate -> Doc.Story -> Prop)
  : list Candidate -> list Doc.Story -> Prop :=
| Picked_nil : Picked R [] []
| Picked_skip c cs ds : Picked R cs ds -> Picked R (c :: cs) ds
| Picked_take c cs d ds : R c d -> Picked R cs ds -> Picked R (c :: cs) (d :: ds).

(** Sequential picking: each saved story was looked up, and not found, in
    the store as it stood when its turn came. *)
Inductive PickedFrom (category : Entry) (categoryKey : jsstring)
  : list Doc.Story -> list Candidate -> list Doc.Story -> Prop :=
| PickedFrom_nil st : PickedFrom category categoryKey st [] []
| PickedFrom_skip st c cs ds :
    PickedFrom category categoryKey st cs ds ->
    PickedFrom category categoryKey st (c :: cs) ds
| PickedFrom_take st c cs d ds :
    story_of category categoryKey c d ->
    Doc.findOne (dup_filter categoryKey c) st = None ->
    PickedFrom category categoryKey (st ++ [d]) cs ds ->
    PickedFrom category categoryKey st (c :: cs) (d :: ds).

(** The text the engine parses: the content of the provider's answer, the
    empty string when there was no call or no answer. *)
Definition aiText_of (evs : list Event) : jsvalue :=
  match chats evs with
  | Some data :: _ => chat_content data
  | _ => JStr []
  end.

Definition quiet (evs : list Event) : Prop :=
  Forall (fun ev => quiet_kind (ev_kind ev) = true) evs.

(** A story counts for a collection's titles when it is active and
    belongs to the collection. *)
Definition in_slot (categoryKey : jsstring) (d : Doc.Story) : bool :=
  Doc.isActive d
  && match Doc.generatedForCollection d with
     | Some k => str_eqb k categoryKey
     | None => false
     end.

Definition slot_titles (categoryKey : jsstring) (st : list Doc.Story)
  : list jsstring :=
  map Doc.title (filter (in_slot categoryKey) st).

(** No two active records of the collection share a title. *)
Definition titles_unique (categoryKey : jsstring) (st : list Doc.Story) : Prop :=
  NoDup (slot_titles categoryKey st).

(** The kinds of operation the engine performs: everything but rewriting
    or removing a record and starting background work. *)
Definition engine_kind (k : Kind) : bool :=
  match k with KMutate | KSpawn => false | _ => true end.

(** Text generation configured, speech synthesis not. *)
Definition demo_cfg : Config :=
  {| OPENAI_API_KEY := Some (lit "sk-test"); OPENAI_MODEL := None;
     ELEVENLABS_API_KEY := None; HOSTNAME := None |}.

Definition moon_line : jsstring :=
  lit "Moon - A trip to the moon - Once upon a time there was a rocket - 7 min".

(** A response body [{ choices: [{ message: { content: txt } }] }]. *)
Definition chat_answer (txt : jsstring) : jsvalue :=
  JObj [(lit "choices",
         JArr [JObj [(lit "message", JObj [(lit "content", JStr txt)])]])].

(** A provider that always answers with the same line and a store that
    accepts every valid document. *)
Definition demo_oracle : Oracle :=
  {| chat_response := fun _ _ => Some (chat_answer moon_line);
     tts_response := fun _ _ _ => None;
     voices_response := fun _ => None;
     write_ok := fun _ _ => false;
     store_accepts := fun _ => true;
     clock := fun t => N.of_nat t |}.

Definition empty_world : World :=
  {| store := []; next_id := 0; voice_env := None; tick := 0; log := [] |}.

(** The line above has no bracket, so [JSON.parse] is never reached. *)
Definition no_json : jsstring -> option jsvalue := fun _ => None.

(** [generateCategoryStories('learn-stories', 'friend', 5, 1, null)] *)
Definition demo_call : Prog (list Doc.Story) :=
  generateCategoryStories no_json demo_cfg (lit "learn-stories") (lit "friend")
                          5 1 None.

(** Two calls taking turns, one operation each: both count, both ask the
    provider, both count again, both look the title up, and only then
    both insert. *)
Definition turns : list bool :=
  [true; false; true; false; true; false; true; false; true; false; true; false].

Definition returned {A} (p : Prog A) : option A :=
  match p with Ret a => Some a | _ => None end.

Definition after_turns : Prog (list Doc.Story) * Prog (list Doc.Story) * World :=
  run2 demo_oracle turns demo_call demo_call empty_world.

(** A hand-authored story that has been completed twice. *)
Definition kind_fox : Doc.Story :=
  {| Doc._id := 7;
     Doc.title := lit "The Kind Fox";
     Doc.description := lit "A fox learns to share.";
     Doc.content := lit "Once upon a time a fox found a basket of berries.";
     Doc.thumbnail := lit "fox";
     Doc.category := lit "bedtime";
     Doc.theme := lit "kindness";
     Doc.isAIGenerated := false;
     Doc.generatedForCollection := None;
     Doc.ageRange := {| min := 3; max := 7 |};
     Doc.duration := 10;
     Doc.stats_totalPlays := 4;
     Doc.stats_totalCompletions := 2;
     Doc.isActive := true;
     Doc.audioUrl := None;
     Doc.audioPending := false |}.

Definition library : World :=
  {| store := [kind_fox]; next_id := 8; voice_env := None; tick := 0; log := [] |}.

(* ===================================================================== *)
(** ** Vocabulary of the further properties *)
(* ===================================================================== *)

(** The limits the schema puts on the fields a candidate carries. *)
Definition within_limits (c : Candidate) : Prop :=
  (length (title c) <= 100)%nat
  /\ (length (description c) <= 500)%nat
  /\ (5 <= duration c <= 20)%Z.

(** A value whose conversion to a string cannot throw: anything but an
    array or an object; an absent key counts. *)
Definition scalar (v : option jsvalue) : bool :=
  match v with
  | Some (JArr _) | Some (JObj _) => false
  | _ => true
  end.

(** An element the structured tier accepts and converts: truthy title and
    content, no array or object among the four fields. *)
Definition well_formed (obj : jsvalue) : bool :=
  Json.truthy_opt (Json.get "title" obj)
  && Json.truthy_opt (Json.get "content" obj)
  && scalar (Json.get "title" obj)
  && scalar (Json.get "description" obj)
  && scalar (Json.get "content" obj)
  && scalar (Json.get "duration" obj).

(** [sep] occurs in [s]. *)
Definition occurs (sep s : jsstring) : Prop :=
  exists a b, s = a ++ sep ++ b.

(** No occurrence of [sep] in [rev cur ++ s] starts inside [rev cur]. *)
Definition clear_of (sep cur s : jsstring) : Prop :=
  forall a b, rev cur = a ++ b -> b <> [] -> is_prefix sep (b ++ s) = false.

(** Classes of operations, by the operation itself. *)
Definition OpClass := forall X, Eff X -> bool.

Definition is_chat : OpClass :=
  fun X e => match e with PostChat _ => true | _ => false end.

Definition is_synthesis : OpClass :=
  fun X e => match e with PostTTS _ _ => true | _ => false end.

Definition is_listing : OpClass :=
  fun X e => match e with GetVoices => true | _ => false end.

Definition is_write : OpClass :=
  fun X e => match e with WriteFile _ _ => true | _ => false end.



(** Anything speech synthesis needs: the provider, the audio directory,
    the clock and the voice setting. *)
Definition is_speech : OpClass :=
  fun X e =>
    match e with
    | PostTTS _ _ | GetVoices | Mkdir | WriteFile _ _ | DateNow
    | GetVoiceEnv | SetVoiceEnv _ => true
    | _ => false
    end.

Definition ev_in (op : OpClass) (ev : Event) : bool :=
  match ev with Ev e _ => op _ e end.

(** How many of the events are operations of the class. *)
Definition calls (op : OpClass) (evs : list Event) : nat :=
  length (filter (ev_in op) evs).

(** A program that performs at most [n] operations of the class, whatever
    the world answers. *)
Inductive AtMost (op : OpClass) {A} : nat -> Prog A -> Prop :=
| AtMost_Ret n a : AtMost op n (Ret a)
| AtMost_Throw n e : AtMost op n (Throw e)
| AtMost_free n X (e : Eff X) k :
    op X e = false -> (forall x, AtMost op n (k x)) -> AtMost op n (Vis e k)
| AtMost_pay n X (e : Eff X) k :
    (forall x, AtMost op n (k x)) -> AtMost op (S n) (Vis e k).

(** A program every operation of which satisfies [P] and every result of
    which satisfies [Q]. *)
Inductive Obeys (P : forall X, Eff X -> Prop) {A} (Q : A -> Prop)
  : Prog A -> Prop :=
| Obeys_Ret a : Q a -> Obeys P Q (Ret a)
| Obeys_Throw e : Obeys P Q (Throw e)
| Obeys_Vis X (e : Eff X) k :
    P X e -> (forall x, Obeys P Q (k x)) -> Obeys P Q (Vis e k).

(** Every document handed to [Story.create] satisfies [Q]. *)
Definition creating (Q : Doc.StoryData -> Prop) : forall X, Eff X -> Prop :=
  fun X e => match e with Create d => Q d | _ => True end.

(** A story inserted from a document that satisfies [Q] and passed the
    schema's validators. *)
Definition stored_from (Q : Doc.StoryData -> Prop) (s : Doc.Story) : Prop :=
  exists id d, s = Doc.new_story id d /\ Q d /\ Doc.validate d = true.

(** The pair (audioUrl, audioPending) a record is created with: a URL and
    nothing pending, or no URL and pending exactly when speech synthesis is
    configured. *)
Definition audio_consistent (cfg : Config) (audio : option jsstring)
    (pending : bool) : Prop :=
  match audio with
  | Some u => u <> [] /\ pending = false
  | None => pending = env_set (ELEVENLABS_API_KEY cfg)
  end.

(** A candidate as the parser makes it for a child of the given age. *)
Definition parsed_for (childAge : Z) (c : Candidate) : Prop :=
  within_limits c /\ ageRange c = age_range_for childAge.

(** The document the engine builds from such a candidate. *)
Definition engine_document (cfg : Config) (cat : Entry) (key : jsstring)
    (childAge : Z) (d : Doc.StoryData) : Prop :=
  exists c audio pending,
    d = storyData_of cat key c audio pending
    /\ parsed_for childAge c
    /\ audio_consistent cfg audio pending.

(** The number of active generated stories of a collection. *)
Definition active_count (key : jsstring) (st : list Doc.Story) : Z :=
  Doc.countDocuments (Doc.active_ai_in key) st.

(** The call of the engine that a started replenishment stands for. *)
Definition started (JSON_parse : jsstring -> option jsvalue) (cfg : Config)
    (call : Replenish) (req : option Request) : Prog (list Doc.Story) :=
  generateCategoryStories JSON_parse cfg (r_categoryKey call) (r_childName call)
    (r_childAge call) (r_targetTotal call) req.

(** The store once the story named by a regeneration request has been
    deactivated: the id must have the shape of an object id and name an
    active record that passes the schema, or else the store stays as it
    is. *)
Definition deactivated_store (storyId : jsstring) (st : list Doc.Story)
  : list Doc.Story :=
  if is_object_id storyId then
    match Doc.findOne [Doc.IdIs (object_id storyId)] st with
    | Some s =>
        if Doc.isActive s && Doc.valid s
        then Doc.update (Doc._id s) [Doc.SetIsActive false] st
        else st
    | None => st
    end
  else st.

(** What holds of every record the engine has stored. *)
Definition engine_record (cfg : Config) (cat : Category) (childAge : Z)
    (d : Doc.Story) : Prop :=
  Doc.theme d = c_theme cat
  /\ Doc.category d = c_category cat
  /\ Doc.thumbnail d = icon cat
  /\ Doc.stats_totalPlays d = 0%Z
  /\ Doc.stats_totalCompletions d = 0%Z
  /\ Doc.ageRange d = age_range_for childAge
  /\ (Doc.title d <> [] /\ length (Doc.title d) <= 100)%nat
  /\ (Doc.description d <> [] /\ length (Doc.description d) <= 500)%nat
  /\ Doc.content d <> []
  /\ (5 <= Doc.duration d <= 20)%Z
  /\ match Doc.audioUrl d with
     | Some u => u <> [] /\ Doc.audioPending d = false
     | None => Doc.audioPending d = env_set (ELEVENLABS_API_KEY cfg)
     end.


(** The events of the block that raises the child's play time. *)
Definition child_events (timeSpent : option Z) : list Event :=
  match Hook.counts_time timeSpent with
  | Some n => [Ev (SaveChild n) tt]
  | None => []
  end.

(** A generated story of the collection learn-stories, and a store that
    holds it. *)
Definition moon_story : Doc.Story :=
  {| Doc._id := 3;
     Doc.title := lit "Moon";
     Doc.description := lit "A trip to the moon";
     Doc.content := lit "Once upon a time there was a rocket.";
     Doc.thumbnail := icon learn_stories;
     Doc.category := lit "educational";
     Doc.theme := lit "learning";
     Doc.isAIGenerated := true;
     Doc.generatedForCollection := Some (lit "learn-stories");
     Doc.ageRange := {| min := 3; max := 7 |};
     Doc.duration := 7;
     Doc.stats_totalPlays := 0;
     Doc.stats_totalCompletions := 0;
     Doc.isActive := true;
     Doc.audioUrl := None;
     Doc.audioPending := false |}.

Definition nursery : World :=
  {| store := [moon_story]; next_id := 4; voice_env := None; tick := 0; log := [] |}.

(** The 24 hexadecimal digits that name [moon_story]. *)
Definition moon_id : jsstring := lit "000000000000000000000003".

(** A generated story that was stored with a theme the schema's
    enumeration does not have, the store that holds it, and its id. *)
Definition legacy_story : Doc.Story :=
  {| Doc._id := 5;
     Doc.title := lit "Star";
     Doc.description := lit "A trip to a star";
     Doc.content := lit "Once upon a time there was a star.";
     Doc.thumbnail := icon learn_stories;
     Doc.category := lit "educational";
     Doc.theme := lit "AI Generated";
     Doc.isAIGenerated := true;
     Doc.generatedForCollection := Some (lit "learn-stories");
     Doc.ageRange := {| min := 3; max := 7 |};
     Doc.duration := 7;
     Doc.stats_totalPlays := 0;
     Doc.stats_totalCompletions := 0;
     Doc.isActive := true;
     Doc.audioUrl := None;
     Doc.audioPending := false |}.

Definition attic : World :=
  {| store := [legacy_story]; next_id := 6; voice_env := None; tick := 0; log := [] |}.

Definition legacy_id : jsstring := lit "000000000000000000000005".

Definition demo_request : Request :=
  {| protocol := Some (lit "https"); host := Some (lit "stories.example") |}.

(** A body for POST /from-ai that leaves every optional key out, and one
    that gives a theme and a description. *)
Definition bare_body : FromAiBody :=
  {| b_title := lit "Moon";
     b_description := None;
     b_content := lit "Once upon a time there was a rocket.";
     b_duration := None;
     b_ageRange := None;
     b_thumbnail := None;
     b_audioUrl := None;
     b_theme := None;
     b_category := None;
     b_generatedForCollection := lit "learn-stories" |}.

Definition full_body : FromAiBody :=
  {| b_title := lit "Moon";
     b_description := Some (lit "A trip to the moon");
     b_content := lit "Once upon a time there was a rocket.";
     b_duration := None;
     b_ageRange := None;
     b_thumbnail := None;
     b_audioUrl := None;
     b_theme := Some (lit "learning");
     b_category := None;
     b_generatedForCollection := lit "learn-stories" |}.

(** The lookup for a record whose audio can be reused. *)
Definition audio_filter (s : Candidate) : Doc.Filter :=
  [Doc.AnyOf (Doc.TitleIs (title s)) (Doc.ContentIs (content s)); Doc.HasAudioUrl].

(** The two messages the engine sends for a shortfall of [need]. *)
Definition shortfall_request (cfg : Config) (cat : Category) (name : jsstring)
    (age need : Z) : ChatPayload :=
  {| model := env_or (OPENAI_MODEL cfg) (lit "gpt-3.5-turbo");
     messages :=
       [ {| role := lit "system"; text := systemPrompt cat need |};
         {| role := lit "user"; text := userPrompt cat name age need |} ];
     max_tokens := 1600 |}.

(** The digit at index [i] of the line is followed, after any white space,
    by [min] in any letter case. *)
Definition digit_min_at (line : jsstring) (i : nat) : Prop :=
  exists d ws post r,
    skipn i line = d :: ws ++ post
    /\ is_digit d = true
    /\ Forall (fun c => is_ws c = true) ws
    /\ min_word post = Some r.

(** The first such digit of the line. *)
Definition first_digit_min (line : jsstring) (i : nat) : Prop :=
  digit_min_at line i /\ forall j, (j < i)%nat -> ~ digit_min_at line j.

(** The number that the one or two digits ending at index [i] write: the
    digit at [i], with the digit before it when there is one. *)
Definition digits_ending_at (line : jsstring) (i : nat) : Z :=
  let d := digit_val (nth i line 0%N) in
  match i with
  | S j =>
      if is_digit (nth j line 0%N)
      then (10 * digit_val (nth j line 0%N) + d)%Z
      else d
  | O => d
  end.

(** The reading of the line mode that the specification gives: every line
    that one of the separators cuts in three gives a candidate, in the
    order of the lines; [already] candidates precede it. *)
Fixpoint candidates_of_lines (childName : jsstring) (childAge : Z)
    (lines : list jsstring) (already : nat) : list Candidate :=
  match lines with
  | [] => []
  | line :: rest =>
      match first_separator_split separators line with
      | None => candidates_of_lines childName childAge rest already
      | Some parts =>
          candidate_of_line childName childAge already line parts
          :: candidates_of_lines childName childAge rest (S already)
      end
  end.

(** A line as [split(/\r?\n/)] leaves it when a line feed follows: without
    the carriage return that the separator takes with it. *)
Fixpoint chomp (l : jsstring) : jsstring :=
  match l with
  | [] => []
  | c :: l' =>
      match l' with
      | [] => if (c =? 13)%N then [] else [c]
      | _ :: _ => c :: chomp l'
      end
  end.

Definition brave_fox_line : jsstring :=
  lit "Brave Fox - A tale of courage - Once there was... - 12 min".

(** A response body whose first choice carries the number 42 where the
    text should be, and a provider that answers with it. *)
Definition forty_two : jsvalue :=
  JNum {| num_text := lit "42"; num_truthy := true |}.

Definition number_answer : jsvalue :=
  JObj [(lit "choices",
         JArr [JObj [(lit "message", JObj [(lit "content", forty_two)])]])].

Definition number_oracle : Oracle :=
  {| chat_response := fun _ _ => Some number_answer;
     tts_response := fun _ _ _ => None;
     voices_response := fun _ => None;
     write_ok := fun _ _ => false;
     store_accepts := fun _ => true;
     clock := fun t => N.of_nat t |}.

(** A voice listing whose first voice has a non-empty [voice_id]. *)
Definition lists_voice (data : jsvalue) (voiceId : jsstring) : Prop :=
  exists fields rest,
    Json.get "voices" data = Some (JArr (JObj fields :: rest))
    /\ Json.get "voice_id" (JObj fields) = Some (JStr voiceId)
    /\ nonempty voiceId = true.

(** The file name and the URL that [saveBufferAndGetUrl] makes at time
    [now]. *)
Definition audio_filename (prefix : jsstring) (now : N) : jsstring :=
  prefix ++ lit "-" ++ dec_N now ++ lit ".mp3".

Definition is_audio_url (url filename : jsstring) : Prop :=
  exists proto hst, url = proto ++ lit "://" ++ hst ++ lit "/ai-audio/" ++ filename.

(** A record like [moon_story] in the collection now-stories, with the
    given id and [audioUrl]. *)
Definition recording (id : nat) (url : option jsstring) : Doc.Story :=
  {| Doc._id := id;
     Doc.title := lit "Moon";
     Doc.description := lit "A trip to the moon";
     Doc.content := lit "Once upon a time there was a rocket.";
     Doc.thumbnail := icon now_stories;
     Doc.category := lit "interactive";
     Doc.theme := lit "adventure";
     Doc.isAIGenerated := true;
     Doc.generatedForCollection := Some (lit "now-stories");
     Doc.ageRange := {| min := 3; max := 7 |};
     Doc.duration := 7;
     Doc.stats_totalPlays := 0;
     Doc.stats_totalCompletions := 0;
     Doc.isActive := true;
     Doc.audioUrl := url;
     Doc.audioPending := false |}.

Definition moon_url : jsstring := lit "https://stories.example/ai-audio/moon.mp3".

(** A store whose only record with the title Moon has audio, and one in
    which a record with an empty [audioUrl] comes before it. *)
Definition studio : World :=
  {| store := [recording 1 (Some moon_url)];
     next_id := 3; voice_env := None; tick := 0; log := [] |}.

Definition muted_studio : World :=
  {| store := [recording 1 (Some []); recording 2 (Some moon_url)];
     next_id := 3; voice_env := None; tick := 0; log := [] |}.

(** A candidate with the title and the content of these records. *)
Definition moon_candidate : Candidate :=
  {| title := lit " Moon "; description := lit "Again";
     content := lit "Once upon a time there was a rocket."; duration := 8;
     ageRange := {| min := 3; max := 7 |} |}.

(* ===================================================================== *)
(** * Sanity checks of the string and parser models *)
(* ===================================================================== *)

Lemma str_eqb_eq a b : str_eqb a b = true <-> a = b.
Proof.
  revert b; induction a as [|x a IH]; intros [|y b]; simpl; split;
    try congruence; try reflexivity.
  - intros H. apply andb_true_iff in H as [Hx Ha].
    apply N.eqb_eq in Hx. apply IH in Ha. congruence.
  - intros H. injection H as -> ->. rewrite N.eqb_refl. simpl. now apply IH.
Qed.

Lemma str_eqb_refl a : str_eqb a a = true.
Proof. now apply str_eqb_eq. Qed.

Example split_dash :
  split (lit " - ") (lit "a - b - c") = [lit "a"; lit "b"; lit "c"].
Proof. reflexivity. Qed.

Example split_overlap :
  split (lit "aa") (lit "aaa") = [lit ""; lit "a"].
Proof. reflexivity. Qed.

Example split_lines_crlf :
  split_lines [97; 13; 10; 98; 10; 13; 99]%N = [[97]; [98]; [13; 99]]%N.
Proof. reflexivity. Qed.

Example trim_both : trim (lit "  a b ") = lit "a b".
Proof. reflexivity. Qed.

Example parseInt_examples :
  parseInt10 (lit " 12 min") = Some 12%Z /\ parseInt10 (lit "-3") = Some (-3)%Z
  /\ parseInt10 (lit "x1") = None.
Proof. repeat split. Qed.

Example brave_fox_parts :
  line_parts (lit "Brave Fox - A tale of courage - Once there was... - 12 min")
  = Some [lit "Brave Fox"; lit "A tale of courage"; lit "Once there was..."; lit "12 min"].
Proof. reflexivity. Qed.

Example brave_fox_candidate :
  parseGeneratedText
    (lit "Brave Fox - A tale of courage - Once there was... - 12 min")
    (lit "Mia") 5 1
  = [ {| title := lit "Brave Fox";
         description := lit "A tale of courage";
         content := lit "Once there was... - 12 min";
         duration := 12;
         ageRange := {| min := 3; max := 7 |} |} ].
Proof. reflexivity. Qed.

Example numbered_line :
  map title (parseGeneratedText (lit "1. Moon: a trip: far away - 3 min") (lit "Mia") 5 2)
  = [lit "Moon"].
Proof. reflexivity. Qed.

Example duration_examples :
  line_duration (lit "a - b - c 123 MIN") = 20%Z
  /\ line_duration (lit "a - b - c 7min") = 7%Z
  /\ line_duration (lit "a - b - c 3 min") = 5%Z
  /\ line_duration (lit "a - b - c minutes") = 8%Z.
Proof. repeat split. Qed.

(* ===================================================================== *)
(** * Properties of the Output Parser *)
(* ===================================================================== *)

Section ParserFacts.

Lemma slice0_length_le {A} (n : Z) (l : list A) :
  (length (slice0 n l) <= length l)%nat.
Proof.
  unfold slice0. destruct (n <? 0)%Z; rewrite length_firstn; lia.
Qed.

Lemma slice0_length_bound {A} (n : Z) (l : list A) :
  (0 <= n)%Z -> (Z.of_nat (length (slice0 n l)) <= n)%Z.
Proof.
  intros Hn. unfold slice0.
  destruct (Z.ltb_spec n 0); [lia|]. rewrite length_firstn. lia.
Qed.

Lemma In_firstn {A} (n : nat) (l : list A) (x : A) :
  In x (firstn n l) -> In x l.
Proof.
  revert l; induction n as [|n IH]; intros [|y l]; simpl; try tauto.
  intros [H|H]; [now left|right; now apply IH].
Qed.

Lemma slice0_In {A} (n : Z) (l : list A) (x : A) :
  In x (slice0 n l) -> In x l.
Proof.
  unfold slice0. destruct (n <? 0)%Z; apply In_firstn.
Qed.

Lemma slice0_all {A} (n : Z) (l : list A) :
  (Z.of_nat (length l) <= n)%Z -> slice0 n l = l.
Proof.
  intros H. unfold slice0. destruct (Z.ltb_spec n 0); [lia|].
  apply firstn_all2. lia.
Qed.

Lemma parse_loop_length childName childAge count lines parsed :
  (Z.of_nat (length (parse_loop childName childAge count lines parsed))
   <= Z.max (Z.of_nat (length parsed)) count)%Z.
Proof.
  revert parsed; induction lines as [|line rest IH]; intros parsed; simpl.
  - lia.
  - destruct (Z.ltb_spec (Z.of_nat (length parsed)) count) as [Hlt|Hge]; [|lia].
    destruct (line_parts line) as [parts|].
    + eapply Z.le_trans; [apply IH|]. rewrite length_app. simpl. lia.
    + apply IH.
Qed.

Lemma parseGeneratedText_length text childName childAge count :
  (Z.of_nat (length (parseGeneratedText text childName childAge count))
   <= Z.max 0 count)%Z.
Proof.
  unfold parseGeneratedText.
  pose proof (parse_loop_length childName childAge count (text_lines text) []) as H.
  pose proof (slice0_length_le count
                (parse_loop childName childAge count (text_lines text) [])) as H'.
  simpl in H. lia.
Qed.

Lemma parseGeneratedText_slice text childName childAge count :
  slice0 count (parseGeneratedText text childName childAge count)
  = parseGeneratedText text childName childAge count.
Proof.
  pose proof (parseGeneratedText_length text childName childAge count) as H.
  destruct (Z.ltb_spec count 0) as [Hneg|Hpos].
  - assert (E : parseGeneratedText text childName childAge count = []).
    { destruct (parseGeneratedText text childName childAge count); [reflexivity|].
      simpl in H. lia. }
    rewrite E. unfold slice0. destruct (count <? 0)%Z; apply firstn_nil.
  - apply slice0_all. lia.
Qed.

Lemma parse_loop_full childName childAge count lines parsed :
  (count <= Z.of_nat (length parsed))%Z ->
  parse_loop childName childAge count lines parsed = parsed.
Proof.
  intros H. destruct lines as [|line rest]; simpl; [reflexivity|].
  destruct (Z.ltb_spec (Z.of_nat (length parsed)) count); [lia|reflexivity].
Qed.

Lemma parse_loop_skip childName childAge count line rest parsed :
  line_parts line = None ->
  parse_loop childName childAge count (line :: rest) parsed
  = parse_loop childName childAge count rest parsed.
Proof.
  intros H. simpl. rewrite H.
  destruct (Z.ltb_spec (Z.of_nat (length parsed)) count) as [Hlt|Hge];
    [reflexivity|].
  symmetry. now apply parse_loop_full.
Qed.

Lemma structured_loop_length childAge need arr acc :
  (Z.of_nat (length acc) < need)%Z ->
  (Z.of_nat (length (fst (structured_loop childAge need arr acc))) <= need)%Z.
Proof.
  revert acc; induction arr as [|obj rest IH]; intros acc Hacc; simpl.
  - lia.
  - destruct (negb (Json.truthy obj)
              || negb (Json.truthy_opt (Json.get "title" obj))
              || negb (Json.truthy_opt (Json.get "content" obj))).
    + now apply IH.
    + destruct (candidate_of_object childAge obj) as [e|c]; simpl; [lia|].
      destruct (Z.leb_spec need (Z.of_nat (length (acc ++ [c])))) as [Hfull|Hmore].
      * simpl. rewrite length_app. simpl. lia.
      * now apply IH.
Qed.

Lemma structured_tier_length JSON_parse aiText childAge need :
  (0 < need)%Z ->
  (Z.of_nat (length (structured_tier JSON_parse aiText childAge need)) <= need)%Z.
Proof.
  intros Hneed. unfold structured_tier, structured_try.
  destruct (indexOf 91 (trim aiText)) as [a|]; [|simpl; lia].
  destruct (lastIndexOf 93 (trim aiText)) as [b|]; [|simpl; lia].
  destruct (a <? b)%nat; [|simpl; lia].
  destruct (JSON_parse _) as [[| | | |arr|]|]; try (simpl; lia).
  apply structured_loop_length. simpl. lia.
Qed.

Lemma parse_ai_text_length JSON_parse aiText childName childAge need :
  (0 < need)%Z ->
  (Z.of_nat (length (parse_ai_text JSON_parse aiText childName childAge need))
   <= need)%Z.
Proof.
  intros Hneed. unfold parse_ai_text.
  destruct (nonempty aiText) eqn:Hne; simpl.
  - pose proof (structured_tier_length JSON_parse aiText childAge Hneed) as Hs.
    destruct (structured_tier JSON_parse aiText childAge need) as [|c l] eqn:E.
    + simpl. rewrite parseGeneratedText_slice.
      pose proof (parseGeneratedText_length aiText childName childAge need). lia.
    + simpl. simpl in Hs. lia.
  - lia.
Qed.

Lemma parse_loop_no_parts childName childAge count lines parsed :
  (forall line, In line lines -> line_parts line = None) ->
  parse_loop childName childAge count lines parsed = parsed.
Proof.
  revert parsed; induction lines as [|line rest IH]; intros parsed Hnone; simpl.
  - reflexivity.
  - rewrite (Hnone line (or_introl eq_refl)).
    destruct (Z.of_nat (length parsed) <? count)%Z; [|reflexivity].
    apply IH. intros l Hl. apply Hnone. now right.
Qed.

Lemma parse_ai_text_garbage JSON_parse aiText childName childAge need :
  indexOf 91 (trim aiText) = None ->
  (forall line, In line (text_lines aiText) -> line_parts line = None) ->
  parse_ai_text JSON_parse aiText childName childAge need = [].
Proof.
  intros Hno Hlines.
  assert (Hs : structured_tier JSON_parse aiText childAge need = []).
  { unfold structured_tier, structured_try. now rewrite Hno. }
  assert (Hl : parseGeneratedText aiText childName childAge need = []).
  { unfold parseGeneratedText. rewrite parse_loop_no_parts by exact Hlines.
    unfold slice0. destruct (need <? 0)%Z; apply firstn_nil. }
  unfold parse_ai_text. rewrite Hs, Hl.
  destruct (nonempty aiText); simpl; unfold slice0;
    destruct (need <? 0)%Z; try rewrite firstn_nil; reflexivity.
Qed.

End ParserFacts.

Section DurationFacts.

Lemma ws_then_min_eq s :
  ws_then_min s =
  match min_word s with
  | Some _ => true
  | None => match s with
            | c :: s' => is_ws c && ws_then_min s'
            | [] => false
            end
  end.
Proof. destruct s; reflexivity. Qed.

Lemma duration_match_eq s :
  duration_match s =
  match duration_at s with
  | Some v => Some v
  | None => match s with
            | _ :: s' => duration_match s'
            | [] => None
            end
  end.
Proof. destruct s; reflexivity. Qed.

Lemma ws_then_min_iff s :
  ws_then_min s = true <->
  exists ws post r,
    s = ws ++ post /\ Forall (fun c => is_ws c = true) ws /\ min_word post = Some r.
Proof.
  split.
  - induction s as [|c s IH]; rewrite ws_then_min_eq.
    + simpl. discriminate.
    + destruct (min_word (c :: s)) as [r|] eqn:E.
      * intros _. exists [], (c :: s), r. repeat split; auto.
      * intros H. apply andb_true_iff in H as [Hc Hs].
        destruct (IH Hs) as (ws & post & r & -> & Hws & Hmin).
        exists (c :: ws), post, r. repeat split; auto.
  - intros (ws & post & r & -> & Hws & Hmin).
    induction Hws as [|c ws Hc Hws IH]; rewrite ws_then_min_eq.
    + simpl. now rewrite Hmin.
    + destruct (min_word ((c :: ws) ++ post)); [reflexivity|].
      simpl. now rewrite Hc, IH.
Qed.

Lemma duration_at_pattern s v :
  duration_at s = Some v -> has_digit_min s.
Proof.
  destruct s as [|d1 s1]; simpl; [discriminate|].
  destruct (is_digit d1) eqn:Hd1; [|discriminate].
  destruct s1 as [|d2 s2].
  - rewrite ws_then_min_eq. simpl. discriminate.
  - destruct (is_digit d2 && ws_then_min s2) eqn:Htwo.
    + intros _. apply andb_true_iff in Htwo as [Hd2 Hw].
      apply ws_then_min_iff in Hw as (ws & post & r & -> & Hws & Hmin).
      exists [d1], d2, ws, post, r. repeat split; auto.
    + destruct (ws_then_min (d2 :: s2)) eqn:Hone; [|discriminate].
      intros _.
      apply ws_then_min_iff in Hone as (ws & post & r & E & Hws & Hmin).
      exists [], d1, ws, post, r. simpl. rewrite E. repeat split; auto.
Qed.

Lemma duration_at_complete d ws post r :
  is_digit d = true ->
  Forall (fun c => is_ws c = true) ws ->
  min_word post = Some r ->
  exists v, duration_at (d :: ws ++ post) = Some v.
Proof.
  intros Hd Hws Hmin.
  assert (Hone : ws_then_min (ws ++ post) = true).
  { apply ws_then_min_iff. now exists ws, post, r. }
  simpl. rewrite Hd.
  destruct (ws ++ post) as [|d2 s2].
  - rewrite ws_then_min_eq in Hone. simpl in Hone. discriminate.
  - destruct (is_digit d2 && ws_then_min s2); [eauto|].
    rewrite Hone. eauto.
Qed.

Lemma duration_match_iff line :
  (exists v, duration_match line = Some v) <-> has_digit_min line.
Proof.
  split.
  - induction line as [|c line IH]; rewrite duration_match_eq.
    + simpl. intros [v H]. discriminate.
    + destruct (duration_at (c :: line)) as [v|] eqn:E.
      * intros _. eapply duration_at_pattern; eauto.
      * intros H. destruct (IH H) as (pre & d & ws & post & r & -> & Hd & Hws & Hmin).
        exists (c :: pre), d, ws, post, r. repeat split; auto.
  - intros (pre & d & ws & post & r & -> & Hd & Hws & Hmin).
    induction pre as [|c pre IH]; rewrite duration_match_eq.
    + destruct (@duration_at_complete d ws post r Hd Hws Hmin) as [v Hv].
      simpl app. rewrite Hv. eauto.
    + destruct (duration_at ((c :: pre) ++ d :: ws ++ post)); [eauto|].
      exact IH.
Qed.

Lemma clamp_duration_range n : (5 <= clamp_duration n <= 20)%Z.
Proof. unfold clamp_duration. lia. Qed.

Lemma line_duration_range line : (5 <= line_duration line <= 20)%Z.
Proof.
  unfold line_duration. destruct (duration_match line).
  - apply clamp_duration_range.
  - lia.
Qed.

Ltac split_case sep line :=
  let L := fresh "L" in
  let G := fresh "G" in
  destruct (length (split sep line) <? 3)%nat eqn:L;
  destruct (3 <=? length (split sep line))%nat eqn:G;
  try (apply Nat.ltb_lt in L; apply Nat.leb_le in G; lia);
  try (apply Nat.ltb_ge in L; apply Nat.leb_gt in G; lia);
  cbv iota; repeat (rewrite L; cbv iota); try reflexivity.

Lemma line_parts_refines line :
  line_parts line = first_separator_split separators line.
Proof.
  unfold line_parts, separators. cbv zeta. cbn [first_separator_split].
  split_case sep_hyphen line.
  split_case sep_em_dash line.
  split_case sep_en_dash line.
  split_case sep_colon line.
  split_case sep_pipe line.
Qed.

End DurationFacts.

(** C4: the Output Parser is a total function into lists of candidates:
    [parseGeneratedText] never returns more than the requested count, the
    two tiers together never return more than a requested count of at
    least one (the engine asks for [need], and only when [need] is
    positive); a text with no opening bracket and no line of three
    segments gives the empty list; and when [JSON.parse] rejects the
    bracketed span the result is that of the line mode, no exception
    reaching the caller. *)
Theorem C4_parser_bounded_and_falls_through :
  forall (JSON_parse : jsstring -> option jsvalue)
         (aiText childName : jsstring) (childAge N : Z),
    (Z.of_nat (length (parseGeneratedText aiText childName childAge N))
     <= Z.max 0 N)%Z
    /\ (indexOf 91 (trim aiText) = None ->
        (forall line, In line (text_lines aiText) -> line_parts line = None) ->
        parse_ai_text JSON_parse aiText childName childAge N = [])
    /\ ((0 < N)%Z ->
        (Z.of_nat (length (parse_ai_text JSON_parse aiText childName childAge N))
         <= N)%Z
        /\ (forall firstBracket lastBracket,
               indexOf 91 (trim aiText) = Some firstBracket ->
               lastIndexOf 93 (trim aiText) = Some lastBracket ->
               (firstBracket < lastBracket)%nat ->
               JSON_parse (substring firstBracket (lastBracket + 1) (trim aiText))
               = None ->
               structured_try JSON_parse aiText childAge N = ([], Some SyntaxError)
               /\ parse_ai_text JSON_parse aiText childName childAge N
                  = parseGeneratedText aiText childName childAge N)).
Proof.
  intros JSON_parse aiText childName childAge N.
  split; [apply parseGeneratedText_length|].
  split; [apply parse_ai_text_garbage|].
  intros HN. split.
  -
 now apply parse_ai_text_length.
  - intros a b Ha Hb Hab Hfail.
    assert (Htry : structured_try JSON_parse aiText childAge N
                   = ([], Some SyntaxError)).
    { unfold structured_try. rewrite Ha, Hb.
      apply Nat.ltb_lt in Hab. rewrite Hab. now rewrite Hfail. }
    split; [exact Htry|].
    unfold parse_ai_text, structured_tier. rewrite Htry.
    destruct (nonempty aiText) eqn:Hne; simpl.
    + apply parseGeneratedText_slice.
    + destruct aiText; [|discriminate]. vm_compute in Ha. discriminate.
Qed.

(** A text whose bracketed span is not JSON, followed by a parsable line. *)
Lemma C4_witness :
  let JSON_parse := fun _ : jsstring => @None jsvalue in
  let aiText := lit "[Moon] - A trip - Far away" in
  (0 < 2)%Z
  /\ indexOf 91 (trim aiText) = Some 0%nat
  /\ lastIndexOf 93 (trim aiText) = Some 5%nat
  /\ map title (parse_ai_text JSON_parse aiText (lit "Mia") 5 2) = [lit "[Moon]"]
  /\ parse_ai_text JSON_parse (lit "no story today, sorry") (lit "Mia") 5 2 = []
  /\ parse_ai_text JSON_parse aiText (lit "Mia") 5 2
     = parseGeneratedText aiText (lit "Mia") 5 2.
Proof.
  intros JSON_parse aiText.
  split; [reflexivity|]. split; [reflexivity|]. split; [reflexivity|].
  split; [reflexivity|]. split; [reflexivity|].
  refine (proj2 (proj2 (proj2 (proj2 (C4_parser_bounded_and_falls_through
                                        JSON_parse aiText (lit "Mia") 5 2)) _)
                        0%nat 5%nat _ _ _ _));
    solve [reflexivity | repeat constructor].
Defined.

Lemma ws_not_digit c : is_ws c = true -> is_digit c = false.
Proof.
  unfold is_ws, is_digit. intros H.
  destruct ((48 <=? c) && (c <=? 57))%N eqn:E; [|reflexivity].
  apply andb_true_iff in E as [E1 E2]. apply N.leb_le in E1, E2.
  repeat (apply orb_true_iff in H as [H|H]);
    repeat match goal with
           | H : (_ && _)%bool = true |- _ => apply andb_true_iff in H as [? ?]
           | H : (_ <=? _)%N = true |- _ => apply N.leb_le in H
           | H : (_ =? _)%N = true |- _ => apply N.eqb_eq in H
           end; lia.
Qed.

Lemma min_word_not_digit c s r : min_word (c :: s) = Some r -> is_digit c = false.
Proof.
  unfold min_word. destruct s as [|i [|n s]]; try discriminate.
  destruct (ci_eq 109 c) eqn:E; [|discriminate]. intros _.
  unfold ci_eq in E. unfold is_digit.
  apply orb_true_iff in E as [E|E]; apply N.eqb_eq in E; subst; reflexivity.
Qed.

(** What follows the digit of an occurrence does not start with a digit. *)
Lemma after_digit_min ws post r d2 s2 :
  Forall (fun c => is_ws c = true) ws -> min_word post = Some r ->
  ws ++ post = d2 :: s2 -> is_digit d2 = false.
Proof.
  intros Hws Hmin E. destruct ws as [|c ws]; cbn in E.
  - subst post. eapply min_word_not_digit; eauto.
  - injection E as <- _. inversion Hws; subst. now apply ws_not_digit.
Qed.

Lemma duration_at_cases s v :
  duration_at s = Some v ->
  (exists d1 s1, s = d1 :: s1 /\ is_digit d1 = true /\ ws_then_min s1 = true
                 /\ v = digit_val d1
                 /\ match s1 with
                    | d2 :: s2 => is_digit d2 && ws_then_min s2 = false
                    | [] => True
                    end)
  \/ (exists d1 d2 s2, s = d1 :: d2 :: s2 /\ is_digit d1 = true
                       /\ is_digit d2 = true /\ ws_then_min s2 = true
                       /\ v = (10 * digit_val d1 + digit_val d2)%Z).
Proof.
  destruct s as [|d1 s1]; cbn [duration_at]; [discriminate|].
  destruct (is_digit d1) eqn:Hd1; [|discriminate].
  destruct s1 as [|d2 s2].
  - destruct (ws_then_min []) eqn:E; [|discriminate].
    intros [= <-]. left. exists d1, []. repeat split; auto.
  - destruct (is_digit d2 && ws_then_min s2) eqn:Htwo.
    + intros [= <-]. apply andb_true_iff in Htwo as [H2 Hw].
      right. exists d1, d2, s2. repeat split; auto.
    + destruct (ws_then_min (d2 :: s2)) eqn:Hone; [|discriminate].
      intros [= <-]. left. exists d1, (d2 :: s2). repeat split; auto.
Qed.

Lemma digit_min_at_iff line i :
  digit_min_at line i <->
  exists d s, skipn i line = d :: s /\ is_digit d = true /\ ws_then_min s = true.
Proof.
  split.
  - intros (d & ws & post & r & E & Hd & Hws & Hmin).
    exists d, (ws ++ post). repeat split; auto.
    apply ws_then_min_iff. exists ws, post, r. auto.
  - intros (d & s & E & Hd & Hw).
    apply ws_then_min_iff in Hw as (ws & post & r & -> & Hws & Hmin).
    exists d, ws, post, r. repeat split; auto.
Qed.

Lemma skipn_cons_nth {A} (l : list A) i x s d :
  skipn i l = x :: s -> nth i l d = x /\ skipn (S i) l = s.
Proof.
  revert l; induction i as [|i IH]; intros [|y l]; cbn; try discriminate.
  - intros [= -> ->]. auto.
  - intros H. destruct (IH l H) as [H1 H2]. split; [exact H1|].
    destruct l; [destruct i; discriminate|]. exact H2.
Qed.

(** A match of the pattern at position [q] shows an occurrence at [q] or,
    after a digit, at [q + 1]. *)
Lemma duration_at_occurrence line q v :
  duration_at (skipn q line) = Some v ->
  digit_min_at line q
  \/ (is_digit (nth q line 0%N) = true /\ digit_min_at line (S q)).
Proof.
  intros H. apply duration_at_cases in H
    as [(d1 & s1 & E & Hd & Hw & _ & _)|(d1 & d2 & s2 & E & H1 & H2 & Hw & _)].
  - left. apply digit_min_at_iff. eauto.
  - right. destruct (skipn_cons_nth _ _ 0%N E) as [Hn Hs].
    split; [now rewrite Hn|]. apply digit_min_at_iff. eauto.
Qed.

Lemma duration_match_first line p v :
  (forall q, (q < p)%nat -> duration_at (skipn q line) = None) ->
  duration_at (skipn p line) = Some v ->
  duration_match line = Some v.
Proof.
  revert line; induction p as [|p IH]; intros line Hbefore Hat;
    rewrite duration_match_eq.
  - cbn in Hat. now rewrite Hat.
  - pose proof (Hbefore 0%nat ltac:(lia)) as H0. cbn in H0. rewrite H0.
    destruct line as [|c line]; [cbn in Hat; discriminate|].
    apply IH; [|exact Hat].
    intros q Hq. apply (Hbefore (S q)). lia.
Qed.

Lemma first_digit_min_duration line i :
  first_digit_min line i ->
  duration_match line = Some (digits_ending_at line i).
Proof.
  intros [Hocc Hfirst].
  pose proof Hocc as (d & ws & post & r & E & Hd & Hws & Hmin).
  destruct (skipn_cons_nth _ _ 0%N E) as [Hnth Hrest].
  assert (Hw : ws_then_min (ws ++ post) = true)
    by (apply ws_then_min_iff; exists ws, post, r; auto).
  assert (Hearlier : forall q, (S q < i)%nat -> duration_at (skipn q line) = None).
  { intros q Hq. destruct (duration_at (skipn q line)) as [v|] eqn:Hv; [|reflexivity].
    apply duration_at_occurrence in Hv as [Hv|[_ Hv]];
      [destruct (Hfirst q ltac:(lia) Hv)|destruct (Hfirst (S q) Hq Hv)]. }
  assert (Hone : duration_at (d :: ws ++ post) = Some (digit_val d)).
  { cbn [duration_at]. rewrite Hd.
    destruct (ws ++ post) as [|d2 s2] eqn:Es.
    - now rewrite Hw.
    - rewrite (after_digit_min _ Hws Hmin Es). cbn [andb]. now rewrite Hw. }
  unfold digits_ending_at. rewrite Hnth.
  destruct i as [|j].
  - cbn in E. subst line. rewrite duration_match_eq. now rewrite Hone.
  - destruct (is_digit (nth j line 0%N)) eqn:Hprev.
    + apply duration_match_first with (p := j).
      * intros q Hq. apply Hearlier. lia.
      * assert (Ej : skipn j line = nth j line 0%N :: d :: ws ++ post).
        { clear -E. revert line E. induction j as [|j IH]; intros [|c line] E;
            try (cbn in E; discriminate).
          - cbn in E. cbn. now rewrite E.
          - cbn [skipn nth]. apply IH. exact E. }
        rewrite Ej. cbn [duration_at]. rewrite Hprev, Hd, Hw. reflexivity.
    + apply duration_match_first with (p := S j).
      * intros q Hq.
        destruct (Nat.eq_dec q j) as [->|Hne]; [|apply Hearlier; lia].
        destruct (duration_at (skipn j line)) as [v|] eqn:Hv; [|reflexivity].
        apply duration_at_occurrence in Hv as [Hv|[Hdig _]];
          [destruct (Hfirst j ltac:(lia) Hv)|congruence].
      * rewrite E. exact Hone.
Qed.

Lemma digit_min_at_dec line i : {digit_min_at line i} + {~ digit_min_at line i}.
Proof.
  destruct (skipn i line) as [|d s] eqn:E.
  - right. intros H. apply digit_min_at_iff in H as (d & s & E' & _).
    congruence.
  - destruct (is_digit d && ws_then_min s) eqn:B.
    + left. apply andb_true_iff in B as [? ?]. apply digit_min_at_iff. eauto.
    + right. intros H. apply digit_min_at_iff in H as (d' & s' & E' & Hd & Hw).
      rewrite E in E'. injection E' as <- <-. now rewrite Hd, Hw in B.
Qed.

Lemma first_occurrence line i :
  digit_min_at line i -> exists k, first_digit_min line k.
Proof.
  induction i as [i IH] using (well_founded_induction lt_wf). intros Hi.
  assert (Hsearch : forall n, (n <= i)%nat ->
            (exists j, (j < n)%nat /\ digit_min_at line j)
            \/ (forall j, (j < n)%nat -> ~ digit_min_at line j)).
  { induction n as [|n IHn]; intros Hn; [right; intros; lia|].
    destruct (IHn ltac:(lia)) as [(j & Hj & Hocc)|Hnone];
      [left; exists j; split; [lia|exact Hocc]|].
    destruct (digit_min_at_dec line n) as [Hocc|Hno];
      [left; exists n; split; [lia|exact Hocc]|].
    right. intros j Hj. destruct (Nat.eq_dec j n) as [->|]; [exact Hno|].
    apply Hnone. lia. }
  destruct (Hsearch i (Nat.le_refl i)) as [(j & Hj & Hocc)|Hnone].
  - exact (IH j Hj Hocc).
  - exists i. split; assumption.
Qed.

Lemma has_digit_min_occurrence line :
  has_digit_min line <-> exists i, digit_min_at line i.
Proof.
  split.
  - intros (pre & d & ws & post & r & -> & Hd & Hws & Hmin).
    exists (length pre), d, ws, post, r. repeat split; auto.
    rewrite skipn_app, skipn_all, Nat.sub_diag. reflexivity.
  - intros (i & d & ws & post & r & E & Hd & Hws & Hmin).
    exists (firstn i line), d, ws, post, r. repeat split; auto.
    rewrite <- E. symmetry. apply firstn_skipn.
Qed.

(* --- lines of a text --- *)

Lemma drop_while_app p (a b : jsstring) :
  drop_while p (a ++ b)
  = if forallb p a then drop_while p b else drop_while p a ++ b.
Proof.
  induction a as [|c a IH]; cbn; [reflexivity|].
  destruct (p c); cbn; [exact IH|reflexivity].
Qed.

Lemma drop_while_all p (l : jsstring) :
  forallb p l = true -> drop_while p l = [].
Proof.
  induction l as [|c l IH]; cbn; [reflexivity|].
  destruct (p c); cbn; [exact IH|discriminate].
Qed.

Lemma trim_cr l : trim (l ++ [13]%N) = trim l.
Proof.
  unfold trim, trim_start, trim_end. rewrite drop_while_app.
  destruct (forallb is_ws l) eqn:E.
  - rewrite (drop_while_all _ _ E). reflexivity.
  - rewrite rev_app_distr. cbn. reflexivity.
Qed.

Lemma chomp_trim l : trim (chomp l) = trim l.
Proof.
  induction l as [|c l IH]; [reflexivity|].
  destruct l as [|d l].
  - cbn [chomp]. destruct (N.eqb_spec c 13); [subst; reflexivity|reflexivity].
  - assert (E : chomp (c :: d :: l) = c :: chomp (d :: l)) by reflexivity.
    rewrite E.
    assert (Hcases : chomp (d :: l) = d :: l
                     \/ d :: l = chomp (d :: l) ++ [13]%N).
    { clear. revert d. induction l as [|e l IHl]; intros d.
      - cbn. destruct (N.eqb_spec d 13); [subst; right; reflexivity|left; reflexivity].
      - assert (E : chomp (d :: e :: l) = d :: chomp (e :: l)) by reflexivity.
        rewrite E. destruct (IHl e) as [->|H]; [left; reflexivity|].
        right. cbn [app]. now rewrite <- H. }
    destruct Hcases as [->|H]; [reflexivity|].
    rewrite H at 2. change (c :: chomp (d :: l) ++ [13]%N)
      with ((c :: chomp (d :: l)) ++ [13]%N).
    now rewrite trim_cr.
Qed.

Lemma split_lines_go_line l rest cur :
  ~ In 10%N l ->
  split_lines_go (l ++ 10%N :: rest) cur
  = (rev cur ++ chomp l) :: split_lines_go rest [].
Proof.
  revert cur; induction l as [|c l IH]; intros cur Hno.
  - cbn. now rewrite app_nil_r.
  - assert (Hc : (c =? 10)%N = false).
    { apply N.eqb_neq. intros ->. apply Hno. now left. }
    assert (Hl : ~ In 10%N l) by (intros H; apply Hno; now right).
    cbn [app split_lines_go]. rewrite Hc.
    destruct l as [|d l].
    + cbn [app chomp]. destruct (N.eqb_spec c 13) as [->|Hn].
      * cbn. now rewrite app_nil_r.
      * cbn. reflexivity.
    + assert (Hd : (d =? 10)%N = false).
      { apply N.eqb_neq. intros ->. apply Hl. now left. }
      assert (E : chomp (c :: d :: l) = c :: chomp (d :: l)) by reflexivity.
      rewrite E. cbn [app]. rewrite Hd.
      assert (Hgo : split_lines_go (d :: l ++ 10%N :: rest) (c :: cur)
                    = (rev cur ++ c :: chomp (d :: l)) :: split_lines_go rest []).
      { change (d :: l ++ 10%N :: rest) with ((d :: l) ++ 10%N :: rest).
        rewrite (IH (c :: cur) Hl). cbn [rev]. now rewrite <- app_assoc. }
      destruct (c =? 13)%N; exact Hgo.
Qed.

Lemma split_lines_go_last l cur :
  ~ In 10%N l -> split_lines_go l cur = [rev cur ++ l].
Proof.
  revert cur; induction l as [|c l IH]; intros cur Hno.
  - cbn. now rewrite app_nil_r.
  - assert (Hc : (c =? 10)%N = false).
    { apply N.eqb_neq. intros ->. apply Hno. now left. }
    assert (Hl : ~ In 10%N l) by (intros H; apply Hno; now right).
    cbn [split_lines_go]. rewrite Hc.
    assert (Hgo : split_lines_go l (c :: cur) = [rev cur ++ c :: l]).
    { rewrite (IH (c :: cur) Hl). cbn [rev]. now rewrite <- app_assoc. }
    destruct l as [|d l]; [destruct (c =? 13)%N; exact Hgo|].
    assert (Hd : (d =? 10)%N = false).
    { apply N.eqb_neq. intros ->. apply Hl. now left. }
    rewrite Hd. destruct (c =? 13)%N; exact Hgo.
Qed.

Lemma text_lines_join ls :
  Forall (fun l => ~ In 10%N l) ls ->
  text_lines (join [10]%N ls) = filter nonempty (map trim ls).
Proof.
  unfold text_lines, split_lines.
  induction 1 as [|l ls Hl Hls IH]; [reflexivity|].
  destruct ls as [|l2 ls].
  - cbn [join]. rewrite (@split_lines_go_last l [] Hl). reflexivity.
  - change (join [10]%N (l :: l2 :: ls))
      with (l ++ [10]%N ++ join [10]%N (l2 :: ls)).
    cbn [app]. rewrite (@split_lines_go_line l _ [] Hl).
    cbn [rev app map filter]. rewrite chomp_trim, IH. reflexivity.
Qed.

Lemma parse_loop_lines childName childAge count lines :
  forall parsed,
    (Z.of_nat (length parsed) <= count)%Z ->
    parse_loop childName childAge count lines parsed
    = firstn (Z.to_nat count)
        (parsed ++ candidates_of_lines childName childAge lines (length parsed)).
Proof.
  induction lines as [|line rest IH]; intros parsed Hlen.
  - cbn. rewrite app_nil_r. symmetry. apply firstn_all2. lia.
  - cbn [parse_loop candidates_of_lines].
    rewrite <- line_parts_refines.
    destruct (Z.ltb_spec (Z.of_nat (length parsed)) count) as [Hlt|Hge].
    + destruct (line_parts line) as [parts|]; [|now apply IH].
      rewrite IH by (rewrite length_app; cbn; lia).
      rewrite <- app_assoc, length_app. cbn [length app].
      now rewrite Nat.add_1_r.
    + assert (E : Z.to_nat count = length parsed) by lia.
      rewrite E, firstn_app, Nat.sub_diag, firstn_all. cbn.
      now rewrite app_nil_r.
Qed.

Lemma parseGeneratedText_lines ls childName childAge count :
  (0 <= count)%Z ->
  Forall (fun l => ~ In 10%N l) ls ->
  parseGeneratedText (join [10]%N ls) childName childAge count
  = firstn (Z.to_nat count)
      (candidates_of_lines childName childAge (filter nonempty (map trim ls)) 0).
Proof.
  intros Hc Hls. unfold parseGeneratedText.
  rewrite slice0_all.
  - rewrite parse_loop_lines by (cbn; lia). cbn [app length].
    now rewrite text_lines_join.
  - pose proof (parse_loop_length childName childAge count
                  (text_lines (join [10]%N ls)) []) as H.
    cbn [length] in H. lia.
Qed.

(** C5: in line mode the separators are tried in the order hyphen, em dash,
    en dash, colon, pipe and the first that gives three segments is used; a
    line for which none does is skipped.  The candidates of a text are
    those of its lines, trimmed and with the blank ones dropped, in order.
    The duration of a candidate is that of its line: 8 when no digit is
    followed by [min], and otherwise the number written by the one or two
    digits that end at the first digit followed by [min], clamped to
    5..20. *)
Theorem C5_line_mode_separators_and_duration :
  (forall line, line_parts line = first_separator_split separators line)
  /\ (forall childName childAge count line rest parsed,
         line_parts line = None ->
         parse_loop childName childAge count (line :: rest) parsed
         = parse_loop childName childAge count rest parsed)
  /\ (forall ls childName childAge count,
         (0 <= count)%Z ->
         Forall (fun l => ~ In 10%N l) ls ->
         parseGeneratedText (join nl ls) childName childAge count
         = firstn (Z.to_nat count)
             (candidates_of_lines childName childAge
                (filter nonempty (map trim ls)) 0))
  /\ (forall childName childAge already line parts,
         duration (candidate_of_line childName childAge already line parts)
         = line_duration line)
  /\ (forall line, (5 <= line_duration line <= 20)%Z)
  /\ (forall line, ~ has_digit_min line -> line_duration line = 8%Z)
  /\ (forall line, has_digit_min line -> exists i, first_digit_min line i)
  /\ (forall line i, first_digit_min line i ->
         duration_match line = Some (digits_ending_at line i)
         /\ line_duration line = Z.min 20 (Z.max 5 (digits_ending_at line i)))
  /\ (forall childName childAge,
         map duration
           (parseGeneratedText brave_fox_line childName childAge 1) = [12%Z])
  /\ (forall childName childAge,
         map duration
           (parseGeneratedText
              (lit "Brave Fox - A tale of courage - Once there was...")
              childName childAge 1) = [8%Z])
  /\ (forall childName childAge,
         map duration
           (parseGeneratedText
              (join nl [brave_fox_line; lit "  "; lit "no story here"; moon_line])
              childName childAge 2) = [12%Z; 7%Z])
  /\ line_duration (lit "Long - A saga - Once... - 115 min") = 15%Z.
Proof.
  split; [apply line_parts_refines|].
  split; [intros; now apply parse_loop_skip|].
  split; [intros; now apply parseGeneratedText_lines|].
  split; [reflexivity|].
  split; [apply line_duration_range|].
  split.
  { intros line Hno. unfold line_duration.
    destruct (duration_match line) as [v|] eqn:E; [|reflexivity].
    exfalso. apply Hno. apply duration_match_iff. eauto. }
  split.
  { intros line Hyes. apply has_digit_min_occurrence in Hyes as [i Hi].
    eapply first_occurrence; eauto. }
  split.
  { intros line i Hi. apply first_digit_min_duration in Hi.
    split; [exact Hi|]. unfold line_duration. now rewrite Hi. }
  repeat split; intros; reflexivity.
Qed.

Section CandidateFacts.

Lemma candidate_of_object_ageRange childAge obj c :
  candidate_of_object childAge obj = inr c ->
  ageRange c = age_range_for childAge.
Proof.
  unfold candidate_of_object. intros H.
  repeat match type of H with
         | context [match ?x with inl _ => _ | inr _ => _ end] =>
             destruct x; try discriminate
         end.
  injection H as <-. reflexivity.
Qed.

Lemma Forall_snoc {A} (P : A -> Prop) (l : list A) (x : A) :
  Forall P l -> P x -> Forall P (l ++ [x]).
Proof. intros Hl Hx. apply Forall_app. split; auto. Qed.

Lemma Forall_slice0 {A} (P : A -> Prop) (n : Z) (l : list A) :
  Forall P l -> Forall P (slice0 n l).
Proof.
  intros H. apply Forall_forall. intros x Hx.
  apply slice0_In in Hx. revert x Hx. now apply Forall_forall.
Qed.

Lemma parse_loop_Forall (P : Candidate -> Prop) childName childAge count :
  (forall already line parts,
      P (candidate_of_line childName childAge already line parts)) ->
  forall lines parsed,
    Forall P parsed ->
    Forall P (parse_loop childName childAge count lines parsed).
Proof.
  intros HP. induction lines as [|line rest IH]; intros parsed Hacc; simpl.
  - exact Hacc.
  - destruct (Z.of_nat (length parsed) <? count)%Z; [|exact Hacc].
    destruct (line_parts line) as [parts|]; apply IH; auto.
    apply Forall_snoc; auto.
Qed.

Lemma structured_loop_Forall (P : Candidate -> Prop) childAge need :
  (forall obj c, candidate_of_object childAge obj = inr c -> P c) ->
  forall arr acc,
    Forall P acc ->
    Forall P (fst (structured_loop childAge need arr acc)).
Proof.
  intros HP. induction arr as [|obj rest IH]; intros acc Hacc; simpl.
  - exact Hacc.
  - destruct (negb (Json.truthy obj)
              || negb (Json.truthy_opt (Json.get "title" obj))
              || negb (Json.truthy_opt (Json.get "content" obj))).
    + now apply IH.
    + destruct (candidate_of_object childAge obj) as [e|c] eqn:E; simpl; [exact Hacc|].
      assert (Hpushed : Forall P (acc ++ [c])) by (apply Forall_snoc; eauto).
      destruct (need <=? Z.of_nat (length (acc ++ [c])))%Z; simpl; auto.
Qed.

Lemma parse_ai_text_Forall (P : Candidate -> Prop) JSON_parse aiText
    childName childAge need :
  (forall already line parts,
      P (candidate_of_line childName childAge already line parts)) ->
  (forall obj c, candidate_of_object childAge obj = inr c -> P c) ->
  Forall P (parse_ai_text JSON_parse aiText childName childAge need).
Proof.
  intros Hline Hobj.
  assert (Hs : Forall P (structured_tier JSON_parse aiText childAge need)).
  { unfold structured_tier, structured_try.
    destruct (indexOf 91 (trim aiText)); [|constructor].
    destruct (lastIndexOf 93 (trim aiText)); [|constructor].
    destruct (_ <? _)%nat; [|constructor].
    destruct (JSON_parse _) as [[| | | |arr|]|]; try constructor.
    now apply structured_loop_Forall. }
  unfold parse_ai_text.
  destruct (nonempty aiText); simpl.
  - destruct (length _ =? 0)%nat; [|exact Hs].
    apply Forall_app. split; [exact Hs|].
    apply Forall_slice0. unfold parseGeneratedText. apply Forall_slice0.
    apply parse_loop_Forall; auto.
  - constructor.
Qed.

(** In line mode a candidate's body is never empty. *)
Lemma line_mode_content_nonempty text childName childAge count :
  Forall (fun c => content c <> [])
         (parseGeneratedText text childName childAge count).
Proof.
  unfold parseGeneratedText. apply Forall_slice0.
  apply parse_loop_Forall; [|constructor].
  intros already line parts. unfold candidate_of_line. cbn [content].
  generalize (trim (join (lit " - ") (skipn 2 parts))). intros storyText.
  unfold or_else, default_content. destruct storyText; simpl; discriminate.
Qed.

(** In structured mode an element without a truthy [title] or [content]
    is passed over. *)
Lemma structured_rejects_falsy childAge need obj rest acc :
  Json.truthy_opt (Json.get "title" obj) = false
  \/ Json.truthy_opt (Json.get "content" obj) = false ->
  structured_loop childAge need (obj :: rest) acc
  = structured_loop childAge need rest acc.
Proof.
  intros [H|H]; simpl; rewrite H; simpl;
    rewrite ?orb_true_r; reflexivity.
Qed.

End CandidateFacts.

(** C6: every candidate of either tier carries the age range
    [max(2, childAge - 2) .. min(12, childAge + 2)]; for a child of 5 it
    is 3..7, and for a child of 1 the lower end is 2. *)
Theorem C6_age_range_of_candidates :
  forall (JSON_parse : jsstring -> option jsvalue)
         (aiText childName : jsstring) (childAge N : Z),
    let expected :=
      {| min := Z.max 2 (childAge - 2); max := Z.min 12 (childAge + 2) |} in
    Forall (fun c => ageRange c = expected)
           (parse_ai_text JSON_parse aiText childName childAge N)
    /\ Forall (fun c => ageRange c = expected)
              (parseGeneratedText aiText childName childAge N)
    /\ Forall (fun c => ageRange c = expected)
              (structured_tier JSON_parse aiText childAge N)
    /\ map ageRange (parseGeneratedText (lit "Moon - A trip - Far away") childName 5 1)
       = [ {| min := 3; max := 7 |} ]
    /\ map ageRange
         (fst (structured_loop 5 1
                 [JObj [(lit "title", JStr (lit "Moon"));
                        (lit "content", JStr (lit "Far away"))]] []))
       = [ {| min := 3; max := 7 |} ]
    /\ map ageRange (parseGeneratedText (lit "Moon - A trip - Far away") childName 1 1)
       = [ {| min := 2; max := 3 |} ].
Proof.
  intros JSON_parse aiText childName childAge N expected.
  assert (Hline : forall already line parts,
             ageRange (candidate_of_line childName childAge already line parts)
             = expected) by reflexivity.
  assert (Hobj : forall obj c,
             candidate_of_object childAge obj = inr c -> ageRange c = expected).
  { intros obj c H. now apply candidate_of_object_ageRange in H. }
  split; [now apply parse_ai_text_Forall|].
  split.
  { unfold parseGeneratedText. apply Forall_slice0.
    apply parse_loop_Forall; [exact Hline|constructor]. }
  split.
  { unfold structured_tier, structured_try.
    destruct (indexOf 91 (trim aiText)); [|constructor].
    destruct (lastIndexOf 93 (trim aiText)); [|constructor].
    destruct (_ <? _)%nat; [|constructor].
    destruct (JSON_parse _) as [[| | | |arr|]|]; try constructor.
    apply structured_loop_Forall; [exact Hobj|constructor]. }
  repeat split.
Qed.

(** C10: the structured tier tests [obj.content] before trimming it, so an
    element whose [content] is a single space passes the test and becomes
    a candidate whose body is the empty string. *)
Theorem C10_structured_blank_content_accepted :
  parse_ai_text parse_blank_content blank_content_text (lit "Mia") 5 1
  = [ {| title := lit "Moon";
         description := lit "A trip";
         content := [];
         duration := 8;
         ageRange := {| min := 3; max := 7 |} |} ].
Proof. vm_compute. reflexivity. Qed.

(* ===================================================================== *)
(** * Reading a run: events and their effect on the store *)
(* ===================================================================== *)

Section RunFacts.

Variable o : Oracle.
Variable others : Interference.

Lemma run_bind {A B} (p : Prog A) (f : A -> Prog B) w :
  run o others (bind p f) w =
  match run o others p w with
  | (inr a, w1) => run o others (f a) w1
  | (inl e, w1) => (inl e, w1)
  end.
Proof.
  revert w; induction p as [a|e|X e k IH]; intros w; simpl; try reflexivity.
  destruct (exec o e _) as [x w1]. apply IH.
Qed.

Lemma run_try_catch {A} (p : Prog A) (h : exn -> Prog A) w :
  run o others (try_catch p h) w =
  match run o others p w with
  | (inr a, w1) => (inr a, w1)
  | (inl e, w1) => run o others (h e) w1
  end.
Proof.
  revert w; induction p as [a|e|X e k IH]; intros w; simpl; try reflexivity.
  destruct (exec o e _) as [x w1]. apply IH.
Qed.

Lemma exec_log {X} (e : Eff X) w x w' :
  exec o e w = (x, w') ->
  log w' = log w ++ [Ev e x] /\ tick w' = S (tick w).
Proof.
  unfold exec. destruct (perform o e w) as [y w1] eqn:E.
  intros [= <- <-]. simpl.
  destruct e; simpl in E;
    try (injection E as <- <-; simpl; auto; fail).
  destruct (Doc.validate d && store_accepts o (tick w));
    injection E as <- <-; simpl; auto.
Qed.

Lemma exec_store {X} (e : Eff X) w x w' :
  exec o e w = (x, w') ->
  store w' = replay_one (store w) (Ev e x).
Proof.
  unfold exec. destruct (perform o e w) as [y w1] eqn:E.
  intros [= <- <-]. simpl.
  destruct e; simpl in E;
    try (injection E as <- <-; simpl; auto; fail).
  destruct (Doc.validate d && store_accepts o (tick w));
    injection E as <- <-; simpl; auto.
Qed.

(** Every run appends its events to the log, one per tick. *)
Lemma run_events {A} (p : Prog A) w r w' :
  run o others p w = (r, w') ->
  exists evs, log w' = log w ++ evs /\ tick w' = (tick w + length evs)%nat.
Proof.
  revert w; induction p as [a|e|X e k IH]; intros w; simpl.
  - intros [= <- <-]. exists []. rewrite app_nil_r. split; auto.
  - intros [= <- <-]. exists []. rewrite app_nil_r. split; auto.
  - destruct (exec o e _) as [x w1] eqn:E. intros H.
    apply exec_log in E as [El Et]. simpl in El, Et.
    destruct (IH x w1 H) as (evs & Hl & Ht).
    exists (Ev e x :: evs). rewrite Hl, El, <- app_assoc. simpl.
    split; [reflexivity|]. rewrite Ht, Et. simpl. lia.
Qed.

Lemma run_uses (allowed : Kind -> bool) {A} (p : Prog A) :
  Uses allowed p ->
  forall w r w' evs,
    run o others p w = (r, w') ->
    log w' = log w ++ evs ->
    Forall (fun ev => allowed (ev_kind ev) = true) evs.
Proof.
  induction 1 as [a|e|X e k Hk Hall IH]; intros w r w' evs; simpl.
  - intros [= <- <-] Hl.
    assert (evs = []) as ->; [|constructor].
    apply (app_inv_head (log w)). now rewrite app_nil_r.
  - intros [= <- <-] Hl.
    assert (evs = []) as ->; [|constructor].
    apply (app_inv_head (log w)). now rewrite app_nil_r.
  - destruct (exec o e _) as [x w1] eqn:E. intros Hrun Hl.
    pose proof (exec_log _ _ E) as [El Et]. simpl in El.
    destruct (run_events _ _ Hrun) as (evs' & Hl' & _).
    assert (evs = Ev e x :: evs') as ->.
    { apply (app_inv_head (log w)). rewrite <- Hl, Hl', El, <- app_assoc.
      reflexivity. }
    constructor; [exact Hk|].
    eapply IH; eauto.
Qed.

Lemma run_nothrow {A} (p : Prog A) :
  NoThrow p -> forall w, exists a w', run o others p w = (inr a, w').
Proof.
  induction 1 as [a|X e k Hall IH]; intros w; simpl.
  - eauto.
  - destruct (exec o e _) as [x w1]. apply IH.
Qed.

End RunFacts.

Section UsesFacts.

Variable allowed : Kind -> bool.

Lemma Uses_bind {A B} (p : Prog A) (f : A -> Prog B) :
  Uses allowed p -> (forall a, Uses allowed (f a)) -> Uses allowed (bind p f).
Proof.
  intros Hp Hf. induction Hp; simpl; auto; constructor; auto.
Qed.

Lemma Uses_try_catch {A} (p : Prog A) (h : exn -> Prog A) :
  Uses allowed p -> (forall e, Uses allowed (h e)) -> Uses allowed (try_catch p h).
Proof.
  intros Hp Hh. induction Hp; simpl; auto; constructor; auto.
Qed.

Lemma Uses_await {X} (e : Eff X) :
  allowed (kind e) = true -> Uses allowed (await e).
Proof. intros H. constructor; auto. intros x. constructor. Qed.

Lemma Uses_await_or_throw {X} (e : Eff (option X)) err :
  allowed (kind e) = true -> Uses allowed (await_or_throw e err).
Proof.
  intros H. unfold await_or_throw. apply Uses_bind; [now apply Uses_await|].
  intros [x|]; constructor.
Qed.

End UsesFacts.

Lemma NoThrow_bind {A B} (p : Prog A) (f : A -> Prog B) :
  NoThrow p -> (forall a, NoThrow (f a)) -> NoThrow (bind p f).
Proof.
  intros Hp Hf. induction Hp; simpl; auto; constructor; auto.
Qed.

Lemma NoThrow_try_catch {A} (p : Prog A) (h : exn -> Prog A) :
  (forall e, NoThrow (h e)) -> NoThrow (try_catch p h).
Proof.
  intros Hh. induction p as [a|e|X e k IH]; simpl; auto; constructor; auto.
Qed.

Lemma NoThrow_await {X} (e : Eff X) : NoThrow (await e).
Proof. constructor. intros x. constructor. Qed.

Section ReplayFacts.

Variable o : Oracle.

(** With no other request in the way the final store is the initial one
    with the run's own events replayed on it. *)
Lemma run_alone_store {A} (p : Prog A) w r w' evs :
  run o alone p w = (r, w') ->
  log w' = log w ++ evs ->
  store w' = replay evs (store w).
Proof.
  revert w evs; induction p as [a|e|X e k IH]; intros w evs; simpl.
  - intros [= <- <-] Hl.
    assert (evs = []) as ->; [|reflexivity].
    apply (app_inv_head (log w)). now rewrite app_nil_r.
  - intros [= <- <-] Hl.
    assert (evs = []) as ->; [|reflexivity].
    apply (app_inv_head (log w)). now rewrite app_nil_r.
  - destruct (exec o e _) as [x w1] eqn:E. intros Hrun Hl.
    pose proof E as Es. apply exec_store in Es. simpl in Es.
    apply exec_log in E as [El Et]. simpl in El.
    pose proof Hrun as Hev. apply run_events in Hev as (evs' & Hl' & _).
    assert (evs = Ev e x :: evs') as ->.
    { apply (app_inv_head (log w)). rewrite <- Hl, Hl', El, <- app_assoc.
      reflexivity. }
    rewrite (IH x w1 evs' Hrun Hl'). simpl. unfold alone in Es. now rewrite Es.
Qed.

Lemma created_app evs1 evs2 : created (evs1 ++ evs2) = created evs1 ++ created evs2.
Proof. unfold created. apply flat_map_app. Qed.

Lemma counts_app evs1 evs2 : counts (evs1 ++ evs2) = counts evs1 ++ counts evs2.
Proof. unfold counts. apply flat_map_app. Qed.

Lemma chats_app evs1 evs2 : chats (evs1 ++ evs2) = chats evs1 ++ chats evs2.
Proof. unfold chats. apply flat_map_app. Qed.

Lemma replay_app evs1 evs2 s : replay (evs1 ++ evs2) s = replay evs2 (replay evs1 s).
Proof. unfold replay. apply fold_left_app. Qed.

(** Events that mutate nothing only ever append what they create. *)
Lemma replay_no_mutation evs s :
  no_mutation evs -> replay evs s = s ++ created evs.
Proof.
  intros H. revert s. induction H as [|ev evs Hev Hevs IH]; intros s; simpl.
  - now rewrite app_nil_r.
  - rewrite IH. destruct ev as [X e r].
    destruct e; simpl in *; try discriminate; try reflexivity.
    destruct r; simpl; [now rewrite <- app_assoc|reflexivity].
Qed.

Lemma quiet_events evs :
  Forall (fun ev => quiet_kind (ev_kind ev) = true) evs ->
  created evs = [] /\ counts evs = [] /\ no_mutation evs
  /\ Forall (fun ev => is_kind KSpawn ev = false) evs.
Proof.
  induction 1 as [|ev evs Hev Hevs (IH1 & IH2 & IH3 & IH4)]; simpl.
  - repeat split; constructor.
  - rewrite IH1, IH2.
    destruct ev as [X e r]; destruct e; simpl in *; try discriminate;
      repeat split; try constructor; auto.
Qed.

End ReplayFacts.

Section GatewayFacts.

Variable cfg : Config.

Lemma provider_kind_quiet k : provider_kind k = true -> quiet_kind k = true.
Proof. destruct k; simpl; congruence. Qed.

Lemma Uses_weaken (a b : Kind -> bool) {A} (p : Prog A) :
  (forall k, a k = true -> b k = true) -> Uses a p -> Uses b p.
Proof. intros Hab. induction 1; constructor; auto. Qed.

Lemma generateWithOpenAI_nothrow msgs maxTokens mdl :
  NoThrow (generateWithOpenAI cfg msgs maxTokens mdl).
Proof.
  unfold generateWithOpenAI. destruct (negb _); [constructor|].
  apply NoThrow_try_catch. intros; constructor.
Qed.

Lemma generateWithOpenAI_uses msgs maxTokens mdl :
  Uses provider_kind (generateWithOpenAI cfg msgs maxTokens mdl).
Proof.
  unfold generateWithOpenAI. destruct (negb _); [constructor|].
  apply Uses_try_catch; [|intros; constructor].
  apply Uses_bind; [now apply Uses_await_or_throw|intros; constructor].
Qed.

Lemma saveBufferAndGetUrl_uses req buffer prefix :
  Uses provider_kind (saveBufferAndGetUrl cfg req buffer prefix).
Proof.
  unfold saveBufferAndGetUrl.
  repeat (apply Uses_bind; [now apply Uses_await|intros]).
  destruct (negb _); constructor.
Qed.

Lemma textToElevenlabsAudio_nothrow txt prefix req :
  NoThrow (textToElevenlabsAudio cfg txt prefix req).
Proof.
  unfold textToElevenlabsAudio. destruct (negb _); [constructor|].
  apply NoThrow_bind; [apply NoThrow_await|intros v].
  apply NoThrow_bind.
  - destruct (nonempty _); [|constructor].
    apply NoThrow_try_catch. intros; constructor.
  - intros [url|]; [constructor|].
    apply NoThrow_try_catch. intros; constructor.
Qed.

Lemma textToElevenlabsAudio_uses txt prefix req :
  Uses provider_kind (textToElevenlabsAudio cfg txt prefix req).
Proof.
  unfold textToElevenlabsAudio. destruct (negb _); [constructor|].
  apply Uses_bind; [now apply Uses_await|intros v].
  apply Uses_bind.
  - destruct (nonempty _); [|constructor].
    apply Uses_try_catch; [|intros; constructor].
    apply Uses_bind; [now apply Uses_await_or_throw|intros res].
    apply Uses_bind; [apply saveBufferAndGetUrl_uses|intros; constructor].
  - intros [url|]; [constructor|].
    apply Uses_try_catch; [|intros; constructor].
    apply Uses_bind; [now apply Uses_await_or_throw|intros data].
    destruct (fallback_voice data); [|constructor].
    apply Uses_try_catch; [|intros; constructor].
    destruct (Json.toString j); [constructor|].
    apply Uses_bind; [now apply Uses_await_or_throw|intros res].
    apply Uses_bind; [now apply Uses_await|intros _].
    apply Uses_bind; [apply saveBufferAndGetUrl_uses|intros; constructor].
Qed.

End GatewayFacts.

(* ===================================================================== *)
(** * The provider gateway *)
(* ===================================================================== *)

Ltac find_in := simpl; repeat (first [left; reflexivity | right]).

Ltac oracle_cases :=
  repeat (unfold exec; simpl;
          match goal with
          | |- context [tts_response ?o ?t ?v ?x] =>
              let H := fresh "Htts" in destruct (tts_response o t v x) eqn:H
          | |- context [write_ok ?o ?t ?f] =>
              let H := fresh "Hw" in destruct (write_ok o t f) eqn:H
          | |- context [voices_response ?o ?t] =>
              let H := fresh "Hvoices" in destruct (voices_response o t) eqn:H
          | |- context [fallback_voice ?d] =>
              let H := fresh "Hfb" in destruct (fallback_voice d) eqn:H
          | |- context [Json.toString ?v] =>
              let H := fresh "Hstr" in destruct (Json.toString v) eqn:H
          end).

Ltac tts_leaf :=
  eexists _, _, _; split; [reflexivity|];
  split; [simpl; repeat rewrite <- app_assoc; simpl; reflexivity|];
  split; [discriminate|];
  split;
  [ first [ intros url Hnone; discriminate
          | intros url Hsome; injection Hsome as <-;
            eexists _, _, _, _, _;
            split; [|split]; [ | find_in | reflexivity]; find_in ]
  | split; intros Hall;
    first [ reflexivity
          | repeat match goal with
                   | Hx : tts_response _ _ _ _ = Some _ |- _ =>
                       rewrite Hall in Hx; discriminate
                   | Hx : write_ok _ _ _ = true |- _ =>
                       rewrite Hall in Hx; discriminate
                   end ] ].

Section GatewayTheorems.

Variable cfg : Config.
Variable o : Oracle.
Variable others : Interference.

Lemma generateWithOpenAI_result msgs maxTokens mdl w :
  exists v w' evs,
    run o others (generateWithOpenAI cfg msgs maxTokens mdl) w = (inr v, w')
    /\ log w' = log w ++ evs
    /\ (env_set (OPENAI_API_KEY cfg) = false -> v = JStr [] /\ evs = [])
    /\ (env_set (OPENAI_API_KEY cfg) = true ->
        let payload :=
          {| model := mdl; messages := msgs; max_tokens := maxTokens |} in
        evs = [Ev (PostChat payload) (chat_response o (tick w) payload)]
        /\ v = match chat_response o (tick w) payload with
               | Some data => chat_content data
               | None => JStr []
               end).
Proof.
  unfold generateWithOpenAI.
  destruct (env_set (OPENAI_API_KEY cfg)) eqn:Hkey; simpl.
  - unfold exec; simpl.
    destruct (chat_response o (tick w) _) as [data|] eqn:Hresp; simpl;
      eexists _, _, _; (split; [reflexivity|]); simpl;
      (split; [reflexivity|]); (split; [discriminate|]);
      intros _; rewrite ?Hresp; split; reflexivity.
  - exists (JStr []), w, []. rewrite app_nil_r.
    repeat split; auto; discriminate.
Qed.

Lemma textToElevenlabsAudio_result txt prefix req w :
  exists r w' evs,
    run o others (textToElevenlabsAudio cfg txt prefix req) w = (inr r, w')
    /\ log w' = log w ++ evs
    /\ (env_set (ELEVENLABS_API_KEY cfg) = false -> r = None /\ evs = [])
    /\ (forall url, r = Some url ->
          exists voice bytes filename proto hst,
            In (Ev (PostTTS voice txt) (Some bytes)) evs
            /\ In (Ev (WriteFile filename bytes) true) evs
            /\ url = proto ++ lit "://" ++ hst ++ lit "/ai-audio/" ++ filename)
    /\ ((forall t v x, tts_response o t v x = None) -> r = None)
    /\ ((forall t f, write_ok o t f = false) -> r = None).
Proof.
  unfold textToElevenlabsAudio.
  destruct (env_set (ELEVENLABS_API_KEY cfg)) eqn:Hkey; simpl.
  2:{ exists None, w, []. rewrite app_nil_r. repeat split; auto; discriminate. }
  unfold exec; simpl.
  destruct (nonempty (trim (env_or (voice_env w) []))) eqn:Hv; simpl;
    oracle_cases; tts_leaf.
Qed.

(** With a voice configured, an answered synthesis call and a written
    file give the URL of that file. *)
Lemma textToElevenlabsAudio_success txt prefix req w bytes :
  let voice := trim (env_or (voice_env w) []) in
  let filename :=
    prefix ++ lit "-" ++ dec_N (clock o (3 + tick w)) ++ lit ".mp3" in
  env_set (ELEVENLABS_API_KEY cfg) = true ->
  nonempty voice = true ->
  tts_response o (1 + tick w) voice txt = Some bytes ->
  write_ok o (4 + tick w) filename = true ->
  exists url w',
    run o others (textToElevenlabsAudio cfg txt prefix req) w = (inr (Some url), w')
    /\ exists proto hst, url = proto ++ lit "://" ++ hst ++ lit "/ai-audio/" ++ filename.
Proof.
  intros voice filename Hkey Hv Htts Hw. subst voice filename.
  unfold textToElevenlabsAudio. rewrite Hkey. simpl.
  unfold exec; simpl. rewrite Hv. simpl.
  unfold exec; simpl. simpl in Htts. rewrite Htts. simpl.
  unfold exec; simpl. simpl in Hw. rewrite Hw. simpl.
  eexists _, _. split; [reflexivity|]. eexists _, _. reflexivity.
Qed.

Lemma chat_content_path data :
  chat_content data =
  match chat_path data with
  | Some v => if Json.truthy v then v else JStr []
  | None => JStr []
  end.
Proof. reflexivity. Qed.

End GatewayTheorems.

Lemma lists_voice_fallback data voiceId :
  lists_voice data voiceId -> fallback_voice data = Some (JStr voiceId).
Proof.
  intros (fields & rest & Hv & Hid & Hne).
  unfold fallback_voice, first_truthy. rewrite Hv.
  cbn [Json.truthy_opt Json.truthy]. rewrite Hid.
  unfold Json.truthy_opt, Json.truthy. rewrite Hne. cbn. now rewrite Hne.
Qed.

Section Fallback.

Variable cfg : Config.
Variable o : Oracle.
Variable others : Interference.

(** No voice configured: the first voice of the listing is used, and an
    answered synthesis call and a written file give the URL of that file;
    the voice is remembered. *)
Lemma textToElevenlabsAudio_fallback txt prefix req w data voiceId bytes :
  let filename := audio_filename prefix (clock o (5 + tick w)) in
  env_set (ELEVENLABS_API_KEY cfg) = true ->
  nonempty (trim (env_or (voice_env w) [])) = false ->
  voices_response o (1 + tick w) = Some data ->
  lists_voice data voiceId ->
  tts_response o (2 + tick w) voiceId txt = Some bytes ->
  write_ok o (6 + tick w) filename = true ->
  exists url w',
    run o others (textToElevenlabsAudio cfg txt prefix req) w = (inr (Some url), w')
    /\ is_audio_url url filename
    /\ voice_env w' = Some voiceId.
Proof.
  intros filename Hkey Hv Hvoices Hlist Htts Hw. subst filename.
  apply lists_voice_fallback in Hlist.
  unfold textToElevenlabsAudio. rewrite Hkey. simpl.
  unfold exec; simpl. rewrite Hv. simpl.
  unfold exec; simpl. simpl in Hvoices. rewrite Hvoices. simpl.
  rewrite Hlist. simpl.
  unfold exec; simpl. simpl in Htts. rewrite Htts. simpl.
  unfold exec; simpl. unfold audio_filename in Hw. simpl in Hw. rewrite Hw. simpl.
  eexists _, _. split; [reflexivity|]. split; [|reflexivity].
  eexists _, _. reflexivity.
Qed.

(** A configured voice whose synthesis call is rejected: the listing's
    first voice is tried next, in the same way. *)
Lemma textToElevenlabsAudio_second_voice txt prefix req w data voiceId bytes :
  let voice := trim (env_or (voice_env w) []) in
  let filename := audio_filename prefix (clock o (6 + tick w)) in
  env_set (ELEVENLABS_API_KEY cfg) = true ->
  nonempty voice = true ->
  tts_response o (1 + tick w) voice txt = None ->
  voices_response o (2 + tick w) = Some data ->
  lists_voice data voiceId ->
  tts_response o (3 + tick w) voiceId txt = Some bytes ->
  write_ok o (7 + tick w) filename = true ->
  exists url w',
    run o others (textToElevenlabsAudio cfg txt prefix req) w = (inr (Some url), w')
    /\ is_audio_url url filename
    /\ voice_env w' = Some voiceId.
Proof.
  intros voice filename Hkey Hv Hfirst Hvoices Hlist Htts Hw. subst voice filename.
  apply lists_voice_fallback in Hlist.
  unfold textToElevenlabsAudio. rewrite Hkey. simpl.
  unfold exec; simpl. rewrite Hv. simpl.
  unfold exec; simpl. simpl in Hfirst. rewrite Hfirst. simpl.
  unfold exec; simpl. simpl in Hvoices. rewrite Hvoices. simpl.
  rewrite Hlist. simpl.
  unfold exec; simpl. simpl in Htts. rewrite Htts. simpl.
  unfold exec; simpl. unfold audio_filename in Hw. simpl in Hw. rewrite Hw. simpl.
  eexists _, _. split; [reflexivity|]. split; [|reflexivity].
  eexists _, _. reflexivity.
Qed.

End Fallback.

(** C8: neither gateway function ever ends in an exception.  Text
    generation returns the empty string when the key is missing (without
    calling the provider), when the call is rejected, and when the response
    has no truthy [choices[0].message.content]; a content that is text is
    returned.  Speech synthesis returns [null] when the key is missing
    (without any operation), when every synthesis call is rejected and when
    every file write fails; a URL it returns is that of a file written
    from the bytes of an answered synthesis call; an answered call and a
    written file do give that URL, for the configured voice and for the
    first voice of the listing, which is used when no voice is configured
    or when the configured one is rejected.
    Against the claim, a content that is truthy and is not text is returned
    as it is: the number 42 comes back as the number 42, neither text nor
    the empty string, and the engine, which splits what it takes for a
    text, ends in a TypeError. *)
Theorem C8_gateway_passes_non_text_content :
  forall (cfg : Config) (o : Oracle) (others : Interference) (w : World),
    (forall msgs maxTokens mdl,
        exists v w' evs,
          run o others (generateWithOpenAI cfg msgs maxTokens mdl) w = (inr v, w')
          /\ log w' = log w ++ evs
          /\ (env_set (OPENAI_API_KEY cfg) = false -> v = JStr [] /\ evs = [])
          /\ (env_set (OPENAI_API_KEY cfg) = true ->
              let payload :=
                {| model := mdl; messages := msgs; max_tokens := maxTokens |} in
              evs = [Ev (PostChat payload) (chat_response o (tick w) payload)]
              /\ match chat_response o (tick w) payload with
                 | None => v = JStr []
                 | Some data =>
                     match chat_path data with
                     | None => v = JStr []
                     | Some c => v = if Json.truthy c then c else JStr []
                     end
                 end))
    /\ (forall msgs maxTokens mdl data s,
           env_set (OPENAI_API_KEY cfg) = true ->
           chat_response o (tick w)
             {| model := mdl; messages := msgs; max_tokens := maxTokens |}
           = Some data ->
           chat_path data = Some (JStr s) ->
           fst (run o others (generateWithOpenAI cfg msgs maxTokens mdl) w)
           = inr (JStr s))
    /\ (forall txt prefix req,
           exists r w' evs,
             run o others (textToElevenlabsAudio cfg txt prefix req) w = (inr r, w')
             /\ log w' = log w ++ evs
             /\ (env_set (ELEVENLABS_API_KEY cfg) = false -> r = None /\ evs = [])
             /\ (forall url, r = Some url ->
                   exists voice bytes filename proto hst,
                     In (Ev (PostTTS voice txt) (Some bytes)) evs
                     /\ In (Ev (WriteFile filename bytes) true) evs
                     /\ url = proto ++ lit "://" ++ hst ++ lit "/ai-audio/" ++ filename)
             /\ ((forall t v x, tts_response o t v x = None) -> r = None)
             /\ ((forall t f, write_ok o t f = false) -> r = None))
    /\ (forall txt prefix req bytes,
           let voice := trim (env_or (voice_env w) []) in
           let filename :=
             prefix ++ lit "-" ++ dec_N (clock o (3 + tick w)) ++ lit ".mp3" in
           env_set (ELEVENLABS_API_KEY cfg) = true ->
           nonempty voice = true ->
           tts_response o (1 + tick w) voice txt = Some bytes ->
           write_ok o (4 + tick w) filename = true ->
           exists url w',
             run o others (textToElevenlabsAudio cfg txt prefix req) w
             = (inr (Some url), w')
             /\ exists proto hst,
                 url = proto ++ lit "://" ++ hst ++ lit "/ai-audio/" ++ filename)
    /\ (forall txt prefix req data voiceId bytes,
           let filename := audio_filename prefix (clock o (5 + tick w)) in
           env_set (ELEVENLABS_API_KEY cfg) = true ->
           nonempty (trim (env_or (voice_env w) [])) = false ->
           voices_response o (1 + tick w) = Some data ->
           lists_voice data voiceId ->
           tts_response o (2 + tick w) voiceId txt = Some bytes ->
           write_ok o (6 + tick w) filename = true ->
           exists url w',
             run o others (textToElevenlabsAudio cfg txt prefix req) w
             = (inr (Some url), w')
             /\ is_audio_url url filename
             /\ voice_env w' = Some voiceId)
    /\ (forall txt prefix req data voiceId bytes,
           let voice := trim (env_or (voice_env w) []) in
           let filename := audio_filename prefix (clock o (6 + tick w)) in
           env_set (ELEVENLABS_API_KEY cfg) = true ->
           nonempty voice = true ->
           tts_response o (1 + tick w) voice txt = None ->
           voices_response o (2 + tick w) = Some data ->
           lists_voice data voiceId ->
           tts_response o (3 + tick w) voiceId txt = Some bytes ->
           write_ok o (7 + tick w) filename = true ->
           exists url w',
             run o others (textToElevenlabsAudio cfg txt prefix req) w
             = (inr (Some url), w')
             /\ is_audio_url url filename
             /\ voice_env w' = Some voiceId)
    /\ (chat_path number_answer = Some forty_two
        /\ (forall s, forty_two <> JStr s)
        /\ fst (run number_oracle alone
                  (generateWithOpenAI demo_cfg [] 1600 (lit "gpt-3.5-turbo"))
                  empty_world)
           = inr forty_two
        /\ fst (run number_oracle alone demo_call empty_world) = inl TypeError).
Proof.
  intros cfg o others w.
  assert (Htext : forall msgs maxTokens mdl,
        exists v w' evs,
          run o others (generateWithOpenAI cfg msgs maxTokens mdl) w = (inr v, w')
          /\ log w' = log w ++ evs
          /\ (env_set (OPENAI_API_KEY cfg) = false -> v = JStr [] /\ evs = [])
          /\ (env_set (OPENAI_API_KEY cfg) = true ->
              let payload :=
                {| model := mdl; messages := msgs; max_tokens := maxTokens |} in
              evs = [Ev (PostChat payload) (chat_response o (tick w) payload)]
              /\ match chat_response o (tick w) payload with
                 | None => v = JStr []
                 | Some data =>
                     match chat_path data with
                     | None => v = JStr []
                     | Some c => v = if Json.truthy c then c else JStr []
                     end
                 end)).
  { intros msgs maxTokens mdl.
    destruct (generateWithOpenAI_result cfg o others msgs maxTokens mdl w)
      as (v & w' & evs & Hrun & Hlog & Hoff & Hon).
    exists v, w', evs.
    split; [exact Hrun|]. split; [exact Hlog|]. split; [exact Hoff|].
    intros Hkey payload. destruct (Hon Hkey) as [Hevs Hv].
    split; [exact Hevs|]. fold payload in Hv.
    destruct (chat_response o (tick w) payload) as [data|]; [|exact Hv].
    rewrite chat_content_path in Hv. destruct (chat_path data); exact Hv. }
  split; [exact Htext|].
  split.
  { intros msgs maxTokens mdl data s Hkey Hresp Hpath.
    destruct (Htext msgs maxTokens mdl) as (v & w' & evs & Hrun & _ & _ & Hon).
    rewrite Hrun. cbn [fst]. destruct (Hon Hkey) as [_ Hv]. cbv zeta in Hv.
    rewrite Hresp, Hpath in Hv. rewrite Hv.
    destruct s; reflexivity. }
  split; [intros txt prefix req; apply textToElevenlabsAudio_result|].
  split.
  { intros txt prefix req bytes voice filename Hk Hv Ht Hw.
    eapply textToElevenlabsAudio_success; eassumption. }
  split.
  { intros txt prefix req data voiceId bytes filename Hk Hv Hl Hlist Ht Hw.
    eapply textToElevenlabsAudio_fallback; eassumption. }
  split.
  { intros txt prefix req data voiceId bytes voice filename Hk Hv Hf Hl Hlist Ht Hw.
    eapply textToElevenlabsAudio_second_voice; eassumption. }
  split; [reflexivity|]. split; [discriminate|]. split; reflexivity.
Qed.

(* ===================================================================== *)
(** * Reading a run of the replenishment engine *)
(* ===================================================================== *)

Ltac forall_events :=
  repeat first [ apply Forall_nil
               | assumption
               | apply Forall_cons; [reflexivity|]
               | apply Forall_app; split ].

Section EngineFacts.
Variable JSON_parse : jsstring -> option jsvalue.
Variable cfg : Config.
Variable o : Oracle.
Variable others : Interference.

Lemma audio_for_nothrow key req i s : NoThrow (audio_for cfg key req i s).
Proof.
  unfold audio_for. apply NoThrow_bind; [apply NoThrow_await|intros found].
  destruct (match opt_bind found Doc.audioUrl with Some u => _ | None => _ end);
    [constructor|].
  destruct req; [|constructor].
  destruct (env_set _); [|constructor].
  apply NoThrow_try_catch. intros; constructor.
Qed.

Lemma audio_for_uses key req i s : Uses quiet_kind (audio_for cfg key req i s).
Proof.
  unfold audio_for. apply Uses_bind; [now apply Uses_await|intros found].
  destruct (match opt_bind found Doc.audioUrl with Some u => _ | None => _ end);
    [constructor|].
  destruct req; [|constructor].
  destruct (env_set _); [|constructor].
  apply Uses_try_catch; [|intros; constructor].
  apply Uses_bind; [now apply Uses_await|intros now].
  apply Uses_bind.
  - eapply Uses_weaken; [apply provider_kind_quiet|apply textToElevenlabsAudio_uses].
  - intros [u|]; [destruct (nonempty u)|]; constructor.
Qed.

Lemma save_one_spec cat key req i s w r w' :
  run o others (save_one cfg cat key req i s) w = (r, w') ->
  exists evs,
    log w' = log w ++ evs
    /\ counts evs = []
    /\ no_mutation evs
    /\ Forall (fun ev => is_kind KSpawn ev = false) evs
    /\ ((r = inr None /\ created evs = [])
        \/ (exists d, r = inr (Some d) /\ created evs = [d]
                      /\ story_of cat key s d
                      /\ Doc.findOne (dup_filter key s) (others (tick w) (store w))
                         = None)).
Proof.
  unfold save_one. cbn [bind await try_catch run].
  unfold exec at 1. cbn [perform store with_store].
  fold (dup_filter key s).
  destruct (Doc.findOne (dup_filter key s) (others (tick w) (store w)))
    as [dup|] eqn:Hdup.
  - cbn. intros [= <- <-]. eexists. split; [reflexivity|].
    split; [reflexivity|].
    split; [unfold no_mutation; forall_events|].
    split; [forall_events|].
    left. split; reflexivity.
  - rewrite run_try_catch, run_bind.
    match goal with |- context [run o others (audio_for cfg key req i s) ?w1] =>
      destruct (run_nothrow o others (audio_for_nothrow key req i s) w1)
        as (a & w2 & Ha);
      pose proof Ha as Hev; apply run_events in Hev as (evsA & HlA & _);
      assert (Hq : Forall (fun ev => quiet_kind (ev_kind ev) = true) evsA)
        by (eapply run_uses; [apply audio_for_uses | exact Ha | exact HlA]);
      rewrite Ha
    end.
    apply quiet_events in Hq as (Hc & Hn & Hm & Hs).
    cbn [bind await await_or_throw run]. unfold exec. cbn [perform].
    destruct (Doc.validate _ && store_accepts o _) eqn:Hok;
      cbn; intros [= <- <-]; cbn; rewrite HlA; cbn.
    + eexists. split; [rewrite <- !app_assoc; reflexivity|].
      rewrite !counts_app, !created_app, Hc, Hn. cbn.
      split; [reflexivity|].
      split; [unfold no_mutation in *; forall_events|].
      split; [forall_events|].
      right. eexists. split; [reflexivity|]. split; [reflexivity|].
      split; [|reflexivity].
      apply andb_true_iff in Hok as [Hval _].
      eexists _, _, _. split; [reflexivity|exact Hval].
    + eexists. split; [rewrite <- !app_assoc; reflexivity|].
      rewrite !counts_app, !created_app, Hc, Hn. cbn.
      split; [reflexivity|].
      split; [unfold no_mutation in *; forall_events|].
      split; [forall_events|].
      left. split; reflexivity.
Qed.

Lemma Picked_length R cs ds : Picked R cs ds -> (length ds <= length cs)%nat.
Proof. induction 1; simpl; lia. Qed.

Lemma save_loop_spec cat key req toSave :
  forall i saved w r w',
    run o others (save_loop cfg cat key req toSave i saved) w = (r, w') ->
    exists evs,
      log w' = log w ++ evs
      /\ counts evs = []
      /\ no_mutation evs
      /\ Forall (fun ev => is_kind KSpawn ev = false) evs
      /\ r = inr (saved ++ created evs)
      /\ Picked (story_of cat key) toSave (created evs).
Proof.
  induction toSave as [|s rest IH]; intros i saved w r w'.
  - cbn. intros [= <- <-]. exists []. rewrite !app_nil_r.
    repeat split; try constructor.
  - cbn [save_loop]. rewrite run_bind.
    destruct (run o others (save_one cfg cat key req i s) w) as [[e|od] w1] eqn:H1;
      apply save_one_spec in H1
        as (evs1 & Hl1 & Hc1 & Hm1 & Hs1 & [[Hr1 Hd1]|(d & Hr1 & Hd1 & Hof & Hnone)]);
      try discriminate; injection Hr1 as ->; intros H2;
      apply IH in H2 as (evs2 & Hl2 & Hc2 & Hm2 & Hs2 & Hr2 & Hp2);
      exists (evs1 ++ evs2);
      rewrite Hl2, Hl1, app_assoc, counts_app, created_app, Hc1, Hc2, Hd1.
    + repeat split; auto; try (apply Forall_app; split; assumption).
      now apply Picked_skip.
    + repeat split; auto; try (apply Forall_app; split; assumption).
      * rewrite Hr2, <- app_assoc. reflexivity.
      * now apply Picked_take.
Qed.

End EngineFacts.

Section SequentialFacts.
Variable cfg : Config.
Variable o : Oracle.

Lemma save_loop_alone cat key req toSave :
  forall i saved w r w' evs,
    run o alone (save_loop cfg cat key req toSave i saved) w = (r, w') ->
    log w' = log w ++ evs ->
    PickedFrom cat key (store w) toSave (created evs).
Proof.
  induction toSave as [|s rest IH]; intros i saved w r w' evs.
  - cbn. intros [= <- <-] Hl.
    assert (evs = []) as ->; [|constructor].
    apply (app_inv_head (log w)). now rewrite app_nil_r.
  - cbn [save_loop]. rewrite run_bind.
    destruct (run o alone (save_one cfg cat key req i s) w) as [[e|od] w1] eqn:H1.
    + apply save_one_spec in H1 as (evs1 & _ & _ & _ & _ & [[Hr _]|(d & Hr & _)]);
        discriminate.
    + intros H2 Hl.
      pose proof H1 as Hspec.
      apply save_one_spec in Hspec
        as (evs1 & Hl1 & Hc1 & Hm1 & Hs1 & Hcase).
      assert (Hst1 : store w1 = replay evs1 (store w))
        by (eapply run_alone_store; eauto).
      rewrite replay_no_mutation in Hst1 by assumption.
      pose proof H2 as Hev2. apply run_events in Hev2 as (evs2 & Hl2 & _).
      assert (evs = evs1 ++ evs2) as ->.
      { apply (app_inv_head (log w)). rewrite <- Hl, Hl2, Hl1, app_assoc.
        reflexivity. }
      assert (HP : PickedFrom cat key (store w1) rest (created evs2))
        by (eapply IH; eauto).
      rewrite created_app.
      destruct Hcase as [[Hr Hd]|(d & Hr & Hd & Hof & Hnone)].
      * rewrite Hd in *. rewrite app_nil_r in Hst1. rewrite Hst1 in HP.
        simpl. now apply PickedFrom_skip.
      * rewrite Hd in *. rewrite Hst1 in HP. simpl. unfold alone in Hnone.
        apply PickedFrom_take; auto.
Qed.

End SequentialFacts.

Section EngineRun.
Variable JSON_parse : jsstring -> option jsvalue.
Variable cfg : Config.
Variable o : Oracle.

Lemma generation_step others (msgs : list Message) w :
  exists aiText w2 evs,
    run o others
        (if env_set (OPENAI_API_KEY cfg)
         then generateWithOpenAI cfg msgs 1600
                (env_or (OPENAI_MODEL cfg) (lit "gpt-3.5-turbo"))
         else Ret (JStr [])) w = (inr aiText, w2)
    /\ log w2 = log w ++ evs
    /\ quiet evs
    /\ aiText = aiText_of evs
    /\ (others = alone -> store w2 = store w).
Proof.
  destruct (env_set (OPENAI_API_KEY cfg)) eqn:Hkey.
  - destruct (generateWithOpenAI_result cfg o others msgs 1600
                (env_or (OPENAI_MODEL cfg) (lit "gpt-3.5-turbo")) w)
      as (v & w2 & evs & Hrun & Hlog & _ & Hon).
    destruct (Hon Hkey) as [Hevs Hv].
    exists v, w2, evs. split; [exact Hrun|]. split; [exact Hlog|].
    assert (Hq : quiet evs).
    { rewrite Hevs. constructor; [reflexivity|constructor]. }
    split; [exact Hq|]. split.
    + rewrite Hevs. unfold aiText_of. cbn.
      destruct (chat_response o (tick w) _); exact Hv.
    + intros ->.
      assert (Hst : store w2 = replay evs (store w))
        by (eapply run_alone_store; eauto).
      apply quiet_events in Hq as (Hc & _ & Hm & _).
      rewrite replay_no_mutation, Hc, app_nil_r in Hst by assumption.
      exact Hst.
  - exists (JStr []), w, []. cbn. rewrite app_nil_r.
    repeat split; auto. constructor.
Qed.

Lemma engine_run others key cat name age target req w r w' :
  STORY_CATEGORIES key = Some cat ->
  run o others (generateCategoryStories JSON_parse cfg key name age target req) w
  = (r, w') ->
  let f := Doc.active_ai_in key in
  let existingCount := Doc.countDocuments f (others (tick w) (store w)) in
  let need := Z.max 0 (target - existingCount) in
  exists evs,
    log w' = log w ++ Ev (CountDocuments f) existingCount :: evs
    /\ ((need <= 0 /\ evs = [] /\ r = inr [])%Z
        \/ ((0 < need)%Z /\ quiet evs /\ (r = inr [] \/ r = inl TypeError))
        \/ ((0 < need)%Z
            /\ exists before latestCount after aiText,
                evs = before ++ Ev (CountDocuments f) latestCount :: after
                /\ quiet before
                /\ aiText_of before = JStr aiText
                /\ let parsed := parse_ai_text JSON_parse aiText name age need in
                   let remainingNeed := Z.max 0 (target - latestCount) in
                   parsed <> []
                   /\ ((remainingNeed <= 0 /\ after = [] /\ r = inr [])%Z
                       \/ ((0 < remainingNeed)%Z
                           /\ counts after = []
                           /\ no_mutation after
                           /\ Forall (fun ev => is_kind KSpawn ev = false) after
                           /\ r = inr (created after)
                           /\ Picked (story_of cat key)
                                (slice0 remainingNeed parsed) (created after)
                           /\ (others = alone ->
                               PickedFrom cat key (store w)
                                 (slice0 remainingNeed parsed) (created after)))))).
Proof.
  intros Hcat Hrun f existingCount need.
  unfold generateCategoryStories in Hrun. rewrite Hcat in Hrun.
  cbn [bind await run] in Hrun. unfold exec at 1 in Hrun.
  cbn [perform store with_store] in Hrun.
  fold f existingCount need in Hrun.
  destruct (Z.leb_spec need 0) as [Hsat|Hneed].
  { cbn in Hrun. injection Hrun as <- <-. exists []. cbn.
    split; [reflexivity|]. left. auto. }
  rewrite run_bind in Hrun.
  match type of Hrun with
  | context [run o others (if _ then generateWithOpenAI _ ?msgs _ _ else _) ?w1] =>
      destruct (generation_step others msgs w1)
        as (aiText & w2 & evsG & Hgen & HlG & HqG & Hai & HstG);
      rewrite Hgen in Hrun
  end.
  cbn [log ticked with_store] in HlG.
  rewrite run_bind in Hrun. unfold parse_phase in Hrun.
  assert (Hquiet_end :
            forall r0, (r0 = inr [] \/ r0 = inl TypeError) ->
                       (r0, w2) = (r, w') ->
                       exists evs,
                         log w' = log w ++ Ev (CountDocuments f) existingCount :: evs
                         /\ ((need <= 0 /\ evs = [] /\ r = inr [])%Z
                             \/ ((0 < need)%Z /\ quiet evs
                                 /\ (r = inr [] \/ r = inl TypeError))
                             \/ ((0 < need)%Z /\ False))).
  { intros r0 Hr0 Heq. injection Heq as <- <-. exists evsG.
    rewrite HlG, <- app_assoc. split; [reflexivity|]. right; left; auto. }
  assert (Hweaken :
            (exists evs,
                log w' = log w ++ Ev (CountDocuments f) existingCount :: evs
                /\ ((need <= 0 /\ evs = [] /\ r = inr [])%Z
                    \/ ((0 < need)%Z /\ quiet evs
                        /\ (r = inr [] \/ r = inl TypeError))
                    \/ ((0 < need)%Z /\ False))) ->
            exists evs,
              log w' = log w ++ Ev (CountDocuments f) existingCount :: evs
              /\ ((need <= 0 /\ evs = [] /\ r = inr [])%Z
                  \/ ((0 < need)%Z /\ quiet evs
                      /\ (r = inr [] \/ r = inl TypeError))
                  \/ ((0 < need)%Z
            /\ exists before latestCount after aiText,
                evs = before ++ Ev (CountDocuments f) latestCount :: after
                /\ quiet before
                /\ aiText_of before = JStr aiText
                /\ let parsed := parse_ai_text JSON_parse aiText name age need in
                   let remainingNeed := Z.max 0 (target - latestCount) in
                   parsed <> []
                   /\ ((remainingNeed <= 0 /\ after = [] /\ r = inr [])%Z
                       \/ ((0 < remainingNeed)%Z
                           /\ counts after = []
                           /\ no_mutation after
                           /\ Forall (fun ev => is_kind KSpawn ev = false) after
                           /\ r = inr (created after)
                           /\ Picked (story_of cat key)
                                (slice0 remainingNeed parsed) (created after)
                           /\ (others = alone ->
                               PickedFrom cat key (store w)
                                 (slice0 remainingNeed parsed) (created after))))))).
  { intros (evs & Hl & [H|[H|[_ []]]]); exists evs; (split; [exact Hl|]); tauto. }
  destruct aiText as [| b | n | s | items | fields].
  1: { cbn in Hrun. apply Hweaken. eapply Hquiet_end; [|exact Hrun]. auto. }
  1: { destruct b; cbn in Hrun; apply Hweaken; (eapply Hquiet_end; [|exact Hrun]); auto. }
  1: { cbn in Hrun. destruct (num_truthy n); cbn in Hrun; apply Hweaken;
       (eapply Hquiet_end; [|exact Hrun]); auto. }
  2: { cbn in Hrun. apply Hweaken. eapply Hquiet_end; [|exact Hrun]. auto. }
  2: { cbn in Hrun. apply Hweaken. eapply Hquiet_end; [|exact Hrun]. auto. }
  cbn [run] in Hrun.
  set (parsed := parse_ai_text JSON_parse s name age need) in *.
  destruct parsed as [|c0 parsed0] eqn:Hparsed.
  { cbn in Hrun. apply Hweaken. eapply Hquiet_end; [|exact Hrun]. auto. }
  cbn [length Nat.eqb bind await run] in Hrun. unfold exec at 1 in Hrun.
  cbn [perform store with_store] in Hrun. fold f in Hrun.
  set (latestCount := Doc.countDocuments f (others (tick w2) (store w2))) in *.
  set (remainingNeed := Z.max 0 (target - latestCount)) in *.
  destruct (Z.leb_spec remainingNeed 0) as [Hfull|Hroom].
  { cbn in Hrun. injection Hrun as <- <-.
    exists (evsG ++ [Ev (CountDocuments f) latestCount]). cbn.
    rewrite HlG, <- !app_assoc. split; [reflexivity|].
    right; right. split; [exact Hneed|].
    exists evsG, latestCount, [], s. split; [reflexivity|].
    split; [exact HqG|]. split; [now rewrite Hai|].
    fold need. fold parsed. rewrite Hparsed. cbv zeta. split; [discriminate|].
    left. auto. }
  pose proof Hrun as Hloop.
  apply save_loop_spec in Hloop as (evsS & HlS & HcS & HmS & HsS & Hr & HP).
  pose proof HlS as HlS0.
  cbn [log ticked with_store] in HlS.
  exists (evsG ++ Ev (CountDocuments f) latestCount :: evsS).
  rewrite HlS, HlG, <- !app_assoc. cbn. split; [reflexivity|].
  right; right. split; [exact Hneed|].
  exists evsG, latestCount, evsS, s. split; [reflexivity|].
  split; [exact HqG|]. split; [now rewrite Hai|].
  fold need. fold parsed. rewrite Hparsed. cbv zeta. split; [discriminate|].
  right. fold remainingNeed. repeat split; auto.
  intros Halone. rewrite Halone in *.
  eapply save_loop_alone in Hrun; [|exact HlS0].
  cbn [store ticked with_store] in Hrun. unfold alone in Hrun at 1.
  rewrite (HstG eq_refl) in Hrun. cbn [store ticked with_store] in Hrun.
  exact Hrun.
Qed.

End EngineRun.

(* ===================================================================== *)
(** * The replenishment engine *)
(* ===================================================================== *)

Section EngineProperties.

Variable JSON_parse : jsstring -> option jsvalue.
Variable cfg : Config.

Lemma quiet_kind_engine k : quiet_kind k = true -> engine_kind k = true.
Proof. destruct k; simpl; congruence. Qed.

Lemma save_one_uses cat key req i s :
  Uses engine_kind (save_one cfg cat key req i s).
Proof.
  unfold save_one. apply Uses_try_catch; [|intros; constructor].
  apply Uses_bind; [now apply Uses_await|intros [dup|]]; [constructor|].
  apply Uses_bind.
  - eapply Uses_weaken; [apply quiet_kind_engine|apply audio_for_uses].
  - intros a. apply Uses_bind; [now apply Uses_await_or_throw|intros; constructor].
Qed.

Lemma save_loop_uses cat key req toSave :
  forall i saved, Uses engine_kind (save_loop cfg cat key req toSave i saved).
Proof.
  induction toSave as [|s rest IH]; intros i saved; cbn [save_loop];
    [constructor|].
  apply Uses_bind; [apply save_one_uses|intros r; apply IH].
Qed.

Lemma generateCategoryStories_uses key name age target req :
  Uses engine_kind
       (generateCategoryStories JSON_parse cfg key name age target req).
Proof.
  unfold generateCategoryStories.
  destruct (STORY_CATEGORIES key) as [cat|]; [|constructor].
  apply Uses_bind; [now apply Uses_await|intros existingCount].
  destruct (_ <=? 0)%Z; [constructor|].
  apply Uses_bind.
  { destruct (env_set _); [|constructor].
    eapply Uses_weaken; [|apply generateWithOpenAI_uses].
    intros k; destruct k; simpl; congruence. }
  intros aiText. apply Uses_bind.
  { unfold parse_phase. destruct aiText; try constructor;
      destruct (Json.truthy _); constructor. }
  intros parsed. destruct (_ =? 0)%nat; [constructor|].
  apply Uses_bind; [now apply Uses_await|intros latestCount].
  destruct (_ <=? 0)%Z; [constructor|]. apply save_loop_uses.
Qed.

Lemma engine_kind_no_mutation evs :
  Forall (fun ev => engine_kind (ev_kind ev) = true) evs -> no_mutation evs.
Proof.
  unfold no_mutation. apply Forall_impl. intros [X e r] H.
  destruct e; try reflexivity; discriminate H.
Qed.

Lemma Picked_created cat key cs ds :
  Picked (story_of cat key) cs ds ->
  Forall (fun d => Doc.isActive d = true /\ Doc.isAIGenerated d = true
                   /\ Doc.generatedForCollection d = Some key) ds.
Proof.
  induction 1 as [|c cs ds _ IH|c cs d ds Hof _ IH]; auto.
  constructor; [|exact IH].
  destruct Hof as (id & audio & pending & -> & _). simpl. auto.
Qed.

Lemma countDocuments_app q a b :
  Doc.countDocuments q (a ++ b)
  = (Doc.countDocuments q a + Doc.countDocuments q b)%Z.
Proof.
  unfold Doc.countDocuments. rewrite filter_app, length_app. lia.
Qed.

Lemma countDocuments_all q l :
  Forall (fun d => Doc.matches q d = true) l ->
  Doc.countDocuments q l = Z.of_nat (length l).
Proof.
  unfold Doc.countDocuments. intros H. f_equal.
  induction H as [|d l Hd _ IH]; simpl; [reflexivity|].
  rewrite Hd. simpl. now rewrite IH.
Qed.

Lemma created_match_filter key ds :
  Forall (fun d => Doc.isActive d = true /\ Doc.isAIGenerated d = true
                   /\ Doc.generatedForCollection d = Some key) ds ->
  Forall (fun d => Doc.matches (Doc.active_ai_in key) d = true) ds.
Proof.
  apply Forall_impl. intros d (Ha & Hai & Hk).
  unfold Doc.matches, Doc.active_ai_in. simpl.
  rewrite Hk, Ha, Hai, str_eqb_refl. reflexivity.
Qed.

Lemma quiet_no_mutation evs : quiet evs -> no_mutation evs.
Proof. intros H. now apply quiet_events in H. Qed.

End EngineProperties.

(** C9: replenish writes to the store by insertion only.  Whatever the
    providers answer and whatever other requests do meanwhile, none of its
    operations is a save or a delete; run without interference, it leaves
    the store as it was with the records it created appended, so every
    record that existed before is still there, unchanged, at its place. *)
Theorem C9_replenish_only_inserts :
  forall (JSON_parse : jsstring -> option jsvalue) (cfg : Config) (o : Oracle)
         (others : Interference) (key name : jsstring) (age target : Z)
         (req : option Request) (w : World),
    let call := generateCategoryStories JSON_parse cfg key name age target req in
    (exists evs,
        log (snd (run o others call w)) = log w ++ evs
        /\ no_mutation evs)
    /\ (exists evs,
           log (snd (run o alone call w)) = log w ++ evs
           /\ store (snd (run o alone call w)) = store w ++ created evs)
    /\ (forall i d,
           nth_error (store w) i = Some d ->
           nth_error (store (snd (run o alone call w))) i = Some d).
Proof.
  intros JSON_parse cfg o others key name age target req w call.
  assert (Hany : forall others',
             exists evs,
               log (snd (run o others' call w)) = log w ++ evs
               /\ no_mutation evs).
  { intros others'. destruct (run o others' call w) as [r w'] eqn:Hrun.
    pose proof Hrun as Hev. apply run_events in Hev as (evs & Hl & _).
    exists evs. split; [exact Hl|].
    apply engine_kind_no_mutation.
    eapply run_uses; [apply generateCategoryStories_uses|exact Hrun|exact Hl]. }
  assert (Hseq : exists evs,
             log (snd (run o alone call w)) = log w ++ evs
             /\ store (snd (run o alone call w)) = store w ++ created evs).
  { destruct (Hany alone) as (evs & Hl & Hm). exists evs. split; [exact Hl|].
    destruct (run o alone call w) as [r w'] eqn:Hrun. simpl in *.
    rewrite <- (replay_no_mutation (store w) Hm).
    eapply run_alone_store; eauto. }
  split; [apply Hany|]. split; [exact Hseq|].
  intros i d Hd. destruct Hseq as (evs & _ & ->).
  rewrite nth_error_app1; [exact Hd|].
  apply nth_error_Some. congruence.
Qed.

(** C2: when the collection already holds [targetTotal] active generated
    records, replenish returns the empty list after its one count: the
    log gains that count and nothing else, so no provider is called and
    nothing is written. *)
Theorem C2_replenish_noop_when_satisfied :
  forall (JSON_parse : jsstring -> option jsvalue) (cfg : Config) (o : Oracle)
         (others : Interference) (key name : jsstring) (cat : Category)
         (age target : Z) (req : option Request) (w : World),
    STORY_CATEGORIES key = Some (Own cat) ->
    let existingCount :=
      Doc.countDocuments (Doc.active_ai_in key) (others (tick w) (store w)) in
    (target <= existingCount)%Z ->
    exists w',
      run o others
          (generateCategoryStories JSON_parse cfg key name age target req) w
      = (inr [], w')
      /\ log w' = log w ++ [Ev (CountDocuments (Doc.active_ai_in key)) existingCount]
      /\ store w' = others (tick w) (store w)
      /\ next_id w' = next_id w
      /\ voice_env w' = voice_env w.
Proof.
  intros JSON_parse cfg o others key name cat age target req w Hcat
         existingCount Hsat.
  unfold generateCategoryStories. rewrite Hcat.
  cbn [bind await run]. unfold exec. cbn [perform store with_store].
  fold existingCount.
  assert (Hneed : (Z.max 0 (target - existingCount) <=? 0)%Z = true)
    by (apply Z.leb_le; lia).
  rewrite Hneed. cbn. eexists. repeat split.
Qed.

(** C1: a call of replenish for a known collection first counts the
    active generated records ([existingCount]); after that it only looks
    up and inserts.  When [existingCount <= targetTotal] it inserts at most
    [targetTotal - existingCount] records, each of them active, generated
    and of the collection, so that without interference the count grows by
    exactly the number inserted.  If anything is inserted at all, a second
    count ([latestCount]) was taken after the provider's answer and before
    the first insertion, and the inserted records are, in order, candidates
    among the first [max(0, targetTotal - latestCount)] parsed ones; when
    that number is zero the call ends there with the empty list. *)
Theorem C1_replenish_bounded_by_shortfall :
  forall (JSON_parse : jsstring -> option jsvalue) (cfg : Config) (o : Oracle)
         (others : Interference) (key name : jsstring) (cat : Category)
         (age target : Z) (req : option Request) (w : World)
         (r : exn + list Doc.Story) (w' : World),
    STORY_CATEGORIES key = Some (Own cat) ->
    run o others
        (generateCategoryStories JSON_parse cfg key name age target req) w
    = (r, w') ->
    let f := Doc.active_ai_in key in
    let existingCount := Doc.countDocuments f (others (tick w) (store w)) in
    exists evs,
      log w' = log w ++ Ev (CountDocuments f) existingCount :: evs
      /\ no_mutation evs
      /\ Forall (fun d => Doc.isActive d = true /\ Doc.isAIGenerated d = true
                          /\ Doc.generatedForCollection d = Some key)
                (created evs)
      /\ ((existingCount <= target)%Z ->
          (Z.of_nat (length (created evs)) <= target - existingCount)%Z)
      /\ (others = alone ->
          store w' = store w ++ created evs
          /\ Doc.countDocuments f (store w')
             = (existingCount + Z.of_nat (length (created evs)))%Z)
      /\ ((created evs = [] /\ counts evs = []
           /\ (r = inr [] \/ r = inl TypeError))
          \/ exists before latestCount after aiText,
               evs = before ++ Ev (CountDocuments f) latestCount :: after
               /\ created before = [] /\ counts before = []
               /\ counts after = []
               /\ aiText_of before = JStr aiText
               /\ let parsed :=
                    parse_ai_text JSON_parse aiText name age
                      (Z.max 0 (target - existingCount)) in
                  let remainingNeed := Z.max 0 (target - latestCount) in
                  (Z.of_nat (length (created after)) <= remainingNeed)%Z
                  /\ Picked (story_of cat key)
                            (slice0 remainingNeed parsed) (created after)
                  /\ r = inr (created after)
                  /\ (remainingNeed = 0%Z -> after = [])).
Proof.
  intros JSON_parse cfg o others key name cat age target req w r w' Hcat Hrun
         f existingCount.
  pose proof (engine_run JSON_parse cfg o others key name age target req w
                Hcat Hrun) as Heng.
  cbv zeta in Heng. fold f existingCount in Heng.
  set (need := Z.max 0 (target - existingCount)) in *.
  destruct Heng as (evs & Hlog & Hcases).
  assert (Hmain :
            no_mutation evs
            /\ Forall (fun d => Doc.isActive d = true /\ Doc.isAIGenerated d = true
                                /\ Doc.generatedForCollection d = Some key)
                      (created evs)
            /\ ((existingCount <= target)%Z ->
                (Z.of_nat (length (created evs)) <= target - existingCount)%Z)
            /\ ((created evs = [] /\ counts evs = []
                 /\ (r = inr [] \/ r = inl TypeError))
                \/ exists before latestCount after aiText,
                     evs = before ++ Ev (CountDocuments f) latestCount :: after
                     /\ created before = [] /\ counts before = []
                     /\ counts after = []
                     /\ aiText_of before = JStr aiText
                     /\ let parsed :=
                          parse_ai_text JSON_parse aiText name age need in
                        let remainingNeed := Z.max 0 (target - latestCount) in
                        (Z.of_nat (length (created after)) <= remainingNeed)%Z
                        /\ Picked (story_of cat key)
                                  (slice0 remainingNeed parsed) (created after)
                        /\ r = inr (created after)
                        /\ (remainingNeed = 0%Z -> after = []))).
  { destruct Hcases as [(Hsat & -> & Hr)|[(Hneed & Hq & Hr)|(Hneed & Hrec)]].
    - split; [constructor|]. split; [constructor|]. split; [simpl; lia|].
      left. auto.
    - pose proof Hq as Hq'. apply quiet_events in Hq' as (Hc & Hn & Hm & _).
      split; [exact Hm|]. rewrite Hc. split; [constructor|].
      split; [simpl; lia|]. left. auto.
    - destruct Hrec as (before & latestCount & after & aiText & -> & Hq & Hai & Hrest).
      cbv zeta in Hrest. destruct Hrest as (Hnonempty & Hsave).
      pose proof Hq as Hq'. apply quiet_events in Hq' as (Hc & Hn & Hm & _).
      set (parsed := parse_ai_text JSON_parse aiText name age need) in *.
      set (remainingNeed := Z.max 0 (target - latestCount)) in *.
      assert (Hparsed : (Z.of_nat (length parsed) <= need)%Z)
        by (apply parse_ai_text_length; exact Hneed).
      rewrite created_app, Hc. cbn [created flat_map created_of app].
      fold (created after).
      destruct Hsave as [(Hfull & -> & Hr)|(Hroom & Hca & Hma & _ & Hr & HP & _)].
      + split.
        { apply Forall_app. split; [exact Hm|].
          constructor; [reflexivity|constructor]. }
        split; [constructor|]. split; [simpl; lia|].
        right. exists before, latestCount, [], aiText.
        split; [reflexivity|]. split; [exact Hc|]. split; [exact Hn|].
        split; [reflexivity|]. split; [exact Hai|].
        cbv zeta. fold parsed remainingNeed.
        assert (remainingNeed = 0%Z) as -> by lia.
        split; [simpl; lia|]. split; [constructor|]. auto.
      + pose proof (Picked_length HP) as Hlen.
        pose proof (slice0_length_le remainingNeed parsed) as Hsl.
        assert (Hbound : (Z.of_nat (length (slice0 remainingNeed parsed))
                          <= remainingNeed)%Z)
          by (apply slice0_length_bound; lia).
        split.
        { apply Forall_app. split; [exact Hm|].
          constructor; [reflexivity|exact Hma]. }
        split; [eapply Picked_created; exact HP|].
        split; [unfold need in Hparsed; lia|].
        right. exists before, latestCount, after, aiText.
        split; [reflexivity|]. split; [exact Hc|]. split; [exact Hn|].
        split; [exact Hca|]. split; [exact Hai|].
        cbv zeta. fold parsed remainingNeed.
        split; [lia|]. split; [exact HP|]. split; [exact Hr|]. lia. }
  destruct Hmain as (Hm & Hall & Hbound & Hrecount).
  exists evs. split; [exact Hlog|]. split; [exact Hm|]. split; [exact Hall|].
  split; [exact Hbound|]. split; [|exact Hrecount].
  intros Halone. rewrite Halone in Hrun.
  assert (Hst : store w' = replay (Ev (CountDocuments f) existingCount :: evs)
                                  (store w))
    by (eapply run_alone_store; eauto).
  rewrite replay_no_mutation in Hst
    by (unfold no_mutation; constructor; [reflexivity|exact Hm]).
  cbn [created flat_map created_of app] in Hst. fold (created evs) in Hst.
  split; [exact Hst|].
  rewrite Hst, countDocuments_app.
  rewrite (@countDocuments_all f (created evs) (created_match_filter Hall)).
  unfold existingCount. rewrite Halone. reflexivity.
Qed.

(* ===================================================================== *)
(** * Duplicate titles *)
(* ===================================================================== *)

Section TitleFacts.

Lemma NoDup_snoc {A} (l : list A) (x : A) :
  NoDup l -> ~ In x l -> NoDup (l ++ [x]).
Proof.
  induction 1 as [|y l Hy Hl IH]; intros Hx; simpl.
  - constructor; [tauto|constructor].
  - constructor.
    + rewrite in_app_iff. simpl. intros [H|[H|[]]]; [tauto|].
      apply Hx. left. symmetry. exact H.
    + apply IH. intros H. apply Hx. now right.
Qed.

Lemma slot_titles_app key a b :
  slot_titles key (a ++ b) = slot_titles key a ++ slot_titles key b.
Proof. unfold slot_titles. now rewrite filter_app, map_app. Qed.

(** Appending a record that was looked up and not found keeps the titles
    of every collection distinct. *)
Lemma titles_unique_snoc cat key key' c d st :
  story_of cat key c d ->
  Doc.findOne (dup_filter key c) st = None ->
  titles_unique key' st ->
  titles_unique key' (st ++ [d]).
Proof.
  intros (id & audio & pending & -> & _) Hnone Huniq.
  unfold titles_unique. rewrite slot_titles_app.
  unfold slot_titles at 2. cbn [filter in_slot Doc.isActive Doc.new_story
                                storyData_of Doc.d_isActive
                                Doc.generatedForCollection
                                Doc.d_generatedForCollection andb].
  destruct (str_eqb key key') eqn:Hk; cbn [map]; [|now rewrite app_nil_r].
  apply str_eqb_eq in Hk. subst key'.
  apply NoDup_snoc; [exact Huniq|].
  unfold slot_titles. rewrite in_map_iff. intros (x & Hx & Hin).
  apply filter_In in Hin as [Hin Hslot].
  unfold Doc.findOne in Hnone.
  pose proof (find_none _ _ Hnone x Hin) as Hmiss.
  unfold in_slot in Hslot. apply andb_true_iff in Hslot as [Hact Hcoll].
  unfold Doc.matches, dup_filter in Hmiss. cbn in Hmiss.
  cbn in Hx. rewrite Hx, str_eqb_refl, Hact in Hmiss.
  destruct (Doc.generatedForCollection x); [|discriminate].
  rewrite Hcoll in Hmiss. discriminate.
Qed.

Lemma PickedFrom_unique cat key key' st cs ds :
  PickedFrom cat key st cs ds ->
  titles_unique key' st ->
  titles_unique key' (st ++ ds).
Proof.
  induction 1 as [st|st c cs ds _ IH|st c cs d ds Hof Hnone _ IH]; intros Hu.
  - now rewrite app_nil_r.
  - now apply IH.
  - replace (st ++ d :: ds) with ((st ++ [d]) ++ ds)
      by (rewrite <- app_assoc; reflexivity).
    apply IH. eapply titles_unique_snoc; eauto.
Qed.

End TitleFacts.

Section SequentialEngine.

Variable JSON_parse : jsstring -> option jsvalue.
Variable cfg : Config.
Variable o : Oracle.

(** One call, alone: what it stores was picked, in order, from candidates
    each looked up in the store of its moment and not found there. *)
Lemma replenish_alone_picks key cat name age target req w :
  STORY_CATEGORIES key = Some (Own cat) ->
  exists toSave docs,
    store (snd (run o alone
                  (generateCategoryStories JSON_parse cfg key name age target req)
                  w))
    = store w ++ docs
    /\ PickedFrom cat key (store w) toSave docs.
Proof.
  intros Hcat.
  destruct (run o alone
              (generateCategoryStories JSON_parse cfg key name age target req) w)
    as [r w'] eqn:Hrun.
  destruct (engine_run JSON_parse cfg o alone key name age target req w Hcat Hrun)
    as (evs & Hlog & Hcases).
  assert (Hst : store w'
                = replay (Ev (CountDocuments (Doc.active_ai_in key))
                             (Doc.countDocuments (Doc.active_ai_in key)
                                (alone (tick w) (store w))) :: evs)
                         (store w))
    by (eapply run_alone_store; eauto).
  cbn [snd].
  destruct Hcases as [(_ & -> & _)|[(_ & Hq & _)|(_ & Hrec)]].
  - exists [], []. cbn in Hst. rewrite app_nil_r. split; [exact Hst|constructor].
  - exists [], []. rewrite app_nil_r. split; [|constructor].
    pose proof Hq as Hq'. apply quiet_events in Hq' as (Hc & _ & Hm & _).
    rewrite replay_no_mutation in Hst
      by (unfold no_mutation; constructor; [reflexivity|exact Hm]).
    cbn [created flat_map created_of app] in Hst. fold (created evs) in Hst.
    now rewrite Hc, app_nil_r in Hst.
  - destruct Hrec as (before & latestCount & after & aiText & -> & Hq & _ & Hrest).
    cbv zeta in Hrest. destruct Hrest as (_ & Hsave).
    pose proof Hq as Hq'. apply quiet_events in Hq' as (Hc & _ & Hm & _).
    destruct Hsave as [(_ & -> & _)|(_ & _ & Hma & _ & _ & _ & HPF)].
    + exists [], []. rewrite app_nil_r. split; [|constructor].
      rewrite replay_no_mutation in Hst.
      * cbn [created flat_map created_of app] in Hst.
        fold (created (before ++ [Ev (CountDocuments (Doc.active_ai_in key))
                                     latestCount])) in Hst.
        rewrite created_app, Hc in Hst. cbn in Hst. now rewrite app_nil_r in Hst.
      * unfold no_mutation. constructor; [reflexivity|].
        apply Forall_app. split; [exact Hm|].
        constructor; [reflexivity|constructor].
    + eexists _, (created after). split; [|exact (HPF eq_refl)].
      rewrite replay_no_mutation in Hst.
      * cbn [created flat_map created_of app] in Hst.
        fold (created (before ++ Ev (CountDocuments (Doc.active_ai_in key))
                                    latestCount :: after)) in Hst.
        rewrite created_app, Hc in Hst.
        cbn [created flat_map created_of app] in Hst. exact Hst.
      * unfold no_mutation. constructor; [reflexivity|].
        apply Forall_app. split; [exact Hm|].
        constructor; [reflexivity|exact Hma].
Qed.

Lemma replenish_alone_keeps_unique key cat key' name age target req w :
  STORY_CATEGORIES key = Some (Own cat) ->
  titles_unique key' (store w) ->
  titles_unique key'
    (store (snd (run o alone
                   (generateCategoryStories JSON_parse cfg key name age target req)
                   w))).
Proof.
  intros Hcat Hu.
  destruct (replenish_alone_picks key name age target req w Hcat)
    as (toSave & docs & -> & HP).
  eapply PickedFrom_unique; eauto.
Qed.

End SequentialEngine.

(** C3 (as the code has it): run without another request writing in
    between, replenish stores a candidate only after looking up its title
    among the active records of the collection in the store as it then
    stands and finding none; hence two calls issued one after the other,
    whatever their targets, leave the titles of the active records of a
    collection distinct if they were so before. *)
Theorem C3_no_duplicate_titles_without_interference :
  forall (JSON_parse : jsstring -> option jsvalue) (cfg : Config) (o : Oracle)
         (key key' : jsstring) (cat : Category)
         (name1 name2 : jsstring) (age1 age2 target1 target2 : Z)
         (req1 req2 : option Request) (w : World),
    STORY_CATEGORIES key = Some (Own cat) ->
    titles_unique key' (store w) ->
    let first :=
      run o alone
          (generateCategoryStories JSON_parse cfg key name1 age1 target1 req1) w in
    let second :=
      run o alone
          (generateCategoryStories JSON_parse cfg key name2 age2 target2 req2)
          (snd first) in
    (exists toSave docs,
        store (snd first) = store w ++ docs
        /\ PickedFrom cat key (store w) toSave docs)
    /\ titles_unique key' (store (snd first))
    /\ titles_unique key' (store (snd second)).
Proof.
  intros JSON_parse cfg o key key' cat name1 name2 age1 age2 target1 target2
         req1 req2 w Hcat Hu first second.
  split; [now apply replenish_alone_picks|].
  assert (H1 : titles_unique key' (store (snd first)))
    by (eapply replenish_alone_keeps_unique; eauto).
  split; [exact H1|].
  eapply replenish_alone_keeps_unique; eauto.
Qed.

(* ===================================================================== *)
(** * A concrete deployment *)
(* ===================================================================== *)

Example demo_call_alone :
  map Doc.title (store (snd (run demo_oracle alone demo_call empty_world)))
  = [lit "Moon"].
Proof. vm_compute. reflexivity. Qed.

(** C3, as stated, fails: two calls for [learn-stories] with target 1
    whose operations alternate both find the collection empty at their
    second count and both find no record titled [Moon], so both insert
    one: the store ends with two active records of that title. *)
Lemma C3_counterexample_interleaved_calls :
  option_map (@length Doc.Story) (returned (fst (fst after_turns))) = Some 1%nat
  /\ option_map (@length Doc.Story) (returned (snd (fst after_turns))) = Some 1%nat
  /\ slot_titles (lit "learn-stories") (store (snd after_turns))
     = [lit "Moon"; lit "Moon"]
  /\ ~ titles_unique (lit "learn-stories") (store (snd after_turns)).
Proof.
  assert (E : slot_titles (lit "learn-stories") (store (snd after_turns))
              = [lit "Moon"; lit "Moon"]) by (vm_compute; reflexivity).
  split; [vm_compute; reflexivity|]. split; [vm_compute; reflexivity|].
  split; [exact E|].
  unfold titles_unique. rewrite E. intros H.
  inversion H as [|x l Hin _]. apply Hin. left. reflexivity.
Qed.

Lemma C3_witness :
  STORY_CATEGORIES (lit "learn-stories") = Some (Own learn_stories)
  /\ titles_unique (lit "learn-stories") (store empty_world)
  /\ titles_unique (lit "learn-stories")
       (store (snd (run demo_oracle alone demo_call
                      (snd (run demo_oracle alone demo_call empty_world))))).
Proof.
  assert (Hcat : STORY_CATEGORIES (lit "learn-stories") = Some (Own learn_stories))
    by reflexivity.
  assert (Hu : titles_unique (lit "learn-stories") (store empty_world))
    by constructor.
  split; [exact Hcat|]. split; [exact Hu|].
  exact (proj2 (proj2 (@C3_no_duplicate_titles_without_interference
                         no_json demo_cfg demo_oracle
                         (lit "learn-stories") (lit "learn-stories") learn_stories
                         (lit "friend") (lit "friend") 5%Z 5%Z 1%Z 1%Z None None
                         empty_world Hcat Hu))).
Defined.

Lemma C1_witness :
  let key := lit "learn-stories" in
  let out := run demo_oracle alone demo_call empty_world in
  STORY_CATEGORIES key = Some (Own learn_stories)
  /\ (Doc.countDocuments (Doc.active_ai_in key) (store empty_world) <= 1)%Z
  /\ exists evs,
       log (snd out)
       = log empty_world ++ Ev (CountDocuments (Doc.active_ai_in key)) 0%Z :: evs
       /\ no_mutation evs
       /\ (Z.of_nat (length (created evs)) <= 1 - 0)%Z
       /\ store (snd out) = store empty_world ++ created evs.
Proof.
  intros key out.
  assert (Hcat : STORY_CATEGORIES key = Some (Own learn_stories)) by reflexivity.
  assert (Hle : (Doc.countDocuments (Doc.active_ai_in key) (store empty_world)
                 <= 1)%Z) by (vm_compute; discriminate).
  split; [exact Hcat|]. split; [exact Hle|].
  destruct (@C1_replenish_bounded_by_shortfall
              no_json demo_cfg demo_oracle alone key (lit "friend") learn_stories
              5 1 None empty_world (fst out) (snd out) Hcat
              (surjective_pairing out))
    as (evs & Hlog & Hm & _ & Hb & Hal & _).
  exists evs. split; [exact Hlog|]. split; [exact Hm|].
  split; [exact (Hb Hle)|]. exact (proj1 (Hal eq_refl)).
Defined.

Lemma C2_witness :
  let key := lit "learn-stories" in
  let w := snd (run demo_oracle alone demo_call empty_world) in
  STORY_CATEGORIES key = Some (Own learn_stories)
  /\ (1 <= Doc.countDocuments (Doc.active_ai_in key) (alone (tick w) (store w)))%Z
  /\ exists w',
       run demo_oracle alone demo_call w = (inr [], w')
       /\ log w' = log w ++ [Ev (CountDocuments (Doc.active_ai_in key)) 1%Z]
       /\ store w' = store w.
Proof.
  intros key w.
  assert (Hcat : STORY_CATEGORIES key = Some (Own learn_stories)) by reflexivity.
  assert (Hle : (1 <= Doc.countDocuments (Doc.active_ai_in key)
                        (alone (tick w) (store w)))%Z)
    by (vm_compute; discriminate).
  split; [exact Hcat|]. split; [exact Hle|].
  destruct (@C2_replenish_noop_when_satisfied
              no_json demo_cfg demo_oracle alone key (lit "friend") learn_stories
              5 1 None w Hcat Hle)
    as (w' & Hrun & Hlog & Hst & _).
  exists w'. split; [exact Hrun|]. split; [exact Hlog|]. exact Hst.
Defined.

(* ===================================================================== *)
(** * The consumption hook *)
(* ===================================================================== *)

Lemma update_nil id st : Doc.update id [] st = st.
Proof.
  unfold Doc.update. induction st as [|s st IH]; cbn [map]; [reflexivity|].
  rewrite IH. destruct (Nat.eqb (Doc._id s) id); reflexivity.
Qed.

Example story_validators :
  Doc.valid kind_fox = true /\ Doc.valid moon_story = true
  /\ Doc.valid legacy_story = false.
Proof. repeat split. Qed.

Example child_validators :
  Hook.valid_child {| Hook.name := lit "Mia"; Hook.age := 5 |} = true
  /\ Hook.valid_child {| Hook.name := lit "Mia"; Hook.age := 0 |} = false
  /\ Hook.valid_child {| Hook.name := lit "Mia"; Hook.age := 13 |} = false
  /\ Hook.valid_child {| Hook.name := []; Hook.age := 5 |} = false
  /\ Hook.counts_time (Some 90%Z) = Some 90%Z
  /\ Hook.counts_time (Some 0%Z) = None
  /\ Hook.counts_time (Some (-5)%Z) = None
  /\ Hook.counts_time None = None.
Proof. repeat split. Qed.

(** A record that [create] accepted passes the validators that [save]
    runs: it can always be saved again. *)
Lemma created_stories_are_valid id d :
  Doc.validate d = true -> Doc.valid (Doc.new_story id d) = true.
Proof.
  unfold Doc.validate, Doc.valid, Doc.new_story, Doc.one_of.
  cbn [Doc.title Doc.description Doc.content Doc.category Doc.theme
       Doc.generatedForCollection Doc.ageRange Doc.duration].
  intros H.
  repeat (apply andb_true_iff in H as [H ?]).
  destruct (Doc.d_category d) as [c|]; [|discriminate].
  destruct (Doc.d_theme d) as [t|]; [|discriminate].
  cbn [Doc.or_default].
  repeat (apply andb_true_iff; split); try assumption;
    unfold Doc.between in *;
    repeat match goal with
           | Hb : (_ && _)%bool = true |- _ => apply andb_true_iff in Hb as [? ?]
           end; assumption.
Qed.

Lemma valid_deactivated s :
  Doc.valid (Doc.apply_change (Doc.SetIsActive false) s) = Doc.valid s.
Proof. reflexivity. Qed.

Section HookFacts.

Variable o : Oracle.

(** routes/stories.js, a generated story of a collection that passes the
    schema: it is saved inactive and one replenishment with target 1 is
    started, not awaited, for the collection, the name [friend] and the age
    [max(3, ageRange.min)]. *)
Lemma complete_story_generated w id s collection :
  Doc.findOne [Doc.IdIs id] (store w) = Some s ->
  Doc.isActive s = true ->
  Doc.valid s = true ->
  Doc.isAIGenerated s = true ->
  Hook.collection_of s = Some collection ->
  exists w',
    run o alone (Hook.complete_story id) w = (inr Hook.Completed, w')
    /\ log w'
       = log w ++ [Ev (FindOne [Doc.IdIs id]) (Some s);
                   Ev (Save (Doc._id s) []) tt;
                   Ev (Save (Doc._id s) [Doc.SetIsActive false]) tt;
                   Ev (Spawn {| r_categoryKey := collection;
                                r_childName := lit "friend";
                                r_childAge := Z.max 3 (min (Doc.ageRange s));
                                r_targetTotal := 1 |}) tt]
    /\ store w' = Doc.update (Doc._id s) [Doc.SetIsActive false] (store w).
Proof.
  intros Hfind Hact Hvalid Hai Hcoll.
  unfold Hook.complete_story. cbn [bind await run try_catch]. unfold exec at 1.
  cbn [perform store with_store].
  change (alone (tick w) (store w)) with (store w). rewrite Hfind.
  cbn [ticked]. rewrite Hact. cbn [negb].
  unfold Hook.save at 1.
  cbn [Hook.persisted Hook.bump_completions Hook.hydrate Hook.modified].
  rewrite Hvalid. cbn [negb bind await try_catch run].
  rewrite Hai, Hcoll. unfold Hook.save.
  cbn [Hook.persisted Hook.deactivate Hook.modified app].
  rewrite valid_deactivated, Hvalid. cbn.
  eexists. split; [reflexivity|]. cbn.
  split; [rewrite <- !app_assoc; reflexivity|].
  pose proof (update_nil (Doc._id s) (store w)) as E.
  unfold Doc.update in E; cbn in E. unfold alone; cbn. rewrite E. reflexivity.
Qed.

Lemma other_branch s :
  Doc.isAIGenerated s = false \/ Hook.collection_of s = None ->
  match Doc.isAIGenerated s, Hook.collection_of s with
  | true, Some _ => False
  | _, _ => True
  end.
Proof.
  intros [-> | ->]; [exact I|]. destruct (Doc.isAIGenerated s); exact I.
Qed.

(** routes/stories.js, any other active story that passes the schema: the
    only write is a save that carries no schema path, and nothing is
    started. *)
Lemma complete_story_other w id s :
  Doc.findOne [Doc.IdIs id] (store w) = Some s ->
  Doc.isActive s = true ->
  Doc.valid s = true ->
  Doc.isAIGenerated s = false \/ Hook.collection_of s = None ->
  exists w',
    run o alone (Hook.complete_story id) w = (inr Hook.Completed, w')
    /\ log w' = log w ++ [Ev (FindOne [Doc.IdIs id]) (Some s);
                          Ev (Save (Doc._id s) []) tt]
    /\ store w' = store w.
Proof.
  intros Hfind Hact Hvalid Hother. apply other_branch in Hother.
  unfold Hook.complete_story. cbn [bind await run try_catch]. unfold exec at 1.
  cbn [perform store with_store].
  change (alone (tick w) (store w)) with (store w). rewrite Hfind.
  cbn [ticked]. rewrite Hact. cbn [negb].
  unfold Hook.save at 1.
  cbn [Hook.persisted Hook.bump_completions Hook.hydrate Hook.modified].
  rewrite Hvalid. cbn [negb bind await try_catch run].
  pose proof (update_nil (Doc._id s) (store w)) as E.
  unfold Doc.update in E; cbn in E.
  destruct (Doc.isAIGenerated s); destruct (Hook.collection_of s);
    try contradiction; cbn;
    (eexists; split; [reflexivity|]; cbn;
     split; [rewrite <- !app_assoc; reflexivity|];
     unfold alone; cbn; rewrite E; reflexivity).
Qed.

(** routes/stories.js, an active story that breaks the schema: the first
    save is rejected before anything is written, the answer is 500, the
    story stays as it is and nothing is started. *)
Lemma complete_story_rejected others w id s :
  Doc.findOne [Doc.IdIs id] (others (tick w) (store w)) = Some s ->
  Doc.isActive s = true ->
  Doc.valid s = false ->
  exists w',
    run o others (Hook.complete_story id) w = (inr Hook.ServerError, w')
    /\ log w' = log w ++ [Ev (FindOne [Doc.IdIs id]) (Some s)]
    /\ store w' = others (tick w) (store w).
Proof.
  intros Hfind Hact Hvalid.
  unfold Hook.complete_story. cbn [bind await run try_catch]. unfold exec at 1.
  cbn [perform store with_store]. rewrite Hfind.
  cbn [ticked]. rewrite Hact. cbn [negb].
  unfold Hook.save at 1.
  cbn [Hook.persisted Hook.bump_completions Hook.hydrate Hook.modified].
  rewrite Hvalid. cbn.
  eexists. split; [reflexivity|]. cbn. split; reflexivity.
Qed.

(** routes/child.js, a generated story of a collection: once the child's
    play time, if the request counts any, is saved, the story is deleted and
    one replenishment with target 1 is started for the collection, with the
    child's name and age. *)
Lemma complete_for_child_generated child timeSpent w id s collection :
  Doc.findOne [Doc.IdIs id; Doc.ActiveIs true] (store w) = Some s ->
  Hook.counts_time timeSpent = None \/ Hook.valid_child child = true ->
  Doc.isAIGenerated s = true ->
  Hook.collection_of s = Some collection ->
  exists w',
    run o alone (Hook.complete_for_child child timeSpent id) w
    = (inr Hook.Completed, w')
    /\ log w'
       = log w ++ Ev (FindOne [Doc.IdIs id; Doc.ActiveIs true]) (Some s)
         :: child_events timeSpent
         ++ [Ev (DeleteOne (Doc._id s)) tt;
             Ev (Spawn {| r_categoryKey := collection;
                          r_childName :=
                            or_else (Hook.name child) (lit "friend");
                          r_childAge :=
                            if (Hook.age child =? 0)%Z then 5
                            else Hook.age child;
                          r_targetTotal := 1 |}) tt]
    /\ store w' = Doc.deleteOne (Doc._id s) (store w).
Proof.
  intros Hfind Hchild Hai Hcoll.
  unfold Hook.complete_for_child. cbn [bind await run try_catch]. unfold exec at 1.
  cbn [perform store with_store].
  change (alone (tick w) (store w)) with (store w). rewrite Hfind.
  cbn [ticked]. rewrite Hai, Hcoll.
  unfold Hook.update_child_stats, child_events.
  destruct (Hook.counts_time timeSpent) as [n|].
  - destruct Hchild as [Hn | Hc]; [discriminate|]. rewrite Hc. cbn.
    eexists. split; [reflexivity|]. cbn.
    split; [rewrite <- !app_assoc; reflexivity|]. reflexivity.
  - cbn. eexists. split; [reflexivity|]. cbn.
    split; [rewrite <- !app_assoc; reflexivity|]. reflexivity.
Qed.

(** routes/child.js, any other active story that passes the schema: as in
    routes/stories.js. *)
Lemma complete_for_child_other child timeSpent w id s :
  Doc.findOne [Doc.IdIs id; Doc.ActiveIs true] (store w) = Some s ->
  Hook.counts_time timeSpent = None \/ Hook.valid_child child = true ->
  Doc.valid s = true ->
  Doc.isAIGenerated s = false \/ Hook.collection_of s = None ->
  exists w',
    run o alone (Hook.complete_for_child child timeSpent id) w
    = (inr Hook.Completed, w')
    /\ log w' = log w ++ Ev (FindOne [Doc.IdIs id; Doc.ActiveIs true]) (Some s)
                :: child_events timeSpent ++ [Ev (Save (Doc._id s) []) tt]
    /\ store w' = store w.
Proof.
  intros Hfind Hchild Hvalid Hother. apply other_branch in Hother.
  unfold Hook.complete_for_child. cbn [bind await run try_catch]. unfold exec at 1.
  cbn [perform store with_store].
  change (alone (tick w) (store w)) with (store w). rewrite Hfind.
  cbn [ticked].
  pose proof (update_nil (Doc._id s) (store w)) as E.
  unfold Doc.update in E; cbn in E.
  unfold Hook.update_child_stats, child_events, Hook.save.
  cbn [Hook.persisted Hook.bump_completions Hook.hydrate Hook.modified].
  rewrite Hvalid.
  destruct (Hook.counts_time timeSpent) as [n|];
    [destruct Hchild as [Hn | Hc]; [discriminate|]; rewrite Hc|];
    (destruct (Doc.isAIGenerated s); destruct (Hook.collection_of s);
     try contradiction; cbn;
     (eexists; split; [reflexivity|]; cbn;
      split; [rewrite <- !app_assoc; reflexivity|];
      unfold alone; cbn; rewrite E; reflexivity)).
Qed.

End HookFacts.

(** routes/child.js answers 500 for a child whose age the schema rejects
    when the request counts play time, and 200 when it does not. *)
Example child_save_rejected :
  let baby := {| Hook.name := lit "Mia"; Hook.age := 1 |} in
  fst (run demo_oracle alone (Hook.complete_for_child baby (Some 90%Z) 3) nursery)
  = inr Hook.ServerError
  /\ store (snd (run demo_oracle alone
                   (Hook.complete_for_child baby (Some 90%Z) 3) nursery))
     = store nursery
  /\ fst (run demo_oracle alone (Hook.complete_for_child baby None 3) nursery)
     = inr Hook.Completed.
Proof. repeat split. Qed.

(** C7: completing a hand-authored story answers 200 and starts no
    regeneration, but in both handlers the completion is counted on
    [stats.completions], a property the schema does not declare (its
    counter is [stats.totalCompletions]): the save that follows writes no
    path, and the stored record, counter included, is what it was. *)
Theorem C7_completion_counter_not_persisted :
  let by_story := run demo_oracle alone (Hook.complete_story 7) library in
  let by_child :=
    run demo_oracle alone
        (Hook.complete_for_child {| Hook.name := lit "Mia"; Hook.age := 5 |}
                                 None 7)
        library in
  Hook.stats_completions (Hook.bump_completions (Hook.hydrate kind_fox)) = Some 1%Z
  /\ fst by_story = inr Hook.Completed
  /\ log (snd by_story) = [Ev (FindOne [Doc.IdIs 7]) (Some kind_fox);
                           Ev (Save 7 []) tt]
  /\ store (snd by_story) = [kind_fox]
  /\ map Doc.stats_totalCompletions (store (snd by_story)) = [2%Z]
  /\ fst by_child = inr Hook.Completed
  /\ log (snd by_child)
     = [Ev (FindOne [Doc.IdIs 7; Doc.ActiveIs true]) (Some kind_fox);
        Ev (Save 7 []) tt]
  /\ map Doc.stats_totalCompletions (store (snd by_child)) = [2%Z].
Proof. repeat split. Qed.

(* ===================================================================== *)
(** * Candidates and the limits of the schema *)
(* ===================================================================== *)

Lemma drop_while_length p s : (length (drop_while p s) <= length s)%nat.
Proof.
  induction s as [|c s IH]; simpl; [lia|]. destruct (p c); simpl; lia.
Qed.

Lemma trim_length s : (length (trim s) <= length s)%nat.
Proof.
  unfold trim, trim_end, trim_start. rewrite length_rev.
  etransitivity; [apply drop_while_length|]. rewrite length_rev.
  apply drop_while_length.
Qed.

Lemma strip_min_suffix_length s : (length (strip_min_suffix s) <= length s)%nat.
Proof.
  induction s as [|c s IH]; simpl; [lia|].
  destruct (is_dash_or_colon c && min_tail s); simpl; lia.
Qed.

Lemma substring0_length n s : (length (substring0 n s) <= n)%nat.
Proof. unfold substring0. rewrite length_firstn. lia. Qed.

Lemma candidate_of_line_limits childName childAge already line parts :
  within_limits (candidate_of_line childName childAge already line parts).
Proof.
  unfold within_limits, candidate_of_line. cbn [title description duration].
  split; [|split].
  - etransitivity; [apply trim_length|].
    etransitivity; [apply strip_min_suffix_length|]. apply substring0_length.
  - etransitivity; [apply trim_length|].
    etransitivity; [apply strip_min_suffix_length|]. apply substring0_length.
  - apply line_duration_range.
Qed.

Lemma candidate_of_object_limits childAge obj c :
  candidate_of_object childAge obj = inr c -> within_limits c.
Proof.
  unfold candidate_of_object. intros H.
  repeat match type of H with
         | match ?x with inl _ => _ | inr _ => _ end = _ =>
             destruct x; [discriminate|]
         end.
  apply (f_equal (fun r => match r with inr x => Some x | inl _ => None end)) in H.
  cbv beta iota in H.
  assert (Hc : forall a b : Candidate, Some a = Some b -> b = a) by congruence.
  apply Hc in H. subst c. unfold within_limits. cbn [title description duration].
  split; [apply substring0_length|]. split; [apply substring0_length|].
  apply clamp_duration_range.
Qed.

(** X1: every candidate the Output Parser returns, from the structured
    tier or from the line mode, has a title of at most 100 code units, a
    description of at most 500 and a duration between 5 and 20 minutes:
    the length and range validators of the schema never reject one. *)
Theorem candidates_within_schema_limits :
  forall (JSON_parse : jsstring -> option jsvalue)
         (aiText childName : jsstring) (childAge need : Z),
    Forall within_limits (parse_ai_text JSON_parse aiText childName childAge need)
    /\ Forall within_limits (parseGeneratedText aiText childName childAge need).
Proof.
  intros. split.
  - apply parse_ai_text_Forall.
    + intros. apply candidate_of_line_limits.
    + intros. eapply candidate_of_object_limits; eauto.
  - unfold parseGeneratedText. apply Forall_slice0. apply parse_loop_Forall.
    + intros. apply candidate_of_line_limits.
    + constructor.
Qed.

Lemma toString_scalar v :
  scalar (Some v) = true -> exists s, Json.toString v = inr s.
Proof.
  destruct v as [| [|] | n | s | items | fields]; simpl; intros H;
    try discriminate; eauto.
Qed.

Lemma well_formed_converts childAge obj :
  well_formed obj = true ->
  Json.truthy obj = true
  /\ Json.truthy_opt (Json.get "title" obj) = true
  /\ Json.truthy_opt (Json.get "content" obj) = true
  /\ exists c, candidate_of_object childAge obj = inr c.
Proof.
  unfold well_formed. intros H.
  repeat (apply andb_true_iff in H as [H ?]).
  split.
  { destruct obj; try reflexivity; simpl in H; discriminate. }
  split; [assumption|]. split; [assumption|].
  unfold candidate_of_object.
  repeat match goal with
         | Hs : scalar (Json.get ?key obj) = true |- _ =>
             destruct (Json.get key obj) as [?v|];
             [ apply toString_scalar in Hs; destruct Hs as [?s Hs]; rewrite ?Hs
             | clear Hs ]
         end;
  repeat match goal with
         | |- context [if Json.truthy ?x then _ else _] => destruct (Json.truthy x)
         end; eauto.
Qed.

Lemma structured_loop_exact childAge need arr :
  Forall (fun obj => well_formed obj = true) arr ->
  forall acc,
    (Z.of_nat (length acc) < need)%Z ->
    exists cs,
      structured_loop childAge need arr acc = (acc ++ cs, None)
      /\ map inr cs
         = map (candidate_of_object childAge)
               (firstn (Z.to_nat need - length acc) arr).
Proof.
  induction 1 as [|obj rest Hobj Hrest IH]; intros acc Hacc.
  - exists []. rewrite app_nil_r. split; [reflexivity|].
    now rewrite firstn_nil.
  - destruct (well_formed_converts childAge obj Hobj) as (Ho & Ht & Hc & c & Hcand).
    cbn [structured_loop]. rewrite Ho, Ht, Hc. cbn [negb orb]. rewrite Hcand.
    assert (Hlen : length (acc ++ [c]) = S (length acc))
      by (rewrite length_app; simpl; lia).
    destruct (Z.leb_spec need (Z.of_nat (length (acc ++ [c])))) as [Hfull|Hmore].
    + exists [c]. split; [reflexivity|].
      replace (Z.to_nat need - length acc)%nat with 1%nat by lia.
      cbn. now rewrite Hcand.
    + destruct (IH (acc ++ [c])) as (cs & Heq & Hmap); [lia|].
      exists (c :: cs). rewrite Heq, <- app_assoc. split; [reflexivity|].
      replace (Z.to_nat need - length acc)%nat
        with (S (Z.to_nat need - length (acc ++ [c])))%nat by lia.
      cbn [firstn map]. now rewrite Hcand, Hmap.
Qed.

(** X2: when the bracketed span of the answer parses to a non-empty array
    whose elements all have a truthy title and content and no array or
    object among their four fields, the parser returns the first
    min(need, length) elements, converted, in the order of the array; no
    exception ends the tier and the line mode is not consulted. *)
Theorem structured_answer_is_taken_in_order :
  forall (JSON_parse : jsstring -> option jsvalue)
         (aiText childName : jsstring) (childAge need : Z)
         (firstBracket lastBracket : nat) (arr : list jsvalue),
    (0 < need)%Z ->
    indexOf 91 (trim aiText) = Some firstBracket ->
    lastIndexOf 93 (trim aiText) = Some lastBracket ->
    (firstBracket < lastBracket)%nat ->
    JSON_parse (substring firstBracket (lastBracket + 1) (trim aiText))
    = Some (JArr arr) ->
    arr <> [] ->
    Forall (fun obj => well_formed obj = true) arr ->
    let cs := parse_ai_text JSON_parse aiText childName childAge need in
    map inr cs = map (candidate_of_object childAge) (firstn (Z.to_nat need) arr)
    /\ length cs = Nat.min (Z.to_nat need) (length arr)
    /\ structured_try JSON_parse aiText childAge need = (cs, None).
Proof.
  intros JSON_parse aiText childName childAge need fb lb arr
         Hneed Hfb Hlb Hlt Hjson Harr Hwf cs.
  destruct (@structured_loop_exact childAge need arr Hwf []) as (cs' & Heq & Hmap);
    [cbn; lia|].
  cbn [app length] in *. rewrite Nat.sub_0_r in Hmap.
  assert (Hlen : length cs' = Nat.min (Z.to_nat need) (length arr)).
  { apply (f_equal (@length _)) in Hmap.
    now rewrite !length_map, length_firstn in Hmap. }
  assert (Htry : structured_try JSON_parse aiText childAge need = (cs', None)).
  { unfold structured_try. rewrite Hfb, Hlb.
    apply Nat.ltb_lt in Hlt. rewrite Hlt, Hjson. exact Heq. }
  assert (Hne : nonempty aiText = true).
  { destruct aiText; [cbn in Hfb; discriminate|reflexivity]. }
  assert (Hcs : cs = cs').
  { subst cs. unfold parse_ai_text, structured_tier. rewrite Hne, Htry.
    cbn [fst]. destruct cs' as [|c cs'']; [|reflexivity].
    destruct arr; [congruence|]. cbn [length] in Hlen. lia. }
  rewrite Hcs. auto.
Qed.

Lemma structured_answer_witness :
  let cs := parse_ai_text parse_blank_content blank_content_text (lit "Mia") 5 2 in
  (0 < 2)%Z
  /\ map inr cs
     = map (candidate_of_object 5)
           (firstn (Z.to_nat 2)
              [JObj [(lit "title", JStr (lit "Moon"));
                     (lit "description", JStr (lit "A trip"));
                     (lit "content", JStr (lit " "))]])
  /\ length cs = 1%nat.
Proof.
  intros cs. split; [lia|].
  destruct (@structured_answer_is_taken_in_order parse_blank_content
              blank_content_text (lit "Mia") 5 2 0 54
              [JObj [(lit "title", JStr (lit "Moon"));
                     (lit "description", JStr (lit "A trip"));
                     (lit "content", JStr (lit " "))]])
    as (H1 & H2 & _);
    [ lia | reflexivity | reflexivity | lia | reflexivity | discriminate
    | repeat constructor | ].
  split; [exact H1|exact H2].
Defined.

Lemma structured_loop_app childAge need good :
  Forall (fun obj => well_formed obj = true) good ->
  forall acc rest,
    (Z.of_nat (length acc + length good) < need)%Z ->
    exists cs,
      structured_loop childAge need (good ++ rest) acc
      = structured_loop childAge need rest (acc ++ cs)
      /\ map inr cs = map (candidate_of_object childAge) good.
Proof.
  induction 1 as [|obj good Hobj Hgood IH]; intros acc rest Hlen.
  - exists []. now rewrite app_nil_r.
  - destruct (well_formed_converts childAge obj Hobj) as (Ho & Ht & Hc & c & Hcand).
    cbn [app structured_loop]. rewrite Ho, Ht, Hc. cbn [negb orb]. rewrite Hcand.
    assert (Hpush : length (acc ++ [c]) = S (length acc))
      by (rewrite length_app; cbn; lia).
    cbn [length] in Hlen.
    destruct (Z.leb_spec need (Z.of_nat (length (acc ++ [c])))) as [?|_]; [lia|].
    destruct (IH (acc ++ [c]) rest) as (cs & Heq & Hmap); [lia|].
    exists (c :: cs). rewrite Heq, <- app_assoc. split; [reflexivity|].
    cbn [map]. now rewrite Hcand, Hmap.
Qed.

(** X3: an accepted element whose conversion throws ends the structured
    tier: the candidates pushed before it are kept, in order, the elements
    after it are never looked at, and the exception is the one caught. *)
Theorem structured_tier_stops_at_a_throwing_element :
  forall (childAge need : Z) (good : list jsvalue) (bad : jsvalue)
         (rest : list jsvalue) (e : exn),
    Forall (fun obj => well_formed obj = true) good ->
    (Z.of_nat (length good) < need)%Z ->
    Json.truthy bad = true ->
    Json.truthy_opt (Json.get "title" bad) = true ->
    Json.truthy_opt (Json.get "content" bad) = true ->
    candidate_of_object childAge bad = inl e ->
    exists cs,
      structured_loop childAge need (good ++ bad :: rest) [] = (cs, Some e)
      /\ map inr cs = map (candidate_of_object childAge) good.
Proof.
  intros childAge need good bad rest e Hgood Hlen Hb Ht Hc He.
  destruct (@structured_loop_app childAge need good Hgood [] (bad :: rest))
    as (cs & Heq & Hmap); [cbn; lia|].
  exists cs. rewrite Heq. cbn [app structured_loop].
  rewrite Hb, Ht, Hc. cbn [negb orb]. rewrite He. auto.
Qed.

Lemma structured_tier_stops_witness :
  let good := JObj [(lit "title", JStr (lit "Moon"));
                    (lit "content", JStr (lit "Far away"))] in
  let bad := JObj [(lit "title", JObj [(lit "toString", JNull)]);
                   (lit "content", JStr (lit "Lost"))] in
  (Z.of_nat (length [good]) < 3)%Z
  /\ candidate_of_object 5 bad = inl TypeError
  /\ exists cs,
       structured_loop 5 3 ([good] ++ bad :: [good]) [] = (cs, Some TypeError)
       /\ map inr cs = map (candidate_of_object 5) [good].
Proof.
  intros good bad.
  assert (Hlen : (Z.of_nat (length [good]) < 3)%Z) by (cbn; lia).
  split; [exact Hlen|]. split; [reflexivity|].
  apply structured_tier_stops_at_a_throwing_element;
    [repeat constructor|exact Hlen|reflexivity|reflexivity|reflexivity|reflexivity].
Defined.

(* ===================================================================== *)
(** * Asking for fewer candidates *)
(* ===================================================================== *)

Lemma parse_loop_extends childName childAge count lines :
  forall parsed, exists more,
    parse_loop childName childAge count lines parsed = parsed ++ more.
Proof.
  induction lines as [|line rest IH]; intros parsed; cbn [parse_loop].
  - exists []. now rewrite app_nil_r.
  - destruct (Z.of_nat (length parsed) <? count)%Z.
    + destruct (line_parts line) as [parts|]; [|apply IH].
      destruct (IH (parsed ++ [candidate_of_line childName childAge (length parsed)
                                  line parts])) as [more ->].
      rewrite <- app_assoc. eauto.
    + exists []. now rewrite app_nil_r.
Qed.

Lemma firstn_exact {A} (l more : list A) : firstn (length l) (l ++ more) = l.
Proof.
  rewrite firstn_app, Nat.sub_diag, firstn_all. cbn. now rewrite app_nil_r.
Qed.

Lemma parse_loop_prefix childName childAge c1 c2 lines :
  (c1 <= c2)%Z ->
  forall parsed,
    (Z.of_nat (length parsed) <= c1)%Z ->
    parse_loop childName childAge c1 lines parsed
    = firstn (Z.to_nat c1) (parse_loop childName childAge c2 lines parsed).
Proof.
  intros Hc. induction lines as [|line rest IH]; intros parsed Hlen.
  - cbn. symmetry. apply firstn_all2. lia.
  - cbn [parse_loop].
    destruct (Z.ltb_spec (Z.of_nat (length parsed)) c1) as [Hlt|Hge].
    + destruct (Z.ltb_spec (Z.of_nat (length parsed)) c2) as [_|?]; [|lia].
      destruct (line_parts line) as [parts|]; [|now apply IH].
      apply IH. rewrite length_app. cbn. lia.
    + assert (Hn : Z.to_nat c1 = length parsed) by lia.
      destruct (Z.of_nat (length parsed) <? c2)%Z.
      * destruct (line_parts line) as [parts|].
        -- destruct (parse_loop_extends childName childAge c2 rest
                       (parsed ++ [candidate_of_line childName childAge
                                     (length parsed) line parts])) as [more ->].
           rewrite Hn, <- app_assoc. symmetry. apply firstn_exact.
        -- destruct (parse_loop_extends childName childAge c2 rest parsed)
             as [more ->].
           rewrite Hn. symmetry. apply firstn_exact.
      * rewrite Hn. symmetry. apply firstn_all.
Qed.

Lemma parseGeneratedText_loop text childName childAge count :
  (0 <= count)%Z ->
  parseGeneratedText text childName childAge count
  = parse_loop childName childAge count (text_lines text) [].
Proof.
  intros Hc. unfold parseGeneratedText. apply slice0_all.
  pose proof (parse_loop_length childName childAge count (text_lines text) []).
  cbn [length] in *. lia.
Qed.

Lemma parseGeneratedText_prefix text childName childAge c1 c2 :
  (0 <= c1 <= c2)%Z ->
  parseGeneratedText text childName childAge c1
  = firstn (Z.to_nat c1) (parseGeneratedText text childName childAge c2).
Proof.
  intros Hc. rewrite !parseGeneratedText_loop by lia.
  apply parse_loop_prefix; cbn; lia.
Qed.

Lemma structured_loop_extends childAge need arr :
  forall acc, exists more,
    fst (structured_loop childAge need arr acc) = acc ++ more.
Proof.
  induction arr as [|obj rest IH]; intros acc; cbn [structured_loop].
  - exists []. cbn. now rewrite app_nil_r.
  - destruct (negb (Json.truthy obj)
              || negb (Json.truthy_opt (Json.get "title" obj))
              || negb (Json.truthy_opt (Json.get "content" obj))); [apply IH|].
    destruct (candidate_of_object childAge obj) as [e|c].
    + exists []. cbn. now rewrite app_nil_r.
    + destruct (need <=? Z.of_nat (length (acc ++ [c])))%Z.
      * exists [c]. reflexivity.
      * destruct (IH (acc ++ [c])) as [more ->]. rewrite <- app_assoc. eauto.
Qed.

Lemma structured_loop_prefix childAge n1 n2 arr :
  (n1 <= n2)%Z ->
  forall acc,
    (Z.of_nat (length acc) < n1)%Z ->
    fst (structured_loop childAge n1 arr acc)
    = firstn (Z.to_nat n1) (fst (structured_loop childAge n2 arr acc)).
Proof.
  intros Hn. induction arr as [|obj rest IH]; intros acc Hacc; cbn [structured_loop].
  - cbn. symmetry. apply firstn_all2. lia.
  - destruct (negb (Json.truthy obj)
              || negb (Json.truthy_opt (Json.get "title" obj))
              || negb (Json.truthy_opt (Json.get "content" obj))); [now apply IH|].
    destruct (candidate_of_object childAge obj) as [e|c].
    + cbn. symmetry. apply firstn_all2. lia.
    + assert (Hlen : length (acc ++ [c]) = S (length acc))
        by (rewrite length_app; cbn; lia).
      destruct (Z.leb_spec n1 (Z.of_nat (length (acc ++ [c])))) as [Hfull|Hmore].
      * assert (Hk : Z.to_nat n1 = length (acc ++ [c])) by lia.
        cbn [fst]. rewrite Hk.
        destruct (n2 <=? Z.of_nat (length (acc ++ [c])))%Z.
        -- cbn [fst]. symmetry. apply firstn_all.
        -- destruct (structured_loop_extends childAge n2 rest (acc ++ [c]))
             as [more ->].
           symmetry. apply firstn_exact.
      * destruct (Z.leb_spec n2 (Z.of_nat (length (acc ++ [c])))) as [?|_]; [lia|].
        apply IH. lia.
Qed.

Lemma structured_tier_prefix JSON_parse aiText childAge n1 n2 :
  (0 < n1 <= n2)%Z ->
  structured_tier JSON_parse aiText childAge n1
  = firstn (Z.to_nat n1) (structured_tier JSON_parse aiText childAge n2).
Proof.
  intros Hn. unfold structured_tier, structured_try.
  destruct (indexOf 91 (trim aiText)) as [fb|]; [|now rewrite firstn_nil].
  destruct (lastIndexOf 93 (trim aiText)) as [lb|]; [|now rewrite firstn_nil].
  destruct (fb <? lb)%nat; [|now rewrite firstn_nil].
  destruct (JSON_parse _) as [[| b | n | s | arr | fields]|];
    try (now rewrite firstn_nil).
  apply structured_loop_prefix; cbn; lia.
Qed.

(** X4: asking the parser for fewer candidates changes nothing but their
    number: for 0 < n1 <= n2 the result for n1 is the first n1 candidates
    of the result for n2, in both tiers and in their combination. *)
Theorem fewer_candidates_are_a_prefix :
  forall (JSON_parse : jsstring -> option jsvalue)
         (aiText childName : jsstring) (childAge n1 n2 : Z),
    (0 < n1 <= n2)%Z ->
    parse_ai_text JSON_parse aiText childName childAge n1
    = firstn (Z.to_nat n1) (parse_ai_text JSON_parse aiText childName childAge n2)
    /\ parseGeneratedText aiText childName childAge n1
       = firstn (Z.to_nat n1) (parseGeneratedText aiText childName childAge n2).
Proof.
  intros JSON_parse aiText childName childAge n1 n2 Hn.
  split; [|apply parseGeneratedText_prefix; lia].
  unfold parse_ai_text.
  destruct (nonempty aiText); [|now rewrite firstn_nil].
  rewrite (@structured_tier_prefix JSON_parse aiText childAge n1 n2 Hn).
  destruct (structured_tier JSON_parse aiText childAge n2) as [|c cs] eqn:Ht.
  - rewrite firstn_nil. cbn [length Nat.eqb andb app].
    rewrite !parseGeneratedText_slice. apply parseGeneratedText_prefix. lia.
  - destruct (Z.to_nat n1) as [|k] eqn:Hk; [lia|]. reflexivity.
Qed.

Lemma fewer_candidates_witness :
  (0 < 1 <= 2)%Z
  /\ parse_ai_text no_json moon_line (lit "Mia") 5 1
     = firstn (Z.to_nat 1) (parse_ai_text no_json moon_line (lit "Mia") 5 2).
Proof.
  assert (H : (0 < 1 <= 2)%Z) by lia. split; [exact H|].
  exact (proj1 (@fewer_candidates_are_a_prefix no_json moon_line (lit "Mia")
                  5 1 2 H)).
Defined.

(* ===================================================================== *)
(** * Where a hyphenated line is cut *)
(* ===================================================================== *)

Lemma is_prefix_app p s : is_prefix p (p ++ s) = true.
Proof. induction p as [|x p IH]; cbn; [reflexivity|]. now rewrite N.eqb_refl. Qed.

Lemma is_prefix_split p s : is_prefix p s = true -> exists r, s = p ++ r.
Proof.
  revert s. induction p as [|x p IH]; intros s H; cbn in *; [eauto|].
  destruct s as [|y s]; [discriminate|].
  apply andb_true_iff in H as [Hx Hp]. apply N.eqb_eq in Hx as ->.
  destruct (IH _ Hp) as [r ->]. eauto.
Qed.

Lemma split_go_skip sep pre s cur :
  split_go sep (pre ++ s) cur (length pre) = split_go sep s cur 0.
Proof. induction pre as [|c pre IH]; cbn; [reflexivity|exact IH]. Qed.

Lemma split_go_nonempty sep s cur skip : split_go sep s cur skip <> [].
Proof.
  revert cur skip. induction s as [|c s IH]; intros cur skip; cbn; [discriminate|].
  destruct skip; [|apply IH]. destruct (is_prefix sep (c :: s)); [discriminate|apply IH].
Qed.

Lemma join_cons sep p l : l <> [] -> join sep (p :: l) = p ++ sep ++ join sep l.
Proof. destruct l; [congruence|reflexivity]. Qed.

Lemma split_go_step sep s cur :
  sep <> [] ->
  is_prefix sep s = true ->
  exists r, s = sep ++ r
            /\ split_go sep s cur 0 = rev cur :: split_go sep r [] 0.
Proof.
  intros Hsep Hp. destruct (is_prefix_split _ _ Hp) as [r ->]. exists r.
  split; [reflexivity|].
  destruct sep as [|c sep']; [congruence|].
  cbn [app split_go]. change (c :: sep' ++ r) with ((c :: sep') ++ r).
  rewrite Hp.
  replace (length (c :: sep') - 1)%nat with (length sep') by (cbn; lia).
  now rewrite split_go_skip.
Qed.

Lemma join_split_go sep :
  sep <> [] ->
  forall n s cur,
    (length s <= n)%nat ->
    join sep (split_go sep s cur 0) = rev cur ++ s.
Proof.
  intros Hsep. induction n as [|n IH]; intros s cur Hn.
  - destruct s; [|cbn in Hn; lia]. cbn. now rewrite app_nil_r.
  - destruct s as [|c s']; [cbn; now rewrite app_nil_r|].
    destruct (is_prefix sep (c :: s')) eqn:Hp.
    + destruct (@split_go_step sep (c :: s') cur Hsep Hp) as (r & Hs & ->).
      rewrite join_cons by apply split_go_nonempty.
      rewrite IH.
      * cbn. now rewrite Hs.
      * apply (f_equal (@length _)) in Hs. rewrite length_app in Hs.
        destruct sep; [congruence|]. cbn in *. lia.
    + cbn [split_go]. rewrite Hp. rewrite IH by (cbn in Hn; lia).
      cbn. now rewrite <- app_assoc.
Qed.

Lemma join_split sep s : sep <> [] -> join sep (split sep s) = s.
Proof. intros H. unfold split. rewrite (@join_split_go sep H (length s) s []); [reflexivity|lia]. Qed.

Lemma clear_of_no_occurrence sep cur s :
  clear_of sep cur s -> sep <> [] -> ~ occurs sep (rev cur).
Proof.
  intros Hc Hsep (a & b & Hab).
  specialize (Hc a (sep ++ b) Hab).
  rewrite <- app_assoc, is_prefix_app in Hc.
  assert (sep ++ b <> []) by (destruct sep; [congruence|discriminate]).
  specialize (Hc H). discriminate.
Qed.

Lemma clear_of_push sep cur c s :
  clear_of sep cur (c :: s) ->
  is_prefix sep (c :: s) = false ->
  clear_of sep (c :: cur) s.
Proof.
  intros Hc Hp a b Hab Hb.
  destruct (exists_last Hb) as (b0 & x & ->).
  cbn [rev] in Hab. rewrite app_assoc in Hab.
  apply app_inj_tail in Hab as [Hab ->].
  rewrite <- app_assoc. cbn [app].
  destruct b0 as [|y b0]; [exact Hp|].
  apply (Hc a (y :: b0) Hab). discriminate.
Qed.

Lemma clear_of_nil sep s : clear_of sep [] s.
Proof. intros a b Hab Hb. destruct a, b; cbn in Hab; congruence. Qed.

Lemma split_go_segments sep :
  sep <> [] ->
  forall n s cur,
    (length s <= n)%nat ->
    clear_of sep cur s ->
    Forall (fun p => ~ occurs sep p) (split_go sep s cur 0).
Proof.
  intros Hsep. induction n as [|n IH]; intros s cur Hn Hc.
  - destruct s; [|cbn in Hn; lia]. cbn. constructor; [|constructor].
    eapply clear_of_no_occurrence; eauto.
  - destruct s as [|c s'].
    { cbn. constructor; [|constructor]. eapply clear_of_no_occurrence; eauto. }
    destruct (is_prefix sep (c :: s')) eqn:Hp.
    + destruct (@split_go_step sep (c :: s') cur Hsep Hp) as (r & Hs & ->).
      constructor; [eapply clear_of_no_occurrence; eauto|].
      apply IH; [|apply clear_of_nil].
      apply (f_equal (@length _)) in Hs. rewrite length_app in Hs.
      destruct sep; [congruence|]. cbn in *. lia.
    + cbn [split_go]. rewrite Hp. apply IH; [cbn in Hn; lia|].
      now apply clear_of_push.
Qed.

Lemma split_segments sep s :
  sep <> [] -> Forall (fun p => ~ occurs sep p) (split sep s).
Proof.
  intros H. unfold split. eapply split_go_segments; eauto. apply clear_of_nil.
Qed.

(** X5: a line that the hyphen separator cuts in three or more is cut at
    its first two occurrences: the line is title segment, separator,
    description segment, separator, rest; neither segment contains the
    separator; and the story text is the rest of the line, trimmed, with
    its own hyphens untouched (the default sentence when that is empty). *)
Theorem hyphen_line_cut_at_first_two_separators :
  forall line : jsstring,
    (3 <= length (split sep_hyphen line))%nat ->
    exists t d rest parts,
      line_parts line = Some parts
      /\ nth 0 parts [] = t /\ nth 1 parts [] = d
      /\ line = t ++ lit " - " ++ d ++ lit " - " ++ rest
      /\ ~ occurs (lit " - ") t /\ ~ occurs (lit " - ") d
      /\ forall childName childAge already,
           content (candidate_of_line childName childAge already line parts)
           = or_else (trim rest) (default_content childName).
Proof.
  intros line Hlen.
  assert (Hsep : sep_hyphen <> []) by discriminate.
  pose proof (@join_split sep_hyphen line Hsep) as Hjoin.
  pose proof (@split_segments sep_hyphen line Hsep) as Hseg.
  assert (Hparts : line_parts line = Some (split sep_hyphen line)).
  { destruct (length (split sep_hyphen line) <? 3)%nat eqn:L;
      [apply Nat.ltb_lt in L; lia|].
    unfold line_parts. cbv zeta. repeat (rewrite L; cbv iota). reflexivity. }
  destruct (split sep_hyphen line) as [|t [|d [|r more]]] eqn:Hs;
    cbn in Hlen; try lia.
  exists t, d, (join sep_hyphen (r :: more)), (t :: d :: r :: more).
  split; [exact Hparts|]. split; [reflexivity|]. split; [reflexivity|].
  split.
  { rewrite <- Hjoin at 1. rewrite !join_cons by discriminate. reflexivity. }
  inversion Hseg as [|? ? Ht Hrest]; subst.
  inversion Hrest as [|? ? Hd _]; subst.
  split; [exact Ht|]. split; [exact Hd|].
  intros. reflexivity.
Qed.

Lemma hyphen_line_cut_witness :
  (3 <= length (split sep_hyphen (lit "Moon - A trip - Far - far away")))%nat
  /\ exists t d rest parts,
      line_parts (lit "Moon - A trip - Far - far away") = Some parts
      /\ nth 0 parts [] = t /\ nth 1 parts [] = d
      /\ lit "Moon - A trip - Far - far away"
         = t ++ lit " - " ++ d ++ lit " - " ++ rest
      /\ ~ occurs (lit " - ") t /\ ~ occurs (lit " - ") d
      /\ forall childName childAge already,
           content (candidate_of_line childName childAge already
                      (lit "Moon - A trip - Far - far away") parts)
           = or_else (trim rest) (default_content childName).
Proof.
  split; [vm_compute; lia|].
  apply hyphen_line_cut_at_first_two_separators. vm_compute; lia.
Defined.

(* ===================================================================== *)
(** * Budgets: how often a program calls out *)
(* ===================================================================== *)

Section Budget.

Variable op : OpClass.

Lemma AtMost_weaken {A} (p : Prog A) n m :
  (n <= m)%nat -> AtMost op n p -> AtMost op m p.
Proof.
  intros Hle H. revert m Hle.
  induction H as [n a|n e|n X e k Hop Hk IH|n X e k Hk IH]; intros m Hle.
  - constructor.
  - constructor.
  - apply AtMost_free; auto.
  - destruct m as [|m]; [lia|]. apply AtMost_pay. intros x. apply IH. lia.
Qed.

Lemma AtMost_bind {A B} (p : Prog A) (f : A -> Prog B) n m :
  AtMost op n p -> (forall a, AtMost op m (f a)) -> AtMost op (n + m) (bind p f).
Proof.
  intros Hp Hf.
  induction Hp as [n a|n e|n X e k Hop Hk IH|n X e k Hk IH]; cbn [bind].
  - apply AtMost_weaken with (n := m); [lia|apply Hf].
  - constructor.
  - apply AtMost_free; auto.
  - cbn [Nat.add]. apply AtMost_pay. exact IH.
Qed.

Lemma AtMost_try_catch {A} (p : Prog A) (h : exn -> Prog A) n m :
  AtMost op n p -> (forall e, AtMost op m (h e)) ->
  AtMost op (n + m) (try_catch p h).
Proof.
  intros Hp Hh.
  induction Hp as [n a|n e|n X e k Hop Hk IH|n X e k Hk IH]; cbn [try_catch].
  - constructor.
  - apply AtMost_weaken with (n := m); [lia|apply Hh].
  - apply AtMost_free; auto.
  - cbn [Nat.add]. apply AtMost_pay. exact IH.
Qed.

Lemma AtMost_bind0 {A B} (p : Prog A) (f : A -> Prog B) n :
  AtMost op 0 p -> (forall a, AtMost op n (f a)) -> AtMost op n (bind p f).
Proof. intros Hp Hf. apply (AtMost_bind f Hp Hf). Qed.

Lemma AtMost_try_catch0 {A} (p : Prog A) (h : exn -> Prog A) n :
  AtMost op n p -> (forall e, AtMost op 0 (h e)) -> AtMost op n (try_catch p h).
Proof.
  intros Hp Hh. replace n with (n + 0)%nat by lia. now apply AtMost_try_catch.
Qed.

Variable o : Oracle.
Variable others : Interference.

Lemma run_atmost {A} (p : Prog A) n :
  AtMost op n p ->
  forall w r w' evs,
    run o others p w = (r, w') ->
    log w' = log w ++ evs ->
    (calls op evs <= n)%nat.
Proof.
  induction 1 as [n a|n e|n X e k Hop Hk IH|n X e k Hk IH];
    intros w r w' evs; cbn [run].
  - intros [= <- <-] Hl.
    assert (evs = []) as ->; [|cbn; lia].
    apply (app_inv_head (log w)). now rewrite app_nil_r.
  - intros [= <- <-] Hl.
    assert (evs = []) as ->; [|cbn; lia].
    apply (app_inv_head (log w)). now rewrite app_nil_r.
  - destruct (exec o e _) as [x w1] eqn:E. intros Hrun Hl.
    apply exec_log in E as [El Et]. cbn in El.
    pose proof Hrun as Hev. apply run_events in Hev as (evs' & Hl' & _).
    assert (evs = Ev e x :: evs') as ->.
    { apply (app_inv_head (log w)). rewrite <- Hl, Hl', El, <- app_assoc.
      reflexivity. }
    unfold calls. cbn [filter ev_in]. rewrite Hop. eapply IH; eauto.
  - destruct (exec o e _) as [x w1] eqn:E. intros Hrun Hl.
    apply exec_log in E as [El Et]. cbn in El.
    pose proof Hrun as Hev. apply run_events in Hev as (evs' & Hl' & _).
    assert (evs = Ev e x :: evs') as ->.
    { apply (app_inv_head (log w)). rewrite <- Hl, Hl', El, <- app_assoc.
      reflexivity. }
    unfold calls. cbn [filter ev_in].
    pose proof (IH x w1 r w' evs' Hrun Hl') as Hle. unfold calls in Hle.
    match goal with
    | |- context [if ?c then _ else _] => destruct c
    end; cbn [length]; lia.
Qed.

End Budget.

(** Walks a program tree: an operation outside the class is passed for
    free, one inside it is paid from the budget; where the tree depends on
    a value not yet known, each case is walked. *)
Ltac walk :=
  repeat (cbn [bind try_catch];
          lazymatch goal with
          | |- AtMost _ _ (Ret _) => apply AtMost_Ret
          | |- AtMost _ _ (Throw _) => apply AtMost_Throw
          | |- AtMost _ _ (Vis _ _) =>
              first [ apply AtMost_free; [reflexivity|intro]
                    | apply AtMost_pay; intro ]
          | |- AtMost _ _ _ =>
              match goal with
              | |- context [match ?x with _ => _ end] => destruct x
              end
          end).

Section Footprints.

Variable JSON_parse : jsstring -> option jsvalue.
Variable cfg : Config.

Ltac open_gateway :=
  unfold textToElevenlabsAudio, generateWithOpenAI, callTTSForVoice,
    saveBufferAndGetUrl, await_or_throw, await.

Lemma textToElevenlabsAudio_synthesis txt prefix req :
  AtMost is_synthesis 2 (textToElevenlabsAudio cfg txt prefix req).
Proof. open_gateway. walk. Qed.

Lemma textToElevenlabsAudio_listing txt prefix req :
  AtMost is_listing 1 (textToElevenlabsAudio cfg txt prefix req).
Proof. open_gateway. walk. Qed.

Lemma textToElevenlabsAudio_writes txt prefix req :
  AtMost is_write 2 (textToElevenlabsAudio cfg txt prefix req).
Proof. open_gateway. walk. Qed.

Lemma textToElevenlabsAudio_no_chat txt prefix req :
  AtMost is_chat 0 (textToElevenlabsAudio cfg txt prefix req).
Proof. open_gateway. walk. Qed.

Lemma generateWithOpenAI_one_chat msgs maxTokens mdl :
  AtMost is_chat 1 (generateWithOpenAI cfg msgs maxTokens mdl).
Proof. open_gateway. walk. Qed.

Ltac open_engine :=
  unfold generateCategoryStories, parse_phase, save_one, audio_for; open_gateway.

Lemma save_one_no_chat cat key req i s :
  AtMost is_chat 0 (save_one cfg cat key req i s).
Proof. open_engine. walk. Qed.

Lemma save_loop_no_chat cat key req toSave :
  forall i saved, AtMost is_chat 0 (save_loop cfg cat key req toSave i saved).
Proof.
  induction toSave as [|s rest IH]; intros i saved; cbn [save_loop].
  - constructor.
  - apply AtMost_bind0; [apply save_one_no_chat|]. intros r. apply IH.
Qed.

Lemma generateCategoryStories_one_chat key name age target req :
  AtMost is_chat 1 (generateCategoryStories JSON_parse cfg key name age target req).
Proof.
  open_engine.
  walk; (eapply AtMost_weaken; [|apply save_loop_no_chat]); lia.
Qed.

Lemma generateCategoryStories_no_chat key name age target req :
  env_set (OPENAI_API_KEY cfg) = false ->
  AtMost is_chat 0 (generateCategoryStories JSON_parse cfg key name age target req).
Proof.
  intros Hkey. open_engine. rewrite Hkey. walk; apply save_loop_no_chat.
Qed.

Lemma save_one_no_speech cat key req i s :
  req = None \/ env_set (ELEVENLABS_API_KEY cfg) = false ->
  AtMost is_speech 0 (save_one cfg cat key req i s).
Proof.
  intros [-> | Hkey]; open_engine; [|rewrite Hkey]; walk.
Qed.

Lemma save_loop_no_speech cat key req toSave :
  req = None \/ env_set (ELEVENLABS_API_KEY cfg) = false ->
  forall i saved, AtMost is_speech 0 (save_loop cfg cat key req toSave i saved).
Proof.
  intros Hreq. induction toSave as [|s rest IH]; intros i saved; cbn [save_loop].
  - constructor.
  - apply AtMost_bind0; [now apply save_one_no_speech|]. intros r. apply IH.
Qed.

Lemma generateCategoryStories_no_speech key name age target req :
  req = None \/ env_set (ELEVENLABS_API_KEY cfg) = false ->
  AtMost is_speech 0
         (generateCategoryStories JSON_parse cfg key name age target req).
Proof.
  intros Hreq. open_engine. walk; now apply save_loop_no_speech.
Qed.

End Footprints.

(** X6: whatever the providers and other requests do, one call of the
    engine sends at most one chat completion request, and none when no
    OpenAI key is configured. *)
Theorem replenish_asks_text_provider_at_most_once :
  forall (JSON_parse : jsstring -> option jsvalue) (cfg : Config) (o : Oracle)
         (others : Interference) (key name : jsstring) (age target : Z)
         (req : option Request) (w : World),
    exists evs,
      log (snd (run o others
                  (generateCategoryStories JSON_parse cfg key name age target req) w))
      = log w ++ evs
      /\ (calls is_chat evs <= 1)%nat
      /\ (env_set (OPENAI_API_KEY cfg) = false -> calls is_chat evs = 0%nat).
Proof.
  intros.
  destruct (run o others
              (generateCategoryStories JSON_parse cfg key name age target req) w)
    as [r w'] eqn:Hrun.
  pose proof Hrun as Hev. apply run_events in Hev as (evs & Hlog & _).
  exists evs. cbn [snd]. split; [exact Hlog|]. split.
  - eapply run_atmost; eauto. apply generateCategoryStories_one_chat.
  - intros Hkey.
    assert (calls is_chat evs <= 0)%nat; [|lia].
    eapply run_atmost; eauto. now apply generateCategoryStories_no_chat.
Qed.

(** X7: with a key configured and fewer active generated stories than
    the target, the first thing the engine does after counting is to ask
    the provider for exactly target - existingCount stories: one request
    with the system and user prompts for that number, 1600 tokens and the
    configured model (gpt-3.5-turbo by default); no other chat request
    follows. *)
Theorem replenish_asks_for_the_shortfall :
  forall (JSON_parse : jsstring -> option jsvalue) (cfg : Config) (o : Oracle)
         (others : Interference) (key name : jsstring) (cat : Category)
         (age target : Z) (req : option Request) (w : World),
    STORY_CATEGORIES key = Some (Own cat) ->
    env_set (OPENAI_API_KEY cfg) = true ->
    let existingCount :=
      Doc.countDocuments (Doc.active_ai_in key) (others (tick w) (store w)) in
    (existingCount < target)%Z ->
    let payload := shortfall_request cfg cat name age (target - existingCount) in
    exists rest,
      log (snd (run o others
                  (generateCategoryStories JSON_parse cfg key name age target req) w))
      = log w ++ Ev (CountDocuments (Doc.active_ai_in key)) existingCount
                 :: Ev (PostChat payload) (chat_response o (S (tick w)) payload)
                 :: rest
      /\ calls is_chat rest = 0%nat.
Proof.
  intros JSON_parse cfg o others key name cat age target req w Hcat Hkey
         existingCount Hshort payload.
  destruct (run o others
              (generateCategoryStories JSON_parse cfg key name age target req) w)
    as [r w'] eqn:Hrun.
  pose proof Hrun as Hall. apply run_events in Hall as (evs & Hlog & _).
  assert (Hone : (calls is_chat evs <= 1)%nat).
  { eapply run_atmost; [|exact Hrun|exact Hlog].
    apply generateCategoryStories_one_chat. }
  cbn [snd].
  unfold generateCategoryStories in Hrun. rewrite Hcat, Hkey in Hrun.
  cbn [bind await run] in Hrun. unfold exec at 1 in Hrun.
  cbn [perform store with_store] in Hrun. fold existingCount in Hrun.
  assert (Hneed : Z.max 0 (target - existingCount) = (target - existingCount)%Z)
    by lia.
  rewrite Hneed in Hrun.
  destruct (Z.leb_spec (target - existingCount) 0) as [?|_]; [lia|].
  unfold generateWithOpenAI in Hrun. rewrite Hkey in Hrun.
  cbn [negb bind try_catch await await_or_throw run] in Hrun.
  unfold exec at 1 in Hrun. cbn [perform store with_store ticked tick] in Hrun.
  fold (shortfall_request cfg cat name age (target - existingCount)) in Hrun.
  fold payload in Hrun.
  apply run_events in Hrun as (rest & Hrest & _).
  cbn [log ticked with_store] in Hrest. rewrite <- !app_assoc in Hrest.
  cbn [app] in Hrest.
  exists rest. split; [exact Hrest|].
  assert (evs = Ev (CountDocuments (Doc.active_ai_in key)) existingCount
                :: Ev (PostChat payload) (chat_response o (S (tick w)) payload)
                :: rest) as Hevs.
  { apply (app_inv_head (log w)). now rewrite <- Hlog, Hrest. }
  rewrite Hevs in Hone. unfold calls in *. cbn [filter ev_in is_chat length] in Hone.
  lia.
Qed.

Lemma replenish_asks_for_the_shortfall_witness :
  let payload := shortfall_request demo_cfg learn_stories (lit "friend") 5 (3 - 0) in
  STORY_CATEGORIES (lit "learn-stories") = Some (Own learn_stories)
  /\ env_set (OPENAI_API_KEY demo_cfg) = true
  /\ (Doc.countDocuments (Doc.active_ai_in (lit "learn-stories"))
        (alone (tick empty_world) (store empty_world)) < 3)%Z
  /\ exists rest,
       log (snd (run demo_oracle alone
                   (generateCategoryStories no_json demo_cfg (lit "learn-stories")
                      (lit "friend") 5 3 None) empty_world))
       = log empty_world
         ++ Ev (CountDocuments (Doc.active_ai_in (lit "learn-stories"))) 0%Z
            :: Ev (PostChat payload) (chat_response demo_oracle 1 payload)
            :: rest
       /\ calls is_chat rest = 0%nat.
Proof.
  intros payload.
  assert (Hshort : (Doc.countDocuments (Doc.active_ai_in (lit "learn-stories"))
                      (alone (tick empty_world) (store empty_world)) < 3)%Z)
    by (vm_compute; reflexivity).
  split; [reflexivity|]. split; [reflexivity|]. split; [exact Hshort|].
  exact (@replenish_asks_for_the_shortfall no_json demo_cfg demo_oracle alone
           (lit "learn-stories") (lit "friend") learn_stories 5 3 None
           empty_world eq_refl eq_refl Hshort).
Defined.

(** X8: without an OpenAI key the engine returns the empty list after its
    one count, whatever the target: no provider call, no lookup, no
    insert. *)
Theorem replenish_without_text_provider_is_one_count :
  forall (JSON_parse : jsstring -> option jsvalue) (cfg : Config) (o : Oracle)
         (others : Interference) (key name : jsstring) (cat : Category)
         (age target : Z) (req : option Request) (w : World),
    STORY_CATEGORIES key = Some (Own cat) ->
    env_set (OPENAI_API_KEY cfg) = false ->
    exists w',
      run o others
          (generateCategoryStories JSON_parse cfg key name age target req) w
      = (inr [], w')
      /\ log w'
         = log w ++ [Ev (CountDocuments (Doc.active_ai_in key))
                        (Doc.countDocuments (Doc.active_ai_in key)
                           (others (tick w) (store w)))]
      /\ store w' = others (tick w) (store w).
Proof.
  intros JSON_parse cfg o others key name cat age target req w Hcat Hkey.
  unfold generateCategoryStories. rewrite Hcat, Hkey.
  cbn [bind await run]. unfold exec at 1. cbn [perform store with_store].
  destruct (Z.max 0 (target - _) <=? 0)%Z; cbn; eauto.
Qed.

Lemma replenish_without_text_provider_witness :
  let cfg := {| OPENAI_API_KEY := None; OPENAI_MODEL := None;
                ELEVENLABS_API_KEY := None; HOSTNAME := None |} in
  STORY_CATEGORIES (lit "learn-stories") = Some (Own learn_stories)
  /\ env_set (OPENAI_API_KEY cfg) = false
  /\ exists w',
       run demo_oracle alone
           (generateCategoryStories no_json cfg (lit "learn-stories")
              (lit "friend") 5 3 None) empty_world
       = (inr [], w')
       /\ log w' = log empty_world
                   ++ [Ev (CountDocuments (Doc.active_ai_in (lit "learn-stories")))
                          (Doc.countDocuments
                             (Doc.active_ai_in (lit "learn-stories"))
                             (alone (tick empty_world) (store empty_world)))]
       /\ store w' = alone (tick empty_world) (store empty_world).
Proof.
  intros cfg. split; [reflexivity|]. split; [reflexivity|].
  exact (@replenish_without_text_provider_is_one_count no_json cfg demo_oracle
           alone (lit "learn-stories") (lit "friend") learn_stories 5 3 None
           empty_world eq_refl eq_refl).
Defined.

(** X9: one call of [textToElevenlabsAudio] makes at most two synthesis
    requests (configured voice, then fallback voice), lists the voices at
    most once, writes at most two files and never calls the text
    provider. *)
Theorem speech_gateway_budget :
  forall (cfg : Config) (o : Oracle) (others : Interference)
         (txt prefix : jsstring) (req : option Request) (w : World),
    exists evs,
      log (snd (run o others (textToElevenlabsAudio cfg txt prefix req) w))
      = log w ++ evs
      /\ (calls is_synthesis evs <= 2)%nat
      /\ (calls is_listing evs <= 1)%nat
      /\ (calls is_write evs <= 2)%nat
      /\ calls is_chat evs = 0%nat.
Proof.
  intros.
  destruct (run o others (textToElevenlabsAudio cfg txt prefix req) w)
    as [r w'] eqn:Hrun.
  pose proof Hrun as Hev. apply run_events in Hev as (evs & Hlog & _).
  exists evs. cbn [snd]. split; [exact Hlog|].
  split; [eapply run_atmost; eauto; apply textToElevenlabsAudio_synthesis|].
  split; [eapply run_atmost; eauto; apply textToElevenlabsAudio_listing|].
  split; [eapply run_atmost; eauto; apply textToElevenlabsAudio_writes|].
  assert (calls is_chat evs <= 0)%nat; [|lia].
  eapply run_atmost; eauto. apply textToElevenlabsAudio_no_chat.
Qed.

Ltac voice_leaf :=
  eexists _, _, _; split; [reflexivity|];
  split; [simpl; repeat rewrite <- app_assoc; simpl; reflexivity|];
  first [ left; reflexivity
        | right; eexists _, _, _, _;
          split; [reflexivity|];
          split; [find_in|];
          split; [eassumption|];
          split; [eassumption|find_in] ].

(** X10: [textToElevenlabsAudio] leaves [process.env.ELEVENLABS_VOICE] as
    it was, or sets it to the voice picked from the listing after that
    voice has answered a synthesis request in the same call; a voice whose
    synthesis failed is never remembered. *)
Theorem voice_setting_changes_only_to_an_answering_voice :
  forall (cfg : Config) (o : Oracle) (others : Interference)
         (txt prefix : jsstring) (req : option Request) (w : World),
    exists r w' evs,
      run o others (textToElevenlabsAudio cfg txt prefix req) w = (inr r, w')
      /\ log w' = log w ++ evs
      /\ (voice_env w' = voice_env w
          \/ exists voice bytes data picked,
               voice_env w' = Some voice
               /\ In (Ev GetVoices (Some data)) evs
               /\ fallback_voice data = Some picked
               /\ Json.toString picked = inr voice
               /\ In (Ev (PostTTS voice txt) (Some bytes)) evs).
Proof.
  intros cfg o others txt prefix req w. unfold textToElevenlabsAudio.
  destruct (env_set (ELEVENLABS_API_KEY cfg)) eqn:Hkey; simpl.
  2:{ exists None, w, []. rewrite app_nil_r. auto. }
  unfold exec; simpl.
  destruct (nonempty (trim (env_or (voice_env w) []))) eqn:Hv; simpl;
    oracle_cases; voice_leaf.
Qed.

(* ===================================================================== *)
(** * What is handed to Story.create *)
(* ===================================================================== *)

Section ObeysFacts.

Variable P : forall X, Eff X -> Prop.

Lemma Obeys_bind {A B} (Q : A -> Prop) (R : B -> Prop)
    (p : Prog A) (f : A -> Prog B) :
  Obeys P Q p -> (forall a, Q a -> Obeys P R (f a)) -> Obeys P R (bind p f).
Proof. intros Hp Hf. induction Hp; cbn [bind]; auto; constructor; auto. Qed.

Lemma Obeys_try_catch {A} (Q : A -> Prop) (p : Prog A) (h : exn -> Prog A) :
  Obeys P Q p -> (forall e, Obeys P Q (h e)) -> Obeys P Q (try_catch p h).
Proof.
  intros Hp Hh. induction Hp; cbn [try_catch]; auto; constructor; auto.
Qed.

End ObeysFacts.

(** A program that never creates obeys any requirement on what is created. *)
Lemma Uses_creating (allowed : Kind -> bool) (Q : Doc.StoryData -> Prop)
    {A} (p : Prog A) :
  allowed KCreate = false -> Uses allowed p ->
  Obeys (creating Q) (fun _ => True) p.
Proof.
  intros Hc Hp. induction Hp as [a|e|X e k He Hk IH]; constructor; auto.
  destruct e; cbn in *; try exact I. congruence.
Qed.

Lemma exec_create o d w x w' :
  exec o (Create d) w = (x, w') ->
  match x with
  | Some s => s = Doc.new_story (next_id w) d /\ Doc.validate d = true
  | None => True
  end.
Proof.
  unfold exec. cbn [perform].
  destruct (Doc.validate d && store_accepts o (tick w)) eqn:Hv.
  - intros [= <- <-]. apply andb_true_iff in Hv as [Hv _]. auto.
  - intros [= <- <-]. exact I.
Qed.

Lemma run_creating (Q : Doc.StoryData -> Prop) o others {A} (R : A -> Prop)
    (p : Prog A) :
  Obeys (creating Q) R p ->
  forall w r w' evs,
    run o others p w = (r, w') ->
    log w' = log w ++ evs ->
    Forall (stored_from Q) (created evs).
Proof.
  induction 1 as [a|e|X e k He Hk IH]; intros w r w' evs; cbn [run].
  - intros [= <- <-] Hl.
    assert (evs = []) as ->; [|constructor].
    apply (app_inv_head (log w)). now rewrite app_nil_r.
  - intros [= <- <-] Hl.
    assert (evs = []) as ->; [|constructor].
    apply (app_inv_head (log w)). now rewrite app_nil_r.
  - destruct (exec o e _) as [x w1] eqn:E. intros Hrun Hl.
    pose proof E as El. apply exec_log in El as [El Et]. cbn in El.
    pose proof Hrun as Hev. apply run_events in Hev as (evs' & Hl' & _).
    assert (evs = Ev e x :: evs') as ->.
    { apply (app_inv_head (log w)). rewrite <- Hl, Hl', El, <- app_assoc.
      reflexivity. }
    cbn [created flat_map]. apply Forall_app. split; [|eapply IH; eauto].
    destruct e; cbn [created_of]; try constructor.
    apply exec_create in E. destruct x as [s|]; constructor; [|constructor].
    destruct E as [-> Hv]. cbn in He. exists (next_id w), d. cbn. auto.
Qed.

Lemma nonempty_true (u : jsstring) : nonempty u = true -> u <> [].
Proof. destruct u; [discriminate|discriminate]. Qed.

Section EngineDocuments.

Variable JSON_parse : jsstring -> option jsvalue.
Variable cfg : Config.

Lemma synthesis_outcome (Q : Doc.StoryData -> Prop) key req i s :
  env_set (ELEVENLABS_API_KEY cfg) = true ->
  Obeys (creating Q) (fun a => audio_consistent cfg (fst a) (snd a))
    (try_catch
       (now <- await DateNow ;;
        audioUrl <- textToElevenlabsAudio cfg (content s)
                      (key ++ lit "-" ++ dec_N now ++ lit "-" ++ dec_nat i) req ;;
        match audioUrl with
        | Some u => if nonempty u then Ret (Some u, false) else Ret (None, true)
        | None => Ret (None, true)
        end)
       (fun _ => Ret (None, true))).
Proof.
  intros Hkey.
  apply Obeys_try_catch; [|intros; constructor; cbn; now rewrite Hkey].
  unfold await. cbn [bind]. apply Obeys_Vis; [exact I|]. intros now.
  eapply Obeys_bind.
  - eapply Uses_creating; [|apply textToElevenlabsAudio_uses]. reflexivity.
  - intros [url|] _; [|constructor; cbn; now rewrite Hkey].
    destruct (nonempty url) eqn:Hurl; constructor; cbn;
      [split; [now apply nonempty_true|reflexivity]|now rewrite Hkey].
Qed.

Lemma audio_for_consistent (Q : Doc.StoryData -> Prop) key req i s :
  Obeys (creating Q) (fun a => audio_consistent cfg (fst a) (snd a))
        (audio_for cfg key req i s).
Proof.
  unfold audio_for. unfold await at 1. cbn [bind].
  apply Obeys_Vis; [exact I|]. intros existingWithAudio.
  assert (Hfresh :
            Obeys (creating Q) (fun a => audio_consistent cfg (fst a) (snd a))
              match req with
              | Some _ =>
                  if env_set (ELEVENLABS_API_KEY cfg)
                  then
                    try_catch
                      (now <- await DateNow ;;
                       audioUrl <- textToElevenlabsAudio cfg (content s)
                                     (key ++ lit "-" ++ dec_N now ++ lit "-"
                                      ++ dec_nat i) req ;;
                       match audioUrl with
                       | Some u => if nonempty u then Ret (Some u, false)
                                   else Ret (None, true)
                       | None => Ret (None, true)
                       end)
                      (fun _ => Ret (None, true))
                  else Ret (None, env_set (ELEVENLABS_API_KEY cfg))
              | None => Ret (None, env_set (ELEVENLABS_API_KEY cfg))
              end).
  { destruct req as [r|]; [|constructor; reflexivity].
    destruct (env_set (ELEVENLABS_API_KEY cfg)) eqn:Hkey;
      [|constructor; cbn; now rewrite Hkey].
    now apply synthesis_outcome. }
  destruct (opt_bind existingWithAudio Doc.audioUrl) as [u|]; [|exact Hfresh].
  destruct (nonempty u) eqn:Hu; [|exact Hfresh].
  constructor. cbn. split; [now apply nonempty_true|reflexivity].
Qed.

Lemma save_one_creating cat key childAge req i s :
  parsed_for childAge s ->
  Obeys (creating (engine_document cfg cat key childAge)) (fun _ => True)
        (save_one cfg cat key req i s).
Proof.
  intros Hs. unfold save_one, await_or_throw. unfold await at 1.
  apply Obeys_try_catch; [|intros; constructor; exact I].
  cbn [bind]. apply Obeys_Vis; [exact I|]. intros [dup|]; [constructor; exact I|].
  eapply Obeys_bind; [apply audio_for_consistent|].
  intros a Ha. unfold await. cbn [bind]. apply Obeys_Vis.
  - cbn. exists s, (fst a), (snd a). auto.
  - intros [doc|]; constructor. exact I.
Qed.

Lemma save_loop_creating cat key childAge req toSave :
  Forall (parsed_for childAge) toSave ->
  forall i saved,
    Obeys (creating (engine_document cfg cat key childAge)) (fun _ => True)
          (save_loop cfg cat key req toSave i saved).
Proof.
  induction 1 as [|s rest Hs Hrest IH]; intros i saved; cbn [save_loop].
  - constructor. exact I.
  - eapply Obeys_bind; [now apply save_one_creating|]. intros r _. apply IH.
Qed.

Lemma parse_ai_text_parsed_for aiText childName childAge need :
  Forall (parsed_for childAge)
         (parse_ai_text JSON_parse aiText childName childAge need).
Proof.
  apply parse_ai_text_Forall.
  - intros. split; [apply candidate_of_line_limits|reflexivity].
  - intros obj c Hc. split; [eapply candidate_of_object_limits; eauto|].
    eapply candidate_of_object_ageRange; eauto.
Qed.

Lemma generateCategoryStories_creating key cat name age target req :
  STORY_CATEGORIES key = Some cat ->
  Obeys (creating (engine_document cfg cat key age)) (fun _ => True)
        (generateCategoryStories JSON_parse cfg key name age target req).
Proof.
  intros Hcat. unfold generateCategoryStories. rewrite Hcat.
  unfold await. cbn [bind]. apply Obeys_Vis; [exact I|]. intros existingCount.
  destruct (Z.max 0 (target - existingCount) <=? 0)%Z; [constructor; exact I|].
  eapply Obeys_bind with (Q := fun _ => True).
  { destruct (env_set (OPENAI_API_KEY cfg)); [|constructor; exact I].
    eapply Uses_creating; [|apply generateWithOpenAI_uses]. reflexivity. }
  intros aiText _.
  eapply Obeys_bind with (Q := Forall (parsed_for age)).
  { unfold parse_phase.
    destruct aiText; try destruct (Json.truthy _); constructor;
      try constructor. apply parse_ai_text_parsed_for. }
  intros parsed Hparsed.
  destruct (length parsed =? 0)%nat; [constructor; exact I|].
  cbn [bind]. apply Obeys_Vis; [exact I|]. intros latestCount.
  destruct (Z.max 0 (target - latestCount) <=? 0)%Z; [constructor; exact I|].
  apply save_loop_creating. now apply Forall_slice0.
Qed.

End EngineDocuments.

(* ===================================================================== *)
(** * The registry and the schema *)
(* ===================================================================== *)

Example registry_lookups :
  STORY_CATEGORIES (lit "learn-stories") = Some (Own learn_stories)
  /\ STORY_CATEGORIES (lit "constructor") = Some Inherited
  /\ STORY_CATEGORIES (lit "__proto__") = Some Inherited
  /\ STORY_CATEGORIES (lit "toString") = Some Inherited
  /\ STORY_CATEGORIES (lit "moon-stories") = None
  /\ STORY_CATEGORIES [] = None.
Proof. repeat split. Qed.

Lemma registry_values key cat :
  STORY_CATEGORIES key = Some (Own cat) ->
  Doc.mem key Doc.collection_enum = true
  /\ Doc.mem (c_theme cat) Doc.theme_enum = true
  /\ Doc.mem (c_category cat) Doc.category_enum = true.
Proof.
  unfold STORY_CATEGORIES, Doc.mem, Doc.collection_enum. cbn [existsb].
  destruct (str_eqb key (lit "mom-stories"));
    [intros [= <-]; repeat split; reflexivity|].
  destruct (str_eqb key (lit "grandma-stories"));
    [intros [= <-]; repeat split; reflexivity|].
  destruct (str_eqb key (lit "now-stories"));
    [intros [= <-]; repeat split; reflexivity|].
  destruct (str_eqb key (lit "learn-stories"));
    [intros [= <-]; repeat split; reflexivity|].
  destruct (existsb (str_eqb key) Object_prototype_keys); discriminate.
Qed.

(** X11: the keys of [STORY_CATEGORIES] are exactly the values the schema
    allows for [generatedForCollection], and the theme and category of
    every registered collection are values of the schema's enumerations;
    [category_keys] lists the same keys. *)
Theorem registry_agrees_with_schema :
  forall key : jsstring,
    (Doc.mem key Doc.collection_enum = true
     <-> exists cat, STORY_CATEGORIES key = Some (Own cat))
    /\ (forall cat, STORY_CATEGORIES key = Some (Own cat) ->
          Doc.mem (c_theme cat) Doc.theme_enum = true
          /\ Doc.mem (c_category cat) Doc.category_enum = true)
    /\ (In key category_keys <-> exists cat, STORY_CATEGORIES key = Some (Own cat)).
Proof.
  intros key. split; [|split].
  - split.
    + unfold STORY_CATEGORIES, Doc.mem, Doc.collection_enum. cbn [existsb].
      destruct (str_eqb key (lit "mom-stories")); [eauto|].
      destruct (str_eqb key (lit "grandma-stories")); [eauto|].
      destruct (str_eqb key (lit "now-stories")); [eauto|].
      destruct (str_eqb key (lit "learn-stories")); [eauto|]. discriminate.
    + intros [cat Hcat]. now apply registry_values in Hcat.
  - intros cat Hcat. now apply registry_values in Hcat.
  - split.
    + intros Hin. cbn in Hin.
      destruct Hin as [<-|[<-|[<-|[<-|[]]]]]; eexists; reflexivity.
    + intros [cat Hcat]. unfold STORY_CATEGORIES in Hcat.
      destruct (str_eqb key (lit "mom-stories")) eqn:E1;
        [apply str_eqb_eq in E1; subst; cbn; auto|].
      destruct (str_eqb key (lit "grandma-stories")) eqn:E2;
        [apply str_eqb_eq in E2; subst; cbn; auto|].
      destruct (str_eqb key (lit "now-stories")) eqn:E3;
        [apply str_eqb_eq in E3; subst; cbn; auto|].
      destruct (str_eqb key (lit "learn-stories")) eqn:E4;
        [apply str_eqb_eq in E4; subst; cbn; auto 6|].
      destruct (existsb (str_eqb key) Object_prototype_keys); discriminate.
Qed.

Lemma age_range_valid childAge :
  Doc.between 2 12 (min (age_range_for childAge))
  && Doc.between 2 12 (max (age_range_for childAge))
  = ((0 <=? childAge) && (childAge <=? 14))%Z.
Proof.
  unfold Doc.between, age_range_for. cbn [min max].
  destruct (Z.leb_spec 0 childAge), (Z.leb_spec childAge 14);
    cbn [andb];
    repeat match goal with
           | |- context [(?a <=? ?b)%Z] => destruct (Z.leb_spec a b)
           end; cbn [andb]; try reflexivity; lia.
Qed.

Lemma candidate_validate cat key childAge c audio pending :
  STORY_CATEGORIES key = Some (Own cat) ->
  parsed_for childAge c ->
  Doc.validate (storyData_of cat key c audio pending)
  = nonempty (trim (title c)) && nonempty (description c)
    && nonempty (content c)
    && ((0 <=? childAge) && (childAge <=? 14))%Z.
Proof.
  intros Hcat ((Ht & Hd & Hdur) & Hage).
  apply registry_values in Hcat as (Hk & Hth & Hc).
  unfold Doc.validate, storyData_of.
  cbn [Doc.d_title Doc.d_description Doc.d_content Doc.d_category Doc.d_theme
       Doc.d_generatedForCollection Doc.d_ageRange Doc.d_duration
       theme_of category_of Doc.one_of].
  rewrite Hk, Hth, Hc, Hage.
  assert (Hlt : (length (trim (title c)) <=? 100)%nat = true).
  { apply Nat.leb_le. pose proof (trim_length (title c)). lia. }
  assert (Hld : (length (description c) <=? 500)%nat = true)
    by (apply Nat.leb_le; lia).
  assert (Hdu : Doc.between 1 60 (duration c) = true).
  { unfold Doc.between. apply andb_true_iff. split; apply Z.leb_le; lia. }
  rewrite Hlt, Hld, Hdu, !andb_true_r.
  rewrite <- age_range_valid. now rewrite !andb_assoc.
Qed.

(** X12: for a registered collection, the schema accepts the document
    built from a parsed candidate exactly when its trimmed title, its
    description and its content are not empty and the child's age lies
    between 0 and 14 (the ages whose range of plus or minus two fits
    2..12); no other validator can fail. *)
Theorem schema_rejects_candidate_only_when_blank_or_age :
  forall (JSON_parse : jsstring -> option jsvalue)
         (aiText childName key : jsstring) (cat : Category) (childAge need : Z)
         (c : Candidate) (audio : option jsstring) (pending : bool),
    STORY_CATEGORIES key = Some (Own cat) ->
    In c (parse_ai_text JSON_parse aiText childName childAge need) ->
    Doc.validate (storyData_of cat key c audio pending)
    = nonempty (trim (title c)) && nonempty (description c)
      && nonempty (content c)
      && ((0 <=? childAge) && (childAge <=? 14))%Z.
Proof.
  intros JSON_parse aiText childName key cat childAge need c audio pending
         Hcat Hin.
  apply candidate_validate; [exact Hcat|].
  pose proof (parse_ai_text_parsed_for JSON_parse aiText childName childAge need)
    as Hall.
  rewrite Forall_forall in Hall. now apply Hall.
Qed.

Lemma schema_rejects_candidate_witness :
  let c := {| title := lit "Moon"; description := lit "A trip to the moon";
              content := lit "Once upon a time there was a rocket - 7 min";
              duration := 7; ageRange := {| min := 3; max := 7 |} |} in
  STORY_CATEGORIES (lit "learn-stories") = Some (Own learn_stories)
  /\ In c (parse_ai_text no_json moon_line (lit "Mia") 5 1)
  /\ Doc.validate (storyData_of learn_stories (lit "learn-stories") c None false)
     = nonempty (trim (title c)) && nonempty (description c)
       && nonempty (content c) && ((0 <=? 5) && (5 <=? 14))%Z.
Proof.
  intros c.
  assert (Hin : In c (parse_ai_text no_json moon_line (lit "Mia") 5 1))
    by (left; vm_compute; reflexivity).
  split; [reflexivity|]. split; [exact Hin|].
  exact (@schema_rejects_candidate_only_when_blank_or_age
           no_json moon_line (lit "Mia") (lit "learn-stories") learn_stories
           5 1 c None false eq_refl Hin).
Defined.

(* ===================================================================== *)
(** * The records the engine stores *)
(* ===================================================================== *)

Lemma stored_engine_record cfg key cat childAge d :
  STORY_CATEGORIES key = Some (Own cat) ->
  stored_from (engine_document cfg cat key childAge) d ->
  engine_record cfg cat childAge d /\ (0 <= childAge <= 14)%Z.
Proof.
  intros Hcat (id & sd & -> & Hdoc & Hv).
  destruct Hdoc as (c & audio & pending & -> & Hc & Haudio).
  rewrite (@candidate_validate cat key childAge c audio pending Hcat Hc) in Hv.
  apply andb_true_iff in Hv as [Hv Hage].
  apply andb_true_iff in Hv as [Hv Hcont].
  apply andb_true_iff in Hv as [Htitle Hdesc].
  apply andb_true_iff in Hage as [Hlo Hhi].
  apply Z.leb_le in Hlo, Hhi.
  destruct Hc as ((Ht & Hd & Hdur) & Hrange).
  split; [|lia].
  unfold engine_record, Doc.new_story, storyData_of.
  cbn [Doc.theme Doc.category Doc.thumbnail Doc.stats_totalPlays
       Doc.stats_totalCompletions Doc.ageRange Doc.title Doc.description
       Doc.content Doc.duration Doc.audioUrl Doc.audioPending
       Doc.d_title Doc.d_description Doc.d_content Doc.d_category Doc.d_theme
       Doc.d_ageRange Doc.d_duration Doc.d_thumbnail Doc.d_stats_totalPlays
       Doc.d_audioUrl Doc.d_audioPending
       theme_of category_of icon_of Doc.or_default].
  pose proof (trim_length (title c)).
  repeat split; auto; try lia; try (now apply nonempty_true).
Qed.

Section StoredRecords.

Variable JSON_parse : jsstring -> option jsvalue.
Variable cfg : Config.
Variable o : Oracle.
Variable others : Interference.

Lemma replenish_stored key cat name age target req w r w' evs :
  STORY_CATEGORIES key = Some (Own cat) ->
  run o others (generateCategoryStories JSON_parse cfg key name age target req) w
  = (r, w') ->
  log w' = log w ++ evs ->
  Forall (engine_record cfg cat age) (created evs)
  /\ (created evs <> [] -> (0 <= age <= 14)%Z).
Proof.
  intros Hcat Hrun Hlog.
  assert (Hall : Forall (stored_from (engine_document cfg cat key age))
                        (created evs)).
  { eapply run_creating; [|exact Hrun|exact Hlog].
    now apply generateCategoryStories_creating. }
  split.
  - eapply Forall_impl; [|exact Hall].
    intros d Hd. eapply stored_engine_record; eauto.
  - destruct (created evs) as [|d ds]; [congruence|]. intros _.
    inversion Hall as [|? ? Hd _]; subst.
    eapply stored_engine_record; eauto.
Qed.

End StoredRecords.

(** X13: every record the engine inserts, under any interference, carries
    the theme, category and icon of its collection, zero plays and
    completions, the age range computed from the child's age, a non-empty
    title (at most 100), description (at most 500) and content, a duration
    between 5 and 20, and either a non-empty audio URL with audioPending
    false or no URL with audioPending equal to whether speech synthesis is
    configured. *)
Theorem replenish_stores_complete_records :
  forall (JSON_parse : jsstring -> option jsvalue) (cfg : Config) (o : Oracle)
         (others : Interference) (key name : jsstring) (cat : Category)
         (age target : Z) (req : option Request) (w : World),
    STORY_CATEGORIES key = Some (Own cat) ->
    exists evs,
      log (snd (run o others
                  (generateCategoryStories JSON_parse cfg key name age target req) w))
      = log w ++ evs
      /\ Forall (engine_record cfg cat age) (created evs).
Proof.
  intros JSON_parse cfg o others key name cat age target req w Hcat.
  destruct (run o others
              (generateCategoryStories JSON_parse cfg key name age target req) w)
    as [r w'] eqn:Hrun.
  pose proof Hrun as Hev. apply run_events in Hev as (evs & Hlog & _).
  exists evs. cbn [snd]. split; [exact Hlog|].
  eapply replenish_stored; eauto.
Qed.

Lemma replenish_stores_complete_records_witness :
  STORY_CATEGORIES (lit "learn-stories") = Some (Own learn_stories)
  /\ exists evs,
       log (snd (run demo_oracle alone demo_call empty_world))
       = log empty_world ++ evs
       /\ Forall (engine_record demo_cfg learn_stories 5) (created evs).
Proof.
  split; [reflexivity|].
  exact (@replenish_stores_complete_records no_json demo_cfg demo_oracle alone
           (lit "learn-stories") (lit "friend") learn_stories 5 1 None
           empty_world eq_refl).
Defined.

(** X14: for a child's age below 0 or above 14 the engine never inserts
    anything: the age range it computes leaves 2..12, the schema rejects
    every document, and the call returns the empty list (or throws the
    TypeError of a non-string answer) with the store unchanged. *)
Theorem replenish_stores_nothing_for_ages_outside_0_14 :
  forall (JSON_parse : jsstring -> option jsvalue) (cfg : Config) (o : Oracle)
         (others : Interference) (key name : jsstring) (cat : Category)
         (age target : Z) (req : option Request) (w : World),
    STORY_CATEGORIES key = Some (Own cat) ->
    (age < 0 \/ 14 < age)%Z ->
    let out :=
      run o others
          (generateCategoryStories JSON_parse cfg key name age target req) w in
    (fst out = inr [] \/ fst out = inl TypeError)
    /\ exists evs,
         log (snd out) = log w ++ evs
         /\ created evs = []
         /\ (others = alone -> store (snd out) = store w).
Proof.
  intros JSON_parse cfg o others key name cat age target req w Hcat Hage out.
  subst out.
  destruct (run o others
              (generateCategoryStories JSON_parse cfg key name age target req) w)
    as [r w'] eqn:Hrun.
  pose proof Hrun as Hev. apply run_events in Hev as (evs & Hlog & _).
  cbn [fst snd].
  assert (Hnone : created evs = []).
  { destruct (created evs) as [|d ds] eqn:Hc; [reflexivity|].
    assert ((0 <= age <= 14)%Z); [|lia].
    eapply replenish_stored; eauto. rewrite Hc. discriminate. }
  split.
  - destruct (engine_run JSON_parse cfg o others key name age target req w
                Hcat Hrun) as (evs' & Hlog' & Hcases).
    assert (evs = Ev (CountDocuments (Doc.active_ai_in key))
                     (Doc.countDocuments (Doc.active_ai_in key)
                        (others (tick w) (store w))) :: evs') as Hevs.
    { apply (app_inv_head (log w)). now rewrite <- Hlog, Hlog'. }
    destruct Hcases as [(_ & _ & ->)|[(_ & _ & Hr)|(_ & Hrec)]]; auto.
    destruct Hrec as (before & latestCount & after & aiText & -> & _ & _ & Hrest).
    cbv zeta in Hrest. destruct Hrest as (_ & [(_ & _ & ->)|Hsave]); auto.
    destruct Hsave as (_ & _ & _ & _ & -> & _).
    rewrite Hevs in Hnone. cbn [created flat_map created_of app] in Hnone.
    fold (created (before ++ Ev (CountDocuments (Doc.active_ai_in key))
                                latestCount :: after)) in Hnone.
    rewrite created_app in Hnone. apply app_eq_nil in Hnone as [_ Hnone].
    cbn [created flat_map created_of app] in Hnone. fold (created after) in Hnone.
    rewrite Hnone. auto.
  - exists evs. split; [exact Hlog|]. split; [exact Hnone|].
    intros ->.
    assert (Hst : store w' = replay evs (store w))
      by (eapply run_alone_store; eauto).
    rewrite replay_no_mutation, Hnone, app_nil_r in Hst; [exact Hst|].
    apply engine_kind_no_mutation.
    eapply run_uses; [|exact Hrun|exact Hlog].
    apply generateCategoryStories_uses.
Qed.

Lemma replenish_stores_nothing_witness :
  STORY_CATEGORIES (lit "learn-stories") = Some (Own learn_stories)
  /\ (20 < 0 \/ 14 < 20)%Z
  /\ fst (run demo_oracle alone
            (generateCategoryStories no_json demo_cfg (lit "learn-stories")
               (lit "friend") 20 1 None) empty_world) = inr []
  /\ store (snd (run demo_oracle alone
            (generateCategoryStories no_json demo_cfg (lit "learn-stories")
               (lit "friend") 20 1 None) empty_world)) = [].
Proof.
  assert (Hage : (20 < 0 \/ 14 < 20)%Z) by (right; lia).
  split; [reflexivity|]. split; [exact Hage|].
  destruct (@replenish_stores_nothing_for_ages_outside_0_14
              no_json demo_cfg demo_oracle alone (lit "learn-stories")
              (lit "friend") learn_stories 20 1 None empty_world eq_refl Hage)
    as (Hr & evs & _ & _ & Hst).
  split; [|exact (Hst eq_refl)].
  destruct Hr as [Hr|Hr]; [exact Hr|].
  vm_compute in Hr. discriminate.
Defined.

(** X15: a call of the engine made without a request object, or without
    an ElevenLabs key, performs no operation of speech synthesis: no
    synthesis or listing request, no file or directory operation, no read
    of the clock or of the voice setting. *)
Theorem replenish_without_request_never_synthesizes :
  forall (JSON_parse : jsstring -> option jsvalue) (cfg : Config) (o : Oracle)
         (others : Interference) (key name : jsstring) (age target : Z)
         (req : option Request) (w : World),
    req = None \/ env_set (ELEVENLABS_API_KEY cfg) = false ->
    exists evs,
      log (snd (run o others
                  (generateCategoryStories JSON_parse cfg key name age target req) w))
      = log w ++ evs
      /\ calls is_speech evs = 0%nat.
Proof.
  intros JSON_parse cfg o others key name age target req w Hreq.
  destruct (run o others
              (generateCategoryStories JSON_parse cfg key name age target req) w)
    as [r w'] eqn:Hrun.
  pose proof Hrun as Hev. apply run_events in Hev as (evs & Hlog & _).
  exists evs. cbn [snd]. split; [exact Hlog|].
  assert (calls is_speech evs <= 0)%nat; [|lia].
  eapply run_atmost; eauto. now apply generateCategoryStories_no_speech.
Qed.

Lemma replenish_without_request_witness :
  (@None Request = None \/ env_set (ELEVENLABS_API_KEY demo_cfg) = false)
  /\ exists evs,
       log (snd (run demo_oracle alone demo_call empty_world))
       = log empty_world ++ evs
       /\ calls is_speech evs = 0%nat.
Proof.
  split; [left; reflexivity|].
  exact (@replenish_without_request_never_synthesizes no_json demo_cfg
           demo_oracle alone (lit "learn-stories") (lit "friend") 5 1 None
           empty_world (or_introl eq_refl)).
Defined.

(** X16: one candidate, with no other request in between.  If an active
    record of the collection has the same trimmed title, the candidate
    costs that one lookup and nothing is stored.  Otherwise the audio
    lookup takes the first record, in the order of the store, that has the
    same title or content and an [audioUrl] that is not null.  When that
    URL is not empty the document is created with it and audioPending
    false, with no synthesis attempt: the operations are the two lookups
    and the create.  When it is the empty string nothing is reused,
    whatever the later records hold: without a request object the document
    is created without audio. *)
Theorem save_one_skips_duplicates_and_reuses_audio :
  forall (cfg : Config) (o : Oracle) (cat : Category) (key : jsstring)
         (req : option Request) (i : nat) (s : Candidate) (w : World),
    (forall existing,
        Doc.findOne (dup_filter key s) (store w) = Some existing ->
        exists w',
          run o alone (save_one cfg cat key req i s) w = (inr None, w')
          /\ log w' = log w ++ [Ev (FindOne (dup_filter key s)) (Some existing)]
          /\ store w' = store w)
    /\ (forall existing u,
           Doc.findOne (dup_filter key s) (store w) = None ->
           Doc.findOne (audio_filter s) (store w) = Some existing ->
           Doc.audioUrl existing = Some u ->
           u <> [] ->
           let d := storyData_of cat key s (Some u) false in
           exists r w',
             run o alone (save_one cfg cat key req i s) w = (inr r, w')
             /\ log w'
                = log w ++ [Ev (FindOne (dup_filter key s)) None;
                            Ev (FindOne (audio_filter s)) (Some existing);
                            Ev (Create d)
                               (if Doc.validate d && store_accepts o (2 + tick w)
                                then Some (Doc.new_story (next_id w) d)
                                else None)]
             /\ r = (if Doc.validate d && store_accepts o (2 + tick w)
                     then Some (Doc.new_story (next_id w) d) else None))
    /\ (forall existing,
           req = None ->
           Doc.findOne (dup_filter key s) (store w) = None ->
           Doc.findOne (audio_filter s) (store w) = Some existing ->
           Doc.audioUrl existing = Some [] ->
           let d := storyData_of cat key s None
                      (env_set (ELEVENLABS_API_KEY cfg)) in
           exists r w',
             run o alone (save_one cfg cat key req i s) w = (inr r, w')
             /\ log w'
                = log w ++ [Ev (FindOne (dup_filter key s)) None;
                            Ev (FindOne (audio_filter s)) (Some existing);
                            Ev (Create d)
                               (if Doc.validate d && store_accepts o (2 + tick w)
                                then Some (Doc.new_story (next_id w) d)
                                else None)]
             /\ r = (if Doc.validate d && store_accepts o (2 + tick w)
                     then Some (Doc.new_story (next_id w) d) else None)).
Proof.
  intros cfg o cat key req i s w. split; [|split].
  - intros existing Hdup. unfold save_one.
    cbn [bind try_catch await run]. unfold exec at 1.
    cbn [perform store with_store].
    change (alone (tick w) (store w)) with (store w).
    unfold dup_filter in Hdup. rewrite Hdup. cbn [bind try_catch run].
    eexists. split; [reflexivity|]. split; reflexivity.
  - intros existing u Hdup Haudio Hurl Hu d. unfold save_one, audio_for.
    cbn [bind try_catch await run]. unfold exec at 1.
    cbn [perform store with_store].
    change (alone (tick w) (store w)) with (store w).
    unfold dup_filter in Hdup. rewrite Hdup.
    cbn [bind try_catch run]. unfold exec at 1.
    cbn [perform store with_store ticked tick].
    change (alone (S (tick w)) (store w)) with (store w).
    unfold audio_filter in Haudio. rewrite Haudio.
    cbn [opt_bind]. rewrite Hurl.
    assert (Hne : nonempty u = true) by (destruct u; [congruence|reflexivity]).
    rewrite Hne. cbn [bind try_catch await_or_throw await run fst snd].
    unfold exec at 1. cbn [perform store with_store ticked tick next_id].
    fold d. change (2 + tick w)%nat with (S (S (tick w))).
    destruct (Doc.validate d && store_accepts o (S (S (tick w))));
      cbn [bind try_catch run]; eexists _, _;
      (split; [reflexivity|]); cbn [log ticked with_store];
      rewrite <- !app_assoc; split; reflexivity.
  - intros existing -> Hdup Haudio Hurl d. unfold save_one, audio_for.
    cbn [bind try_catch await run]. unfold exec at 1.
    cbn [perform store with_store].
    change (alone (tick w) (store w)) with (store w).
    unfold dup_filter in Hdup. rewrite Hdup.
    cbn [bind try_catch run]. unfold exec at 1.
    cbn [perform store with_store ticked tick].
    change (alone (S (tick w)) (store w)) with (store w).
    unfold audio_filter in Haudio. rewrite Haudio.
    cbn [opt_bind]. rewrite Hurl.
    cbn [nonempty bind try_catch await_or_throw await run fst snd].
    unfold exec at 1. cbn [perform store with_store ticked tick next_id].
    fold d. change (2 + tick w)%nat with (S (S (tick w))).
    destruct (Doc.validate d && store_accepts o (S (S (tick w))));
      cbn [bind try_catch run]; eexists _, _;
      (split; [reflexivity|]); cbn [log ticked with_store];
      rewrite <- !app_assoc; split; reflexivity.
Qed.

Lemma save_one_witness :
  let duplicate :=
    run demo_oracle alone
        (save_one demo_cfg now_stories (lit "now-stories") None 0 moon_candidate)
        studio in
  let reused :=
    run demo_oracle alone
        (save_one demo_cfg learn_stories (lit "learn-stories") None 0
           moon_candidate) studio in
  let muted :=
    run demo_oracle alone
        (save_one demo_cfg learn_stories (lit "learn-stories") None 0
           moon_candidate) muted_studio in
  (fst duplicate = inr None /\ store (snd duplicate) = store studio)
  /\ (exists d, fst reused = inr (Some d) /\ Doc.audioUrl d = Some moon_url
                /\ Doc.audioPending d = false)
  /\ (exists d, fst muted = inr (Some d) /\ Doc.audioUrl d = None).
Proof.
  intros duplicate reused muted.
  pose proof (@save_one_skips_duplicates_and_reuses_audio demo_cfg demo_oracle
                now_stories (lit "now-stories") None 0 moon_candidate studio)
    as (Hdup & _ & _).
  pose proof (@save_one_skips_duplicates_and_reuses_audio demo_cfg demo_oracle
                learn_stories (lit "learn-stories") None 0 moon_candidate studio)
    as (_ & Hreuse & _).
  pose proof (@save_one_skips_duplicates_and_reuses_audio demo_cfg demo_oracle
                learn_stories (lit "learn-stories") None 0 moon_candidate
                muted_studio)
    as (_ & _ & Hmuted).
  split; [|split].
  - destruct (Hdup (recording 1 (Some moon_url)) eq_refl) as (w' & Hrun & _ & Hst).
    unfold duplicate. rewrite Hrun. auto.
  - destruct (Hreuse (recording 1 (Some moon_url)) moon_url eq_refl eq_refl
                eq_refl ltac:(discriminate)) as (r & w' & Hrun & _ & Hr).
    unfold reused. rewrite Hrun. cbn [fst]. rewrite Hr.
    eexists. split; [reflexivity|]. split; reflexivity.
  - destruct (Hmuted (recording 1 (Some [])) eq_refl eq_refl eq_refl eq_refl)
      as (r & w' & Hrun & _ & Hr).
    unfold muted. rewrite Hrun. cbn [fst]. rewrite Hr.
    eexists. split; reflexivity.
Defined.

(* ===================================================================== *)
(** * One call of the engine, alone *)
(* ===================================================================== *)

Section AloneSummary.

Variable JSON_parse : jsstring -> option jsvalue.
Variable cfg : Config.
Variable o : Oracle.

Lemma replenish_alone_summary key cat name age target req w :
  STORY_CATEGORIES key = Some cat ->
  let out :=
    run o alone (generateCategoryStories JSON_parse cfg key name age target req) w in
  exists docs,
    store (snd out) = store w ++ docs
    /\ Forall (fun d => Doc.isActive d = true /\ Doc.isAIGenerated d = true
                        /\ Doc.generatedForCollection d = Some key) docs
    /\ (Z.of_nat (length docs) <= Z.max 0 (target - active_count key (store w)))%Z
    /\ (fst out = inr docs \/ (docs = [] /\ fst out = inl TypeError))
    /\ ((target <= active_count key (store w))%Z -> fst out = inr []).
Proof.
  intros Hcat out. subst out.
  destruct (run o alone
              (generateCategoryStories JSON_parse cfg key name age target req) w)
    as [r w'] eqn:Hrun.
  destruct (engine_run JSON_parse cfg o alone key name age target req w Hcat Hrun)
    as (evs & Hlog & Hcases).
  assert (Hst : store w'
                = replay (Ev (CountDocuments (Doc.active_ai_in key))
                             (Doc.countDocuments (Doc.active_ai_in key)
                                (alone (tick w) (store w))) :: evs)
                         (store w))
    by (eapply run_alone_store; eauto).
  assert (Hmut : forall l, no_mutation l ->
                   no_mutation (Ev (CountDocuments (Doc.active_ai_in key))
                                   (Doc.countDocuments (Doc.active_ai_in key)
                                      (alone (tick w) (store w))) :: l)).
  { intros l Hl. unfold no_mutation. constructor; [reflexivity|exact Hl]. }
  cbn [fst snd]. unfold active_count. change (alone (tick w) (store w)) with (store w) in *.
  destruct Hcases as [(Hsat & -> & ->)|[(Hneed & Hq & Hr)|(Hneed & Hrec)]].
  - exists []. cbn in Hst. rewrite app_nil_r.
    split; [exact Hst|]. split; [constructor|]. split; [cbn; lia|]. auto.
  - exists []. rewrite app_nil_r.
    pose proof Hq as Hq'. apply quiet_events in Hq' as (Hc & _ & Hm & _).
    rewrite replay_no_mutation in Hst by (apply Hmut; exact Hm).
    cbn [created flat_map created_of app] in Hst. fold (created evs) in Hst.
    rewrite Hc, app_nil_r in Hst.
    split; [exact Hst|]. split; [constructor|]. split; [cbn; lia|].
    split; [destruct Hr as [->| ->]; auto|]. intros. lia.
  - destruct Hrec as (before & latestCount & after & aiText & -> & Hq & _ & Hrest).
    cbv zeta in Hrest. destruct Hrest as (_ & Hsave).
    pose proof Hq as Hq'. apply quiet_events in Hq' as (Hc & _ & Hm & _).
    set (need := Z.max 0 (target - Doc.countDocuments (Doc.active_ai_in key) (store w))) in *.
    set (parsed := parse_ai_text JSON_parse aiText name age need) in *.
    assert (Hparsed : (Z.of_nat (length parsed) <= need)%Z)
      by (apply parse_ai_text_length; exact Hneed).
    destruct Hsave as [(_ & -> & ->)|(_ & _ & Hma & _ & -> & HP & _)].
    + exists []. rewrite app_nil_r.
      rewrite replay_no_mutation in Hst.
      * cbn [created flat_map created_of app] in Hst.
        fold (created (before ++ [Ev (CountDocuments (Doc.active_ai_in key))
                                     latestCount])) in Hst.
        rewrite created_app, Hc in Hst. cbn in Hst. rewrite app_nil_r in Hst.
        split; [exact Hst|]. split; [constructor|]. split; [cbn; lia|]. auto.
      * apply Hmut. apply Forall_app. split; [exact Hm|].
        constructor; [reflexivity|constructor].
    + exists (created after).
      rewrite replay_no_mutation in Hst.
      * cbn [created flat_map created_of app] in Hst.
        fold (created (before ++ Ev (CountDocuments (Doc.active_ai_in key))
                                    latestCount :: after)) in Hst.
        rewrite created_app, Hc in Hst.
        cbn [created flat_map created_of app] in Hst. fold (created after) in Hst.
        split; [exact Hst|]. split; [eapply Picked_created; exact HP|].
        split; [|split; [auto|intros; subst need; lia]].
        pose proof (Picked_length HP) as Hlen.
        pose proof (slice0_length_le (Z.max 0 (target - latestCount)) parsed).
        lia.
      * apply Hmut. apply Forall_app. split; [exact Hm|].
        constructor; [reflexivity|exact Hma].
Qed.

End AloneSummary.

Lemma active_count_app key a b :
  active_count key (a ++ b) = (active_count key a + active_count key b)%Z.
Proof. apply countDocuments_app. Qed.

Lemma active_count_nonneg key st : (0 <= active_count key st)%Z.
Proof. unfold active_count, Doc.countDocuments. lia. Qed.

Lemma active_count_own key docs :
  Forall (fun d => Doc.isActive d = true /\ Doc.isAIGenerated d = true
                   /\ Doc.generatedForCollection d = Some key) docs ->
  active_count key docs = Z.of_nat (length docs).
Proof.
  intros H. unfold active_count. apply countDocuments_all.
  now apply created_match_filter.
Qed.

Lemma active_count_other key key' docs :
  key' <> key ->
  Forall (fun d => Doc.isActive d = true /\ Doc.isAIGenerated d = true
                   /\ Doc.generatedForCollection d = Some key) docs ->
  active_count key' docs = 0%Z.
Proof.
  intros Hne H. unfold active_count, Doc.countDocuments.
  induction H as [|d ds (Ha & Hg & Hk) Hds IH]; [reflexivity|].
  cbn [filter]. unfold Doc.matches at 1, Doc.active_ai_in. cbn [forallb Doc.holds].
  rewrite Hk.
  destruct (str_eqb key key') eqn:E;
    [apply str_eqb_eq in E; congruence|]. cbn [andb]. exact IH.
Qed.

(* ===================================================================== *)
(** * Consumption followed by its replenishment *)
(* ===================================================================== *)

Lemma matches_deactivated key s :
  Doc.matches (Doc.active_ai_in key)
              (Doc.apply_change (Doc.SetIsActive false) s) = false.
Proof.
  unfold Doc.matches, Doc.active_ai_in. cbn.
  destruct (Doc.generatedForCollection s) as [k|]; [|reflexivity].
  destruct (str_eqb k key); reflexivity.
Qed.

Lemma active_count_cons key s st :
  active_count key (s :: st)
  = ((if Doc.matches (Doc.active_ai_in key) s then 1 else 0)
     + active_count key st)%Z.
Proof.
  unfold active_count, Doc.countDocuments. cbn [filter].
  destruct (Doc.matches (Doc.active_ai_in key) s); cbn [length]; lia.
Qed.

Lemma active_count_deactivate key id st :
  (active_count key (Doc.update id [Doc.SetIsActive false] st)
   <= active_count key st)%Z.
Proof.
  induction st as [|s st IH]; [cbn; lia|].
  change (Doc.update id [Doc.SetIsActive false] (s :: st))
    with ((if Nat.eqb (Doc._id s) id
           then Doc.apply_change (Doc.SetIsActive false) s else s)
          :: Doc.update id [Doc.SetIsActive false] st).
  rewrite !active_count_cons.
  destruct (Nat.eqb (Doc._id s) id).
  - rewrite matches_deactivated.
    destruct (Doc.matches (Doc.active_ai_in key) s); lia.
  - lia.
Qed.

Lemma active_count_deactivate_strict key id st s :
  In s st -> Doc._id s = id ->
  Doc.matches (Doc.active_ai_in key) s = true ->
  (active_count key (Doc.update id [Doc.SetIsActive false] st)
   < active_count key st)%Z.
Proof.
  intros Hin Hid Hm. induction st as [|x st IH]; [contradiction|].
  change (Doc.update id [Doc.SetIsActive false] (x :: st))
    with ((if Nat.eqb (Doc._id x) id
           then Doc.apply_change (Doc.SetIsActive false) x else x)
          :: Doc.update id [Doc.SetIsActive false] st).
  rewrite !active_count_cons.
  pose proof (active_count_deactivate key id st) as Hle.
  destruct Hin as [->|Hin].
  - rewrite Hid, Nat.eqb_refl, matches_deactivated, Hm. lia.
  - specialize (IH Hin).
    destruct (Nat.eqb (Doc._id x) id).
    + rewrite matches_deactivated.
      destruct (Doc.matches (Doc.active_ai_in key) x); lia.
    + lia.
Qed.

Lemma active_count_delete key id st :
  (active_count key (Doc.deleteOne id st) <= active_count key st)%Z.
Proof.
  induction st as [|s st IH]; cbn [Doc.deleteOne]; [lia|].
  destruct (Nat.eqb (Doc._id s) id); rewrite ?active_count_cons.
  - destruct (Doc.matches (Doc.active_ai_in key) s); lia.
  - lia.
Qed.

Lemma active_count_member key s st :
  In s st -> Doc.matches (Doc.active_ai_in key) s = true ->
  (1 <= active_count key st)%Z.
Proof.
  intros Hin Hm. induction st as [|x st IH]; [contradiction|].
  rewrite active_count_cons. pose proof (active_count_nonneg key st).
  destruct Hin as [->|Hin]; [rewrite Hm; lia|].
  specialize (IH Hin). destruct (Doc.matches (Doc.active_ai_in key) x); lia.
Qed.

Lemma generated_matches s k :
  Doc.isActive s = true -> Doc.isAIGenerated s = true ->
  Hook.collection_of s = Some k ->
  Doc.matches (Doc.active_ai_in k) s = true.
Proof.
  intros Ha Hg Hk. unfold Hook.collection_of in Hk.
  unfold Doc.matches, Doc.active_ai_in. cbn. rewrite Ha, Hg.
  destruct (Doc.generatedForCollection s) as [k'|]; [|discriminate].
  destruct (nonempty k'); [|discriminate]. injection Hk as ->.
  now rewrite str_eqb_refl.
Qed.



Section Rejected.

Variable o : Oracle.
Variable others : Interference.

(** routes/child.js, a child that breaks its schema and a request that
    counts play time: the child's save is rejected, the answer is 500 and
    the story is not touched. *)
Lemma complete_for_child_rejected_child child timeSpent w id s n :
  Doc.findOne [Doc.IdIs id; Doc.ActiveIs true] (others (tick w) (store w))
  = Some s ->
  Hook.counts_time timeSpent = Some n ->
  Hook.valid_child child = false ->
  exists w',
    run o others (Hook.complete_for_child child timeSpent id) w
    = (inr Hook.ServerError, w')
    /\ log w' = log w ++ [Ev (FindOne [Doc.IdIs id; Doc.ActiveIs true]) (Some s)]
    /\ store w' = others (tick w) (store w).
Proof.
  intros Hfind Htime Hchild.
  unfold Hook.complete_for_child. cbn [bind await run try_catch]. unfold exec at 1.
  cbn [perform store with_store]. rewrite Hfind. cbn [ticked].
  unfold Hook.update_child_stats. rewrite Htime, Hchild. cbn.
  eexists. split; [reflexivity|]. cbn. split; reflexivity.
Qed.


End Rejected.


Section Consumption.

Variable JSON_parse : jsstring -> option jsvalue.
Variable cfg : Config.
Variable o : Oracle.

(** What one engine call, alone, does to the count of any collection. *)
Lemma replenish_alone_count key key' name age target req w :
  let w' :=
    snd (run o alone
           (generateCategoryStories JSON_parse cfg key name age target req) w) in
  (active_count key' (store w) <= active_count key' (store w'))%Z
  /\ (active_count key' (store w')
      <= Z.max (active_count key' (store w))
               (if str_eqb key key' then target else 0))%Z.
Proof.
  intros w'. subst w'.
  destruct (STORY_CATEGORIES key) as [cat|] eqn:Hcat.
  - destruct (@replenish_alone_summary JSON_parse cfg o key cat name age target
                req w Hcat) as (docs & Hst & Hall & Hlen & _ & _).
    rewrite Hst, active_count_app.
    pose proof (active_count_nonneg key' (store w)).
    destruct (str_eqb key key') eqn:E.
    + apply str_eqb_eq in E. subst key'.
      rewrite (active_count_own Hall). lia.
    + rewrite (@active_count_other key key' docs); [lia| |exact Hall].
      intros ->. now rewrite str_eqb_refl in E.
  - unfold generateCategoryStories. rewrite Hcat. cbn [run snd].
    pose proof (active_count_nonneg key' (store w)). lia.
Qed.

End Consumption.

Lemma findOne_sound q st s :
  Doc.findOne q st = Some s -> In s st /\ Doc.matches q s = true.
Proof. unfold Doc.findOne. apply find_some. Qed.

Lemma no_active_after_deactivate id st :
  Doc.findOne [Doc.IdIs id; Doc.ActiveIs true]
              (Doc.update id [Doc.SetIsActive false] st) = None.
Proof.
  unfold Doc.findOne.
  induction st as [|s st IH]; [reflexivity|].
  change (Doc.update id [Doc.SetIsActive false] (s :: st))
    with ((if Nat.eqb (Doc._id s) id
           then Doc.apply_change (Doc.SetIsActive false) s else s)
          :: Doc.update id [Doc.SetIsActive false] st).
  cbn [find]. destruct (Nat.eqb (Doc._id s) id) eqn:E.
  - unfold Doc.matches at 1. cbn. rewrite E. cbn. exact IH.
  - unfold Doc.matches at 1. cbn. rewrite E. cbn. exact IH.
Qed.

Lemma deleteOne_length id st s :
  In s st -> Doc._id s = id ->
  S (length (Doc.deleteOne id st)) = length st.
Proof.
  intros Hin Hid. induction st as [|x st IH]; [contradiction|].
  cbn [Doc.deleteOne]. destruct (Nat.eqb (Doc._id x) id) eqn:E; [reflexivity|].
  destruct Hin as [->|Hin]; [rewrite Hid, Nat.eqb_refl in E; discriminate|].
  cbn [length]. now rewrite IH.
Qed.

(** X18: routes/stories.js.  Completing an active generated story of a
    collection, with nothing else in between.  When the story passes the
    schema it is saved inactive, the count of active generated stories
    drops, and the replenishment that was started brings it to at most
    max(1, count after the drop): never above what it was.  When the story
    breaks the schema the answer is 500, the store is left as it was and
    no replenishment is started. *)
Theorem completing_a_story_never_grows_its_collection :
  forall (JSON_parse : jsstring -> option jsvalue) (cfg : Config) (o : Oracle)
         (req : option Request) (w : World) (id : nat) (s : Doc.Story)
         (k : jsstring),
    Doc.findOne [Doc.IdIs id] (store w) = Some s ->
    Doc.isActive s = true ->
    Doc.isAIGenerated s = true ->
    Hook.collection_of s = Some k ->
    let out := run o alone (Hook.complete_story id) w in
    let w1 := snd out in
    let call := {| r_categoryKey := k;
                   r_childName := lit "friend";
                   r_childAge := Z.max 3 (min (Doc.ageRange s));
                   r_targetTotal := 1 |} in
    let w2 := snd (run o alone (started JSON_parse cfg call req) w1) in
    (Doc.valid s = true ->
     fst out = inr Hook.Completed
     /\ In (Ev (Spawn call) tt) (log w1)
     /\ Doc.findOne [Doc.IdIs id; Doc.ActiveIs true] (store w1) = None
     /\ (active_count k (store w1) < active_count k (store w))%Z
     /\ (active_count k (store w2) <= Z.max 1 (active_count k (store w1)))%Z
     /\ (active_count k (store w2) <= active_count k (store w))%Z)
    /\ (Doc.valid s = false ->
        fst out = inr Hook.ServerError
        /\ store w1 = store w
        /\ log w1 = log w ++ [Ev (FindOne [Doc.IdIs id]) (Some s)]).
Proof.
  intros JSON_parse cfg o req w id s k Hfind Hact Hgen Hcoll out w1 call w2.
  split; intros Hvalid.
  - destruct (@complete_story_generated o w id s k Hfind Hact Hvalid Hgen Hcoll)
      as (w' & Hrun & Hlog & Hst).
    assert (Hw1 : w1 = w') by (unfold w1, out; now rewrite Hrun).
    apply findOne_sound in Hfind as [Hin Hm].
    assert (Hid : Doc._id s = id).
    { unfold Doc.matches in Hm. cbn in Hm. rewrite andb_true_r in Hm.
      now apply Nat.eqb_eq. }
    assert (Hstrict : (active_count k (store w1) < active_count k (store w))%Z).
    { rewrite Hw1, Hst, Hid.
      eapply active_count_deactivate_strict; eauto.
      now apply generated_matches. }
    pose proof (@replenish_alone_count JSON_parse cfg o k k (lit "friend")
                  (Z.max 3 (min (Doc.ageRange s))) 1 req w1) as [_ Hup].
    rewrite str_eqb_refl in Hup. fold (started JSON_parse cfg call req) in Hup.
    fold w2 in Hup.
    pose proof (active_count_nonneg k (store w1)).
    split; [unfold out; now rewrite Hrun|].
    split.
    { rewrite Hw1, Hlog. apply in_or_app. right. cbn. auto 6. }
    split; [rewrite Hw1, Hst, Hid; apply no_active_after_deactivate|].
    split; [exact Hstrict|].
    unfold w2, started, call.
    cbn [r_categoryKey r_childName r_childAge r_targetTotal]. split; lia.
  - destruct (@complete_story_rejected o alone w id s Hfind Hact Hvalid)
      as (w' & Hrun & Hlog & Hst).
    unfold w1, out. rewrite Hrun. cbn [fst snd]. auto.
Qed.

Lemma completing_a_story_witness :
  let call := {| r_categoryKey := lit "learn-stories";
                 r_childName := lit "friend";
                 r_childAge := Z.max 3 (min (Doc.ageRange moon_story));
                 r_targetTotal := 1 |} in
  Doc.findOne [Doc.IdIs 3] (store nursery) = Some moon_story
  /\ Doc.isActive moon_story = true
  /\ Doc.isAIGenerated moon_story = true
  /\ Hook.collection_of moon_story = Some (lit "learn-stories")
  /\ Doc.valid moon_story = true
  /\ (active_count (lit "learn-stories")
        (store (snd (run demo_oracle alone (started no_json demo_cfg call None)
                       (snd (run demo_oracle alone (Hook.complete_story 3)
                               nursery)))))
      <= active_count (lit "learn-stories") (store nursery))%Z
  /\ Doc.valid legacy_story = false
  /\ fst (run demo_oracle alone (Hook.complete_story 5) attic)
     = inr Hook.ServerError
  /\ store (snd (run demo_oracle alone (Hook.complete_story 5) attic))
     = store attic.
Proof.
  intros call. do 5 (split; [reflexivity|]).
  split.
  { exact (proj2 (proj2 (proj2 (proj2 (proj2
             (proj1 (@completing_a_story_never_grows_its_collection
                       no_json demo_cfg demo_oracle None
                       nursery 3 moon_story (lit "learn-stories")
                       eq_refl eq_refl eq_refl eq_refl) eq_refl)))))). }
  split; [reflexivity|].
  destruct (proj2 (@completing_a_story_never_grows_its_collection
                     no_json demo_cfg demo_oracle None
                     attic 5 legacy_story (lit "learn-stories")
                     eq_refl eq_refl eq_refl eq_refl) eq_refl)
    as (Hanswer & Hstore & _).
  split; [exact Hanswer|exact Hstore].
Defined.

(** X19: routes/child.js.  Completing an active generated story of a
    collection, once the child's play time, if the request counts any, is
    saved, removes one record, and the replenishment it started, run with
    nothing else in between, brings the count of active generated stories
    to at most max(1, count after the removal): never above what it
    was.  When the save of the child is rejected instead, the answer is
    500 and the store is as it was. *)
Theorem completing_for_a_child_never_grows_the_collection :
  forall (JSON_parse : jsstring -> option jsvalue) (cfg : Config) (o : Oracle)
         (req : option Request) (child : Hook.Child) (timeSpent : option Z)
         (w : World) (id : nat) (s : Doc.Story) (k : jsstring),
    Doc.findOne [Doc.IdIs id; Doc.ActiveIs true] (store w) = Some s ->
    Doc.isAIGenerated s = true ->
    Hook.collection_of s = Some k ->
    let out := run o alone (Hook.complete_for_child child timeSpent id) w in
    let w1 := snd out in
    let call := {| r_categoryKey := k;
                   r_childName := or_else (Hook.name child) (lit "friend");
                   r_childAge := if (Hook.age child =? 0)%Z then 5%Z
                                 else Hook.age child;
                   r_targetTotal := 1 |} in
    let w2 := snd (run o alone (started JSON_parse cfg call req) w1) in
    (Hook.counts_time timeSpent = None \/ Hook.valid_child child = true ->
     fst out = inr Hook.Completed
     /\ In (Ev (Spawn call) tt) (log w1)
     /\ S (length (store w1)) = length (store w)
     /\ (active_count k (store w1) <= active_count k (store w))%Z
     /\ (active_count k (store w2) <= Z.max 1 (active_count k (store w1)))%Z
     /\ (active_count k (store w2) <= active_count k (store w))%Z)
    /\ (forall n, Hook.counts_time timeSpent = Some n ->
                  Hook.valid_child child = false ->
                  fst out = inr Hook.ServerError
                  /\ store w1 = store w
                  /\ log w1 = log w ++ [Ev (FindOne [Doc.IdIs id; Doc.ActiveIs true])
                                          (Some s)]).
Proof.
  intros JSON_parse cfg o req child timeSpent w id s k Hfind Hgen Hcoll
         out w1 call w2.
  split; [intros Hchild|
          intros n Htime Hbad;
          destruct (@complete_for_child_rejected_child o alone child timeSpent
                      w id s n Hfind Htime Hbad) as (w' & Hrun & Hlog & Hst);
          unfold w1, out; rewrite Hrun; cbn [fst snd]; auto].
  destruct (@complete_for_child_generated o child timeSpent w id s k
              Hfind Hchild Hgen Hcoll)
    as (w' & Hrun & Hlog & Hst).
  assert (Hw1 : w1 = w') by (unfold w1, out; now rewrite Hrun).
  assert (Hans : fst out = inr Hook.Completed) by (unfold out; now rewrite Hrun).
  apply findOne_sound in Hfind as [Hin Hm].
  assert (Hid : Doc._id s = id /\ Doc.isActive s = true).
  { unfold Doc.matches in Hm. cbn in Hm. rewrite andb_true_r in Hm.
    apply andb_true_iff in Hm as [H1 H2]. apply Nat.eqb_eq in H1.
    destruct (Doc.isActive s); [auto|discriminate]. }
  destruct Hid as [Hid Hact].
  assert (Hone : (1 <= active_count k (store w))%Z).
  { eapply active_count_member; eauto. now apply generated_matches. }
  assert (Hle : (active_count k (store w1) <= active_count k (store w))%Z).
  { rewrite Hw1, Hst. apply active_count_delete. }
  pose proof (@replenish_alone_count JSON_parse cfg o k k
                (or_else (Hook.name child) (lit "friend"))
                (if (Hook.age child =? 0)%Z then 5%Z else Hook.age child)
                1 req w1) as [_ Hup].
  rewrite str_eqb_refl in Hup. fold (started JSON_parse cfg call req) in Hup.
  fold w2 in Hup.
  split; [exact Hans|].
  split.
  { rewrite Hw1, Hlog. apply in_or_app. right. right.
    apply in_or_app. right. cbn. auto. }
  split; [rewrite Hw1, Hst; eapply deleteOne_length; eauto|].
  split; [exact Hle|].
  unfold w2, started, call.
  cbn [r_categoryKey r_childName r_childAge r_targetTotal]. split; lia.
Qed.

Lemma completing_for_a_child_witness :
  let child := {| Hook.name := lit "Mia"; Hook.age := 5 |} in
  let call := {| r_categoryKey := lit "learn-stories";
                 r_childName := or_else (Hook.name child) (lit "friend");
                 r_childAge := if (Hook.age child =? 0)%Z then 5%Z
                               else Hook.age child;
                 r_targetTotal := 1 |} in
  let nameless := {| Hook.name := []; Hook.age := 5 |} in
  Doc.findOne [Doc.IdIs 3; Doc.ActiveIs true] (store nursery) = Some moon_story
  /\ Hook.valid_child child = true
  /\ Hook.valid_child nameless = false
  /\ Doc.isAIGenerated moon_story = true
  /\ Hook.collection_of moon_story = Some (lit "learn-stories")
  /\ (active_count (lit "learn-stories")
        (store (snd (run demo_oracle alone (started no_json demo_cfg call None)
                       (snd (run demo_oracle alone
                               (Hook.complete_for_child child (Some 90%Z) 3)
                               nursery)))))
      <= active_count (lit "learn-stories") (store nursery))%Z
  /\ fst (run demo_oracle alone
             (Hook.complete_for_child nameless (Some 90%Z) 3) nursery)
     = inr Hook.ServerError
  /\ store (snd (run demo_oracle alone
                    (Hook.complete_for_child nameless (Some 90%Z) 3) nursery))
     = store nursery.
Proof.
  intros child call nameless. do 5 (split; [reflexivity|]).
  split.
  - exact (proj2 (proj2 (proj2 (proj2 (proj2
             (proj1 (@completing_for_a_child_never_grows_the_collection
                       no_json demo_cfg demo_oracle
                       None child (Some 90%Z) nursery 3 moon_story
                       (lit "learn-stories") eq_refl eq_refl eq_refl)
                (or_intror eq_refl))))))).
  - destruct (proj2 (@completing_for_a_child_never_grows_the_collection
                       no_json demo_cfg demo_oracle
                       None nameless (Some 90%Z) nursery 3 moon_story
                       (lit "learn-stories") eq_refl eq_refl eq_refl)
                90%Z eq_refl eq_refl) as (Hanswer & Hstore & _).
    split; [exact Hanswer|exact Hstore].
Defined.

(* ===================================================================== *)
(** * POST /regenerate-story *)
(* ===================================================================== *)

Lemma registered_key_nonempty key cat :
  STORY_CATEGORIES key = Some cat -> nonempty key = true.
Proof.
  destruct key; [|reflexivity]. vm_compute. discriminate.
Qed.

Section RegenerateStory.

Variable JSON_parse : jsstring -> option jsvalue.
Variable cfg : Config.
Variable o : Oracle.

Lemma deactivate_old_story_nothrow storyId : NoThrow (deactivate_old_story storyId).
Proof. unfold deactivate_old_story. apply NoThrow_try_catch. intros. constructor. Qed.

Lemma regenerate_story_nothrow storyId key child req :
  NoThrow (regenerate_story JSON_parse cfg storyId key child req).
Proof.
  unfold regenerate_story.
  destruct (negb (nonempty storyId) || negb (nonempty key)); [constructor|].
  destruct (STORY_CATEGORIES key); [|constructor].
  apply NoThrow_bind; [apply deactivate_old_story_nothrow|]. intros _.
  apply NoThrow_try_catch. intros. constructor.
Qed.

Lemma deactivate_old_story_alone storyId w :
  exists w1,
    run o alone (deactivate_old_story storyId) w = (inr tt, w1)
    /\ store w1 = deactivated_store storyId (store w).
Proof.
  unfold deactivate_old_story, deactivated_store.
  destruct (nonempty storyId) eqn:Hne; cbn [andb].
  2:{ destruct storyId; [|discriminate]. cbn. eauto. }
  destruct (is_object_id storyId); [|cbn; eauto].
  cbn [bind await try_catch run]. unfold exec at 1.
  cbn [perform store with_store].
  change (alone (tick w) (store w)) with (store w).
  destruct (Doc.findOne [Doc.IdIs (object_id storyId)] (store w)) as [s|];
    [|cbn; eauto].
  destruct (Doc.isActive s); [|cbn; eauto]. cbn [andb].
  unfold Hook.save.
  cbn [Hook.persisted Hook.deactivate Hook.hydrate Hook.modified app].
  rewrite valid_deactivated.
  destruct (Doc.valid s); cbn; eauto.
Qed.

End RegenerateStory.

Lemma run_answer o others {A B} (p : Prog A) (ok : A -> B) (failed : B) w :
  run o others (try_catch (x <- p ;; Ret (ok x)) (fun _ => Ret failed)) w
  = (inr match fst (run o others p w) with
         | inr x => ok x
         | inl _ => failed
         end,
     snd (run o others p w)).
Proof.
  rewrite run_try_catch, run_bind.
  destruct (run o others p w) as [[e|x] w']; reflexivity.
Qed.

Lemma inherited_never_validates key c audio pending :
  Doc.validate (storyData_of Inherited key c audio pending) = false.
Proof.
  unfold Doc.validate, storyData_of.
  cbn [Doc.d_theme Doc.d_category theme_of category_of Doc.one_of].
  repeat (rewrite ?andb_false_r; cbn [andb]). reflexivity.
Qed.

Lemma Picked_none {R : Candidate -> Doc.Story -> Prop} cs ds :
  (forall c d, ~ R c d) -> Picked R cs ds -> ds = [].
Proof.
  intros HR HP. induction HP as [|c cs ds _ IH|c cs d ds Hcd _ _]; auto.
  destruct (HR c d Hcd).
Qed.

(** The engine called with a key that only names a member of
    [Object.prototype]: every document it builds lacks a theme and a
    category, so nothing is inserted and nothing is returned. *)
Lemma engine_inherited JSON_parse cfg o others key name age target req w r w' :
  STORY_CATEGORIES key = Some Inherited ->
  run o others (generateCategoryStories JSON_parse cfg key name age target req) w
  = (r, w') ->
  r = inr [] \/ r = inl TypeError.
Proof.
  intros Hcat Hrun.
  destruct (engine_run JSON_parse cfg o others key name age target req w
              Hcat Hrun) as (evs & _ & Hcases).
  assert (Hnone : forall cs ds, Picked (story_of Inherited key) cs ds -> ds = []).
  { intros cs ds. apply Picked_none. intros c d (id & audio & pending & _ & Hv).
    rewrite inherited_never_validates in Hv. discriminate. }
  destruct Hcases as [(_ & _ & ->)|[(_ & _ & Hr)|(_ & Hrec)]]; auto.
  destruct Hrec as (before & latestCount & after & aiText & _ & _ & _ & Hrest).
  cbv zeta in Hrest. destruct Hrest as (_ & [(_ & _ & ->)|(_ & _ & _ & _ & -> & HP & _)]);
    [auto|].
  rewrite (Hnone _ _ HP). auto.
Qed.

Lemma deactivate_old_story_uses storyId :
  Uses (fun k => match k with KFind | KMutate => true | _ => false end)
       (deactivate_old_story storyId).
Proof.
  unfold deactivate_old_story.
  apply Uses_try_catch; [|intros; constructor].
  destruct (nonempty storyId && is_object_id storyId); [|constructor].
  apply Uses_bind; [apply Uses_await; reflexivity|].
  intros [s|]; [|constructor].
  destruct (Doc.isActive s); [|constructor].
  apply Uses_bind; [|intros; constructor].
  unfold Hook.save. destruct (negb _); [constructor|].
  apply Uses_bind; [apply Uses_await; reflexivity|]. intros; constructor.
Qed.

(** X20: POST /regenerate-story always answers.  It answers 400, before
    any operation and leaving the world as it was, exactly when the
    storyId or the categoryKey is empty or [STORY_CATEGORIES[categoryKey]]
    is undefined.  A key that only names a member of [Object.prototype]
    passes that guard: the engine runs, no story is created, and the answer
    is 200 with newStory null, or 500. *)
Theorem regenerate_story_answers_and_rejects :
  forall (JSON_parse : jsstring -> option jsvalue) (cfg : Config) (o : Oracle)
         (others : Interference) (storyId key : jsstring)
         (child : option Hook.Child) (req : Request) (w : World),
    (exists response w',
        run o others (regenerate_story JSON_parse cfg storyId key child req) w
        = (inr response, w'))
    /\ (nonempty storyId = false \/ nonempty key = false
        \/ STORY_CATEGORIES key = None ->
        exists message,
          run o others (regenerate_story JSON_parse cfg storyId key child req) w
          = (inr (Regenerate400 message), w))
    /\ (forall message,
          fst (run o others
                 (regenerate_story JSON_parse cfg storyId key child req) w)
          = inr (Regenerate400 message) ->
          nonempty storyId = false \/ nonempty key = false
          \/ STORY_CATEGORIES key = None)
    /\ (nonempty storyId = true ->
        STORY_CATEGORIES key = Some Inherited ->
        exists response w' evs,
          run o others (regenerate_story JSON_parse cfg storyId key child req) w
          = (inr response, w')
          /\ (response = Regenerate200 None \/ response = Regenerate500)
          /\ log w' = log w ++ evs
          /\ created evs = []).
Proof.
  intros. split; [|split; [|split]].
  - apply run_nothrow. apply regenerate_story_nothrow.
  - intros Hbad. unfold regenerate_story.
    destruct (nonempty storyId); [|cbn; eauto].
    destruct (nonempty key) eqn:Hk; [|cbn; eauto].
    destruct Hbad as [?|[?|Hcat]]; try discriminate.
    rewrite Hcat. cbn. eauto.
  - intros message. unfold regenerate_story.
    destruct (nonempty storyId); [|auto].
    destruct (nonempty key); [|auto]. cbn [negb orb].
    destruct (STORY_CATEGORIES key) as [cat|]; [|auto].
    rewrite run_bind.
    destruct (run o others (deactivate_old_story storyId) w) as [[e|[]] w1];
      [discriminate|].
    rewrite run_answer. cbn [fst].
    destruct (fst (run o others _ w1)); discriminate.
  - intros Hid Hcat.
    destruct (run o others
                (regenerate_story JSON_parse cfg storyId key child req) w)
      as [res w'] eqn:Hrun.
    pose proof Hrun as Hev. apply run_events in Hev as (evs & Hlog & _).
    assert (Hcreated : Forall (stored_from
                                 (engine_document cfg Inherited key
                                    (child_age child)))
                              (created evs)).
    { eapply run_creating with (R := fun _ => True); [|exact Hrun|exact Hlog].
      unfold regenerate_story.
      rewrite Hid, (registered_key_nonempty _ Hcat), Hcat. cbn [negb orb].
      eapply Obeys_bind with (Q := fun _ => True).
      - eapply Uses_creating; [|apply deactivate_old_story_uses]. reflexivity.
      - intros _ _. apply Obeys_try_catch; [|intros; constructor; exact I].
        eapply Obeys_bind with (Q := fun _ => True);
          [now apply generateCategoryStories_creating|].
        intros; constructor; exact I. }
    assert (Hnone : created evs = []).
    { destruct (created evs) as [|d ds]; [reflexivity|].
      inversion Hcreated as [|? ? (id & sd & _ & Hdoc & Hv) _]; subst.
      destruct Hdoc as (c & audio & pending & -> & _).
      rewrite inherited_never_validates in Hv. discriminate. }
    unfold regenerate_story in Hrun.
    rewrite Hid, (registered_key_nonempty _ Hcat), Hcat in Hrun.
    cbn [negb orb] in Hrun. rewrite run_bind in Hrun.
    destruct (run o others (deactivate_old_story storyId) w) as [[e|[]] w1]
      eqn:Hrun1.
    { destruct (run_nothrow o others (deactivate_old_story_nothrow storyId) w)
        as (a & w2 & Hok). rewrite Hok in Hrun1. discriminate. }
    rewrite run_answer in Hrun.
    destruct (run o others
                (generateCategoryStories JSON_parse cfg key (child_name child)
                   (child_age child) 1 (Some req)) w1) as [r w2] eqn:Hrun2.
    cbn [fst snd] in Hrun. injection Hrun as <- <-.
    destruct (engine_inherited _ _ _ _ _ _ _ _ _ _ Hcat Hrun2) as [-> | ->];
      eexists _, _, evs; (split; [reflexivity|]); cbn [hd_error]; auto.
Qed.

(** POST /regenerate-story with the key [constructor]: the guard passes,
    the old story is deactivated, the provider is asked, the document
    built from its answer is rejected, and the answer is 200 with no new
    story. *)
Example regenerate_with_inherited_key :
  let out :=
    run demo_oracle alone
        (regenerate_story no_json demo_cfg moon_id (lit "constructor") None
           demo_request) nursery in
  fst out = inr (Regenerate200 None)
  /\ map Doc.isActive (store (snd out)) = [false]
  /\ map ev_kind (log (snd out))
     = [KFind; KMutate; KCount; KProvider; KCount; KFind; KFind; KCreate]
  /\ created (log (snd out)) = [].
Proof. repeat split. Qed.

(** X21: POST /regenerate-story with nothing else in between, for a
    request that passes the guards.  The store afterwards is the store
    with the named story deactivated (when the id has the shape of an
    object id and names an active record that passes the schema; a
    rejected save leaves it active) followed by at most one new active
    generated story of the collection; the answer carries that story, or
    null when none was stored, or is 500 when the engine threw; and when
    the collection still has an active generated story after that step,
    nothing is generated and newStory is null. *)
Theorem regenerate_story_replaces_at_most_one :
  forall (JSON_parse : jsstring -> option jsvalue) (cfg : Config) (o : Oracle)
         (storyId key : jsstring) (cat : Entry)
         (child : option Hook.Child) (req : Request) (w : World),
    nonempty storyId = true ->
    STORY_CATEGORIES key = Some cat ->
    let out :=
      run o alone (regenerate_story JSON_parse cfg storyId key child req) w in
    let st1 := deactivated_store storyId (store w) in
    exists docs,
      store (snd out) = st1 ++ docs
      /\ (length docs <= 1)%nat
      /\ Forall (fun d => Doc.isActive d = true /\ Doc.isAIGenerated d = true
                          /\ Doc.generatedForCollection d = Some key) docs
      /\ (fst out = inr (Regenerate200 (hd_error docs))
          \/ (docs = [] /\ fst out = inr Regenerate500))
      /\ ((1 <= active_count key st1)%Z ->
          docs = [] /\ fst out = inr (Regenerate200 None)).
Proof.
  intros JSON_parse cfg o storyId key cat child req w Hid Hcat out st1.
  subst out st1. unfold regenerate_story.
  rewrite Hid, (registered_key_nonempty _ Hcat), Hcat. cbn [negb orb].
  rewrite run_bind.
  destruct (deactivate_old_story_alone o storyId w) as (w1 & Hrun1 & Hst1).
  rewrite Hrun1, <- Hst1, run_answer. cbn [fst snd].
  destruct (@replenish_alone_summary JSON_parse cfg o key cat (child_name child)
              (child_age child) 1 (Some req) w1 Hcat)
    as (docs & Hst & Hall & Hlen & Hres & Hsat).
  pose proof (active_count_nonneg key (store w1)) as Hnn.
  exists docs. split; [exact Hst|]. split; [lia|]. split; [exact Hall|].
  split.
  - destruct Hres as [->|[-> ->]]; auto.
  - intros Hone. rewrite (Hsat Hone).
    assert (docs = []) as ->
        by (destruct docs; [reflexivity|cbn [length] in Hlen; lia]).
    auto.
Qed.

Lemma regenerate_story_witness :
  let out :=
    run demo_oracle alone
        (regenerate_story no_json demo_cfg moon_id (lit "learn-stories") None
           demo_request) nursery in
  let kept :=
    run demo_oracle alone
        (regenerate_story no_json demo_cfg legacy_id (lit "learn-stories") None
           demo_request) attic in
  nonempty moon_id = true
  /\ STORY_CATEGORIES (lit "learn-stories") = Some (Own learn_stories)
  /\ map Doc.isActive (deactivated_store moon_id (store nursery)) = [false]
  /\ (exists docs,
         store (snd out) = deactivated_store moon_id (store nursery) ++ docs
         /\ (length docs <= 1)%nat
         /\ (fst out = inr (Regenerate200 (hd_error docs))
             \/ (docs = [] /\ fst out = inr Regenerate500)))
  /\ deactivated_store legacy_id (store attic) = store attic
  /\ store (snd kept) = store attic
  /\ fst kept = inr (Regenerate200 None).
Proof.
  intros out kept. split; [reflexivity|]. split; [reflexivity|].
  split; [reflexivity|].
  split.
  { destruct (@regenerate_story_replaces_at_most_one no_json demo_cfg demo_oracle
                moon_id (lit "learn-stories") (Own learn_stories) None
                demo_request nursery eq_refl eq_refl)
      as (docs & H1 & H2 & _ & H4 & _).
    exists docs. auto. }
  split; [reflexivity|].
  destruct (@regenerate_story_replaces_at_most_one no_json demo_cfg demo_oracle
              legacy_id (lit "learn-stories") (Own learn_stories) None
              demo_request attic eq_refl eq_refl)
    as (docs & H1 & _ & _ & _ & H5).
  destruct (H5 ltac:(vm_compute; discriminate)) as [-> Hkept].
  rewrite app_nil_r in H1. split; [exact H1|exact Hkept].
Defined.

(* ===================================================================== *)
(** * POST /initialize-categories *)
(* ===================================================================== *)

Section InitializeCategories.

Variable JSON_parse : jsstring -> option jsvalue.
Variable cfg : Config.
Variable o : Oracle.

Lemma initialize_one_nothrow key child TARGET req :
  NoThrow (initialize_one JSON_parse cfg key child TARGET req).
Proof. unfold initialize_one. apply NoThrow_try_catch. intros. constructor. Qed.

Lemma initialize_one_one_chat key child TARGET req :
  AtMost is_chat 1 (initialize_one JSON_parse cfg key child TARGET req).
Proof.
  unfold initialize_one, await. cbn [bind].
  apply AtMost_try_catch0; [|intros; constructor].
  apply AtMost_free; [reflexivity|]. intros existing.
  destruct (TARGET <=? existing)%Z; [constructor|].
  replace 1%nat with (1 + 0)%nat by reflexivity.
  apply AtMost_bind; [apply generateCategoryStories_one_chat|].
  intros. constructor.
Qed.

Lemma initialize_loop_chats keys child TARGET req :
  forall results,
    AtMost is_chat (length keys)
           (initialize_loop JSON_parse cfg keys child TARGET req results).
Proof.
  induction keys as [|key rest IH]; intros results; cbn [initialize_loop length].
  - constructor.
  - change (S (length rest)) with (1 + length rest)%nat.
    apply AtMost_bind; [apply initialize_one_one_chat|]. intros r. apply IH.
Qed.

Lemma initialize_loop_nothrow keys child TARGET req :
  forall results,
    NoThrow (initialize_loop JSON_parse cfg keys child TARGET req results).
Proof.
  induction keys as [|key rest IH]; intros results; cbn [initialize_loop].
  - constructor.
  - apply NoThrow_bind; [apply initialize_one_nothrow|]. intros r. apply IH.
Qed.

Lemma initialize_one_alone key key' child TARGET req w :
  exists r w',
    run o alone (initialize_one JSON_parse cfg key child TARGET req) w = (inr r, w')
    /\ (active_count key' (store w) <= active_count key' (store w'))%Z
    /\ (active_count key' (store w')
        <= Z.max (active_count key' (store w)) TARGET)%Z.
Proof.
  unfold initialize_one. rewrite run_try_catch. cbn [bind await run].
  unfold exec at 1. cbn [perform store with_store].
  change (alone (tick w) (store w)) with (store w).
  set (existing := Doc.countDocuments (Doc.active_ai_in key) (store w)).
  set (w0 := ticked (with_store w (store w))
                    (CountDocuments (Doc.active_ai_in key)) existing).
  change (store w) with (store w0).
  destruct (TARGET <=? existing)%Z.
  { cbn [run]. eexists _, _. split; [reflexivity|]. cbn [store]. lia. }
  rewrite run_bind.
  pose proof (@replenish_alone_count JSON_parse cfg o key key' (child_name child)
                (child_age child) TARGET (Some req) w0) as [Hlo Hhi].
  pose proof (active_count_nonneg key' (store w0)) as Hnn.
  destruct (run o alone
              (generateCategoryStories JSON_parse cfg key (child_name child)
                 (child_age child) TARGET (Some req)) w0) as [[e|docs] w1];
    cbn [snd run] in *;
    (eexists _, _; split; [reflexivity|]; split; [exact Hlo|]);
    destruct (str_eqb key key'); lia.
Qed.

Lemma initialize_loop_alone keys key' child TARGET req :
  forall results w,
    exists rs w',
      run o alone (initialize_loop JSON_parse cfg keys child TARGET req results) w
      = (inr (results ++ rs), w')
      /\ map fst rs = keys
      /\ (active_count key' (store w) <= active_count key' (store w'))%Z
      /\ (active_count key' (store w')
          <= Z.max (active_count key' (store w)) TARGET)%Z.
Proof.
  induction keys as [|key rest IH]; intros results w; cbn [initialize_loop].
  - exists [], w. rewrite app_nil_r. cbn. split; [reflexivity|].
    split; [reflexivity|]. lia.
  - rewrite run_bind.
    destruct (initialize_one_alone key key' child TARGET req w)
      as (r & w1 & -> & Hlo & Hhi).
    destruct (IH (results ++ [(key, r)]) w1) as (rs & w' & -> & Hkeys & Hlo' & Hhi').
    exists ((key, r) :: rs), w'. rewrite <- app_assoc.
    split; [reflexivity|]. split; [cbn; now rewrite Hkeys|]. lia.
Qed.

Lemma initialize_loop_idle keys child TARGET req :
  forall results w,
    (forall key, In key keys -> (TARGET <= active_count key (store w))%Z) ->
    exists w',
      run o alone (initialize_loop JSON_parse cfg keys child TARGET req results) w
      = (inr (results
              ++ map (fun key => (key, AlreadyInitialized
                                         (active_count key (store w)))) keys),
         w')
      /\ store w' = store w
      /\ log w'
         = log w ++ map (fun key => Ev (CountDocuments (Doc.active_ai_in key))
                                       (active_count key (store w))) keys.
Proof.
  induction keys as [|key rest IH]; intros results w Hall; cbn [initialize_loop map].
  - exists w. rewrite !app_nil_r. auto.
  - rewrite run_bind. unfold initialize_one. rewrite run_try_catch.
    cbn [bind await run]. unfold exec at 1. cbn [perform store with_store].
    change (alone (tick w) (store w)) with (store w).
    fold (active_count key (store w)).
    assert (Hk : (TARGET <=? active_count key (store w))%Z = true)
      by (apply Z.leb_le; apply Hall; now left).
    rewrite Hk. cbn [run].
    set (w0 := ticked (with_store w (store w))
                      (CountDocuments (Doc.active_ai_in key))
                      (active_count key (store w))).
    destruct (IH (results ++ [(key, AlreadyInitialized (active_count key (store w)))])
                 w0) as (w' & Hrun & Hst & Hlog).
    { intros k Hin. apply Hall. now right. }
    exists w'. rewrite Hrun, <- app_assoc. cbn [store w0 ticked with_store] in *.
    split; [reflexivity|]. split; [exact Hst|].
    rewrite Hlog. cbn [log w0 ticked with_store]. now rewrite <- app_assoc.
Qed.

End InitializeCategories.

(** X22: POST /initialize-categories with nothing else in between answers
    with one result per registered collection, in the order of the
    registry, and for every collection the count of active generated
    stories never decreases and ends at most at max(count before,
    TARGET). *)
Theorem initialize_categories_fills_up_to_target :
  forall (JSON_parse : jsstring -> option jsvalue) (cfg : Config) (o : Oracle)
         (child : option Hook.Child) (TARGET : Z) (req : Request) (w : World)
         (key : jsstring),
    let out :=
      run o alone (initialize_categories JSON_parse cfg child TARGET req) w in
    (exists results,
        fst out = inr results /\ map fst results = category_keys)
    /\ (active_count key (store w) <= active_count key (store (snd out)))%Z
    /\ (active_count key (store (snd out))
        <= Z.max (active_count key (store w)) TARGET)%Z.
Proof.
  intros JSON_parse cfg o child TARGET req w key out. subst out.
  unfold initialize_categories.
  destruct (initialize_loop_alone JSON_parse cfg o category_keys key child TARGET
              req [] w) as (rs & w' & -> & Hkeys & Hlo & Hhi).
  cbn [fst snd app]. split; [eauto|]. split; assumption.
Qed.

(** X23: POST /initialize-categories sends at most four chat completion
    requests, one per collection, whatever else happens; and when every
    collection already holds TARGET active generated stories it performs
    the four counts and nothing else, answers Already initialized with
    those counts, and leaves the store as it was. *)
Theorem initialize_categories_costs :
  forall (JSON_parse : jsstring -> option jsvalue) (cfg : Config) (o : Oracle)
         (others : Interference) (child : option Hook.Child) (TARGET : Z)
         (req : Request) (w : World),
    (exists evs,
        log (snd (run o others
                    (initialize_categories JSON_parse cfg child TARGET req) w))
        = log w ++ evs
        /\ (calls is_chat evs <= 4)%nat)
    /\ ((forall key, In key category_keys ->
           (TARGET <= active_count key (store w))%Z) ->
        exists w',
          run o alone (initialize_categories JSON_parse cfg child TARGET req) w
          = (inr (map (fun key => (key, AlreadyInitialized
                                          (active_count key (store w))))
                      category_keys), w')
          /\ store w' = store w
          /\ log w'
             = log w ++ map (fun key => Ev (CountDocuments (Doc.active_ai_in key))
                                           (active_count key (store w)))
                            category_keys).
Proof.
  intros JSON_parse cfg o others child TARGET req w. split.
  - destruct (run o others
                (initialize_categories JSON_parse cfg child TARGET req) w)
      as [r w'] eqn:Hrun.
    pose proof Hrun as Hev. apply run_events in Hev as (evs & Hlog & _).
    exists evs. cbn [snd]. split; [exact Hlog|].
    eapply run_atmost; [|exact Hrun|exact Hlog].
    apply (initialize_loop_chats JSON_parse cfg category_keys child TARGET req []).
  - intros Hall.
    destruct (@initialize_loop_idle JSON_parse cfg o category_keys child TARGET
                req [] w Hall) as (w' & Hrun & Hst & Hlog).
    exists w'. auto.
Qed.

(* ===================================================================== *)
(** * POST /coach and POST /tts *)
(* ===================================================================== *)

(** X24: POST /coach always answers 200 with a response that is never
    empty.  Without an OpenAI key it makes no request and answers the
    apology with provider mock; with a key it makes exactly one request,
    for 700 tokens, and answers the content of the reply when that is
    truthy and the apology otherwise. *)
Theorem coach_always_answers :
  forall (cfg : Config) (o : Oracle) (others : Interference)
         (question : jsstring) (w : World),
    exists response now provider w' evs,
      run o others (coach cfg question) w
      = (inr (Coach200 response now provider), w')
      /\ log w' = log w ++ evs
      /\ Json.truthy response = true
      /\ (calls is_chat evs <= 1)%nat
      /\ (env_set (OPENAI_API_KEY cfg) = false ->
          response = JStr coach_apology /\ provider = lit "mock"
          /\ calls is_chat evs = 0%nat)
      /\ (env_set (OPENAI_API_KEY cfg) = true ->
          provider = lit "openai"
          /\ exists payload answer,
               evs = [Ev (PostChat payload) answer;
                      Ev DateNow now]
               /\ max_tokens payload = 700%Z
               /\ response
                  = match answer with
                    | Some data =>
                        if Json.truthy (chat_content data) then chat_content data
                        else JStr coach_apology
                    | None => JStr coach_apology
                    end).
Proof.
  intros cfg o others question w. unfold coach, generateWithOpenAI.
  destruct (env_set (OPENAI_API_KEY cfg)) eqn:Hkey; cbn [negb].
  - cbn [bind try_catch await await_or_throw run]. unfold exec at 1.
    cbn [perform].
    match goal with
    | |- context [chat_response o ?t ?p] =>
        destruct (chat_response o t p) as [data|] eqn:Hresp
    end.
    + cbn [bind try_catch run]. unfold exec at 1. cbn [perform].
      eexists _, _, _, _, _. split; [reflexivity|].
      cbn [log ticked with_store]. rewrite <- !app_assoc. cbn [app].
      split; [reflexivity|]. split.
      { destruct (Json.truthy (chat_content data)) eqn:Ht; [exact Ht|reflexivity]. }
      split; [cbn; lia|]. split; [discriminate|]. intros _.
      split; [reflexivity|]. eexists _, _. split; [reflexivity|].
      split; reflexivity.
    + cbn [bind try_catch run]. unfold exec at 1. cbn [perform].
      eexists _, _, _, _, _. split; [reflexivity|].
      cbn [log ticked with_store]. rewrite <- !app_assoc. cbn [app].
      split; [reflexivity|]. split; [reflexivity|].
      split; [cbn; lia|]. split; [discriminate|]. intros _.
      split; [reflexivity|]. eexists _, _. split; [reflexivity|].
      split; reflexivity.
  - cbn [bind try_catch await run]. unfold exec at 1. cbn [perform].
    eexists _, _, _, _, _. split; [reflexivity|].
    cbn [log ticked with_store].
    split; [reflexivity|]. split; [reflexivity|].
    split; [cbn; lia|]. split; [|discriminate]. intros _.
    repeat split.
Qed.

(** X25: POST /tts always answers; it answers 200 only with a non-empty
    URL that names a file written from an answered synthesis request, and
    500 when no key is configured (then without any operation), when
    every synthesis request is rejected or when every write fails. *)
Theorem tts_answers_with_a_written_file :
  forall (cfg : Config) (o : Oracle) (others : Interference)
         (txt : jsstring) (filenamePrefix : option jsstring) (req : Request)
         (w : World),
    exists response w' evs,
      run o others (tts cfg txt filenamePrefix req) w = (inr response, w')
      /\ log w' = log w ++ evs
      /\ (env_set (ELEVENLABS_API_KEY cfg) = false ->
          response = Tts500 /\ evs = [])
      /\ (forall audioUrl now, response = Tts200 audioUrl now ->
            audioUrl <> []
            /\ exists voice bytes filename proto hst,
                 In (Ev (PostTTS voice txt) (Some bytes)) evs
                 /\ In (Ev (WriteFile filename bytes) true) evs
                 /\ audioUrl
                    = proto ++ lit "://" ++ hst ++ lit "/ai-audio/" ++ filename)
      /\ ((forall t v x, tts_response o t v x = None) -> response = Tts500)
      /\ ((forall t f, write_ok o t f = false) -> response = Tts500).
Proof.
  intros cfg o others txt filenamePrefix req w. unfold tts.
  rewrite run_try_catch, run_bind.
  destruct (textToElevenlabsAudio_result cfg o others txt
              (match filenamePrefix with Some p => p | None => lit "ai-tts" end)
              (Some req) w)
    as (r & w1 & evs1 & Hrun & Hlog & Hoff & Hurl & Hnone & Hwrite).
  rewrite Hrun.
  destruct r as [u|].
  - destruct (nonempty u) eqn:Hu.
    + cbn [bind await run]. unfold exec at 1. cbn [perform].
      eexists _, _, (evs1 ++ [_]). split; [reflexivity|].
      cbn [log ticked with_store]. rewrite Hlog, <- app_assoc.
      split; [reflexivity|].
      split. { intros Hk. destruct (Hoff Hk) as [? _]. discriminate. }
      split.
      { intros audioUrl now [= <- <-]. split; [now apply nonempty_true|].
        destruct (Hurl u eq_refl) as (voice & bytes & filename & proto & hst
                                      & H1 & H2 & H3).
        exists voice, bytes, filename, proto, hst.
        split; [apply in_or_app; now left|].
        split; [apply in_or_app; now left|exact H3]. }
      split; [intros Hall; specialize (Hnone Hall); discriminate|].
      intros Hall; specialize (Hwrite Hall); discriminate.
    + cbn [run]. exists Tts500, w1, evs1. split; [reflexivity|].
      split; [exact Hlog|].
      split. { intros Hk. destruct (Hoff Hk) as [? _]. discriminate. }
      split; [discriminate|]. auto.
  - cbn [run]. exists Tts500, w1, evs1. split; [reflexivity|].
    split; [exact Hlog|]. split.
    { intros Hk. destruct (Hoff Hk) as [_ ->]. auto. }
    split; [discriminate|]. auto.
Qed.

(* ===================================================================== *)
(** * POST /from-ai *)
(* ===================================================================== *)

(** X26: POST /from-ai never stores a story for a body that leaves out
    the theme or the description: the handler's defaults for these keys
    (AI Generated, and the empty string) are values the schema rejects, so
    the answer is 500 (or 400) and nothing is created. *)
Theorem from_ai_rejects_its_own_defaults :
  forall (o : Oracle) (others : Interference) (b : FromAiBody) (w : World),
    b_theme b = None \/ b_description b = None ->
    exists response w' evs,
      run o others (from_ai b) w = (inr response, w')
      /\ (response = FromAi400 \/ response = FromAi500)
      /\ log w' = log w ++ evs
      /\ created evs = []
      /\ (others = alone -> store w' = store w).
Proof.
  intros o others b w Hdefault. unfold from_ai.
  assert (Hinvalid : Doc.validate (from_ai_data b) = false).
  { unfold Doc.validate, from_ai_data.
    cbn [Doc.d_title Doc.d_description Doc.d_content Doc.d_category Doc.d_theme
         Doc.d_generatedForCollection Doc.d_ageRange Doc.d_duration].
    destruct Hdefault as [-> | ->]; cbn [default_to].
    - change (Doc.mem (lit "AI Generated") Doc.theme_enum) with false.
      now rewrite !andb_false_r.
    - cbn [nonempty]. now rewrite !andb_false_r. }
  destruct (nonempty (b_generatedForCollection b)); cbn [negb].
  - cbn [bind try_catch await await_or_throw run]. unfold exec at 1.
    cbn [perform]. rewrite Hinvalid. cbn [andb bind try_catch run].
    eexists _, _, _. split; [reflexivity|]. split; [now right|].
    cbn [log ticked with_store]. split; [reflexivity|].
    split; [reflexivity|]. intros ->. reflexivity.
  - cbn [try_catch run]. exists FromAi400, w, []. rewrite app_nil_r.
    repeat split; auto.
Qed.

Lemma from_ai_defaults_witness :
  (b_theme bare_body = None \/ b_description bare_body = None)
  /\ exists response w' evs,
       run demo_oracle alone (from_ai bare_body) nursery = (inr response, w')
       /\ (response = FromAi400 \/ response = FromAi500)
       /\ log w' = log nursery ++ evs
       /\ created evs = []
       /\ (alone = alone -> store w' = store nursery).
Proof.
  split; [left; reflexivity|].
  exact (@from_ai_rejects_its_own_defaults demo_oracle alone bare_body nursery
           (or_introl eq_refl)).
Defined.

(** X27: whenever POST /from-ai answers 201, the stored record is the one
    built from the body, it is active and marked as generated, its
    collection is a registered one, the body gave a theme of the schema
    and a non-empty description, and the record is the one appended to
    the store. *)
Theorem from_ai_stores_generated_stories_only :
  forall (o : Oracle) (others : Interference) (b : FromAiBody) (w : World)
         (story : Doc.Story) (w' : World),
    run o others (from_ai b) w = (inr (FromAi201 story), w') ->
    story = Doc.new_story (next_id w) (from_ai_data b)
    /\ Doc.isAIGenerated story = true
    /\ Doc.isActive story = true
    /\ (exists cat,
           Doc.generatedForCollection story = Some (b_generatedForCollection b)
           /\ STORY_CATEGORIES (b_generatedForCollection b) = Some (Own cat))
    /\ (exists theme description,
           b_theme b = Some theme /\ Doc.mem theme Doc.theme_enum = true
           /\ b_description b = Some description /\ description <> [])
    /\ store w' = others (tick w) (store w) ++ [story]
    /\ log w' = log w ++ [Ev (Create (from_ai_data b)) (Some story)].
Proof.
  intros o others b w story w'. unfold from_ai.
  destruct (nonempty (b_generatedForCollection b)); cbn [negb];
    [|cbn; discriminate].
  cbn [bind try_catch await await_or_throw run]. unfold exec at 1.
  cbn [perform].
  destruct (Doc.validate (from_ai_data b)) eqn:Hv; cbn [andb];
    [|cbn; discriminate].
  destruct (store_accepts o _); cbn [bind try_catch run]; [|discriminate].
  intros [= <- <-]. cbn [log store ticked with_store].
  split; [reflexivity|]. split; [reflexivity|]. split; [reflexivity|].
  unfold Doc.validate, from_ai_data in Hv.
  cbn [Doc.d_title Doc.d_description Doc.d_content Doc.d_category Doc.d_theme
       Doc.d_generatedForCollection Doc.d_ageRange Doc.d_duration] in Hv.
  repeat (apply andb_true_iff in Hv as [Hv ?]).
  split.
  { assert (Hreg : exists cat,
               STORY_CATEGORIES (b_generatedForCollection b) = Some (Own cat)).
    { unfold STORY_CATEGORIES.
      unfold Doc.mem, Doc.collection_enum in *. cbn [existsb] in *.
      destruct (str_eqb (b_generatedForCollection b) (lit "mom-stories")); [eauto|].
      destruct (str_eqb (b_generatedForCollection b) (lit "grandma-stories"));
        [eauto|].
      destruct (str_eqb (b_generatedForCollection b) (lit "now-stories")); [eauto|].
      destruct (str_eqb (b_generatedForCollection b) (lit "learn-stories"));
        [eauto|]. discriminate. }
    destruct Hreg as [cat Hcat]. exists cat. split; [reflexivity|exact Hcat]. }
  split; [|split; reflexivity].
  destruct (b_theme b) as [theme|]; cbn [default_to] in *; [|discriminate].
  destruct (b_description b) as [description|]; cbn [default_to] in *;
    [|discriminate].
  exists theme, description. repeat split; auto. now apply nonempty_true.
Qed.

Lemma from_ai_stores_witness :
  let story := Doc.new_story 4 (from_ai_data full_body) in
  let w' := snd (run demo_oracle alone (from_ai full_body) nursery) in
  run demo_oracle alone (from_ai full_body) nursery = (inr (FromAi201 story), w')
  /\ Doc.isAIGenerated story = true
  /\ store w' = alone (tick nursery) (store nursery) ++ [story].
Proof.
  intros story w'.
  assert (Hrun : run demo_oracle alone (from_ai full_body) nursery
                 = (inr (FromAi201 story), w')) by reflexivity.
  split; [exact Hrun|].
  destruct (@from_ai_stores_generated_stories_only demo_oracle alone full_body
              nursery story w' Hrun) as (_ & H2 & _ & _ & _ & H6 & _).
  split; [exact H2|exact H6].
Defined.

(* ===================================================================== *)
(** * Content identifiers *)
(* ===================================================================== *)

Lemma startsWith_split p s : startsWith p s = true -> exists r, s = p ++ r.
Proof. apply is_prefix_split. Qed.

Lemma hex_prefix_free (p : jsstring) (s : jsstring) :
  forallb is_hex p = false -> startsWith p s = true -> forallb is_hex s = false.
Proof.
  intros Hp Hs. apply startsWith_split in Hs as [r ->].
  rewrite forallb_app, Hp. reflexivity.
Qed.

(** X28: an id that routes/stories.js takes for client-side content is
    taken so by routes/child.js too, which accepts the prefix client- in
    addition and nothing else; and a string of 24 hexadecimal digits, the
    shape routes/ai.js requires of a story id, is never taken for
    client-side content by either. *)
Theorem object_ids_are_never_client_side :
  forall id : jsstring,
    (Stories.isClientSideId id = true -> Children.isClientSideId id = true)
    /\ (is_object_id id = true ->
        Stories.isClientSideId id = false /\ Children.isClientSideId id = false)
    /\ (Children.isClientSideId id = true ->
        Stories.isClientSideId id = true \/ startsWith (lit "client-") id = true).
Proof.
  intros id. split; [|split].
  - unfold Stories.isClientSideId, Children.isClientSideId. intros H.
    destruct id as [|c id]; [discriminate|]. cbn [nonempty negb].
    rewrite H. reflexivity.
  - unfold is_object_id. intros H. apply andb_true_iff in H as [_ Hhex].
    assert (Hno : forall p, forallb is_hex p = false -> startsWith p id = false).
    { intros p Hp. destruct (startsWith p id) eqn:E; [|reflexivity].
      rewrite (hex_prefix_free p id Hp E) in Hhex. discriminate. }
    unfold Stories.isClientSideId, Children.isClientSideId.
    rewrite !Hno by reflexivity. split; [reflexivity|].
    destruct (negb (nonempty id)); reflexivity.
  - unfold Stories.isClientSideId, Children.isClientSideId.
    destruct (negb (nonempty id)); [discriminate|].
    intros H. apply orb_true_iff in H as [H|H]; auto.
Qed.
